(** * OpenNetlistView: the Yosys netlist parser, embedded and verified

    A shallow embedding of [src/yosys/parser.cpp] together with the parts of
    [port.cpp], [path.cpp], [module.cpp], [netname.cpp] and [diagram.cpp]
    it drives.  Qt strings are [string], a [QStringList] is a
    [list string], fixed-width unsigned integers are [Z] with their
    wrap-around written out, [std::shared_ptr] objects live in a store that
    is threaded through the parser. *)

From Stdlib Require Import ZArith Lia Ascii DecimalString DecimalN.
From stdpp Require Import base strings numbers list.

Local Open Scope Z_scope.

(** ** Fixed-width arithmetic *)

Definition wrap64 (x : Z) : Z := x mod 2 ^ 64.

(** A [QList] holds at most [2^63 - 1] elements ([qsizetype]). *)
Definition qsizetype_max : Z := 2 ^ 63 - 1.

Definition size {A} (l : list A) : Z := Z.of_nat (length l).
Global Arguments size : simpl never.

(** ** The Qt and STL container operations the parser calls *)

Module QList.
Section Ops.
Context {A : Type} `{EqDecision A}.

(** [QList::mid(pos, len)], after [QContainerImplHelper::mid]. *)
Definition mid (l : list A) (pos len : Z) : list A :=
  let n := size l in
  if pos >? n then []
  else if pos <? 0 then
    if (len <? 0) || (len + pos >=? n) then l
    else if len + pos <=? 0 then []
    else take (Z.to_nat (len + pos)) l
  else if (len <? 0) || (len >? n - pos) then drop (Z.to_nat pos) l
  else take (Z.to_nat len) (drop (Z.to_nat pos) l).

(** [QList::indexOf]: position of the first equal element, or -1. *)
Fixpoint indexOf (l : list A) (x : A) : Z :=
  match l with
  | [] => -1
  | y :: tl =>
      if decide (y = x) then 0
      else let i := indexOf tl x in if i =? -1 then -1 else i + 1
  end.

Definition contains (l : list A) (x : A) : bool :=
  negb (indexOf l x =? -1).

(** [QList::remove(i, 1)] for an index returned by [indexOf]. *)
Definition remove (l : list A) (i : Z) : list A :=
  take (Z.to_nat i) l ++ drop (S (Z.to_nat i)) l.

Fixpoint startsWith (needle hay : list A) : bool :=
  match needle, hay with
  | [], _ => true
  | _ :: _, [] => false
  | x :: ns, y :: hs => bool_decide (x = y) && startsWith ns hs
  end.

(** [std::search(hay.begin(), hay.end(), needle.begin(), needle.end())
    != hay.end()].  With an empty needle [std::search] returns
    [hay.begin()], which differs from [hay.end()] exactly when [hay] is
    not empty. *)
Fixpoint searchFound (hay needle : list A) : bool :=
  match hay with
  | [] => false
  | _ :: tl => startsWith needle hay || searchFound tl needle
  end.
End Ops.
End QList.

(** [std::map]: a container ordered by its keys; iteration follows the
    key order, [operator[]] assignment overwrites the value of an
    equivalent key. *)
Module StdMap.
Section Ops.
Context {K V : Type} (ltb : K → K → bool).

Definition t := list (K * V).

Fixpoint find (m : t) (k : K) : option V :=
  match m with
  | [] => None
  | (k', v) :: tl =>
      if ltb k k' then None
      else if ltb k' k then find tl k
      else Some v
  end.

(** [m[k] = v] *)
Fixpoint set (m : t) (k : K) (v : V) : t :=
  match m with
  | [] => [(k, v)]
  | (k', v') :: tl =>
      if ltb k k' then (k, v) :: m
      else if ltb k' k then (k', v') :: set tl k v
      else (k', v) :: tl
  end.
End Ops.
End StdMap.

(** Orders of the keys in use. *)

(** [QString::operator<] compares code units; on the byte strings of the
    embedding this is the order of [String.compare]. *)
Definition QString_ltb (a b : string) : bool :=
  match String.compare a b with Lt => true | _ => false end.

(** [QList<QString>::operator<] is [std::lexicographical_compare]. *)
Fixpoint QStringList_ltb (a b : list string) : bool :=
  match a, b with
  | _, [] => false
  | [], _ :: _ => true
  | x :: a', y :: b' =>
      if QString_ltb x y then true
      else if QString_ltb y x then false
      else QStringList_ltb a' b'
  end.

(** [std::tuple<uint64_t, uint64_t>::operator<] *)
Definition range_ltb (a b : Z * Z) : bool :=
  (a.1 <? b.1) || ((a.1 =? b.1) && (a.2 <? b.2)).

(** ** Bit segmentation: [Parser::splitBits] *)

Definition isConstBit (bit : string) : bool :=
  bool_decide (bit = "0") || bool_decide (bit = "1").

(** The class of a run, read off its first bit as
    [Parser::replaceConstBits] does. *)
Definition runIsConst (run : list string) : bool :=
  from_option isConstBit false (head run).

Module SplitBits.
(** The local variables of the loop. *)
Record locals := Locals {
  splitBits : StdMap.t (K := Z * Z) (V := list string);
  currentBits : list string;
  startIdx : Z;
  lastWasConst : bool
}.

Definition emit (s : locals) : StdMap.t :=
  StdMap.set range_ltb (splitBits s)
    (startIdx s, wrap64 (startIdx s + size (currentBits s) - 1))
    (currentBits s).

Definition body (s : locals) (bit : string) : locals :=
  let isConst := isConstBit bit in
  if bool_decide (currentBits s = []) || Bool.eqb isConst (lastWasConst s)
  then Locals (splitBits s) (currentBits s ++ [bit]) (startIdx s) isConst
  else Locals (emit s) [bit]
         (wrap64 (startIdx s + size (currentBits s))) isConst.
End SplitBits.

Definition splitBits (bits : list string) : StdMap.t (K := Z * Z) (V := list string) :=
  match bits with
  | [] => []
  | bit0 :: _ =>
      let s := foldl SplitBits.body
                 (SplitBits.Locals [] [] 0 (isConstBit bit0)) bits in
      if bool_decide (SplitBits.currentBits s = []) then SplitBits.splitBits s
      else SplitBits.emit s
  end.


(** ** Qt's number conversions

    [QString::number] prints in base ten.  [QString::toULong],
    [QString::toUInt] and [QString::toInt] skip surrounding white space,
    accept a sign and return 0 when the text is not a number of the
    target type. *)

Definition QString_number (n : Z) : string :=
  NilZero.string_of_uint (N.to_uint (Z.to_N n)).

Definition isSpace (c : ascii) : bool :=
  let n := nat_of_ascii c in
  bool_decide (n = 32%nat) || (bool_decide (9 ≤ n)%nat && bool_decide (n ≤ 13)%nat).

Fixpoint trimLeft (s : string) : string :=
  match s with
  | String c tl => if isSpace c then trimLeft tl else s
  | EmptyString => s
  end.

Definition trimmed (s : string) : string :=
  String.rev (trimLeft (String.rev (trimLeft s))).

(** The digits of [s] as a number; [None] when [s] is empty or has another
    character. *)
Definition digitsValue (s : string) : option Z :=
  match s with
  | EmptyString => None
  | _ => (λ d, Z.of_N (N.of_uint d)) <$> NilEmpty.uint_of_string s
  end.

Definition signedValue (s : string) : option Z :=
  match trimmed s with
  | String "+" tl => digitsValue tl
  | String "-" tl => Z.opp <$> digitsValue tl
  | t => digitsValue t
  end.

Definition toIntegral (lo hi : Z) (s : string) : Z :=
  match signedValue s with
  | Some v => if (lo <=? v) && (v <=? hi) then v else 0
  | None => 0
  end.

Definition toULong : string → Z := toIntegral 0 (2 ^ 64 - 1).
Definition toUInt : string → Z := toIntegral 0 (2 ^ 32 - 1).
Definition toInt : string → Z := toIntegral (- 2 ^ 31) (2 ^ 31 - 1).

(** [QString::split(sep)] for a one-character separator, keeping empty
    parts. *)
Fixpoint splitAt (sep : ascii) (s : string) : list string :=
  match s with
  | EmptyString => [EmptyString]
  | String c tl =>
      if bool_decide (c = sep) then EmptyString :: splitAt sep tl
      else match splitAt sep tl with
           | part :: parts => String c part :: parts
           | [] => [String c EmptyString]
           end
  end.

(** ** The object model *)

(** A [std::shared_ptr] is the address of an object of the store. *)
Definition PortPtr := nat.
Definition PathPtr := nat.
Definition NodePtr := nat.

Inductive EDirection := INPUT | OUTPUT | CONST.

Global Instance EDirection_eq_dec : EqDecision EDirection.
Proof. solve_decision. Defined.

Definition hasBit (p : string → bool) (bits : list string) : bool :=
  existsb p bits.

Definition isNoConnectBit (bit : string) : bool := bool_decide (bit = "x").

Module Port.
Record t := mk {
  name : string;
  direction : EDirection;
  bits : list string;
  path : option PathPtr;
  parentNode : option NodePtr;
  constValue : Z;
  symbolNameAlias : string
}.

(** [Port::Port(name, direction, bits)] *)
Definition new (name : string) (direction : EDirection) (bits : list string) : t :=
  mk name direction bits None None 0 EmptyString.

Definition setPath (pa : option PathPtr) (p : t) : t :=
  mk (name p) (direction p) (bits p) pa (parentNode p) (constValue p)
     (symbolNameAlias p).

Definition setParentNode (n : option NodePtr) (p : t) : t :=
  mk (name p) (direction p) (bits p) (path p) n (constValue p)
     (symbolNameAlias p).

Definition setSymbolNameAlias (alias : string) (p : t) : t :=
  mk (name p) (direction p) (bits p) (path p) (parentNode p) (constValue p)
     alias.

Definition setBits (b : list string) (p : t) : t :=
  mk (name p) (direction p) b (path p) (parentNode p) (constValue p)
     (symbolNameAlias p).

(** [Port::setConstPortValue(QStringList)]: the bits are read from the
    last to the first. *)
Definition setConstPortValue (bits' : list string) (p : t) : t :=
  let v := foldl (λ acc bit, Z.lor (wrap64 (Z.shiftl acc 1)) (toUInt bit))
             0 (reverse bits') in
  mk (name p) (direction p) (bits p) (path p) (parentNode p) v
     (symbolNameAlias p).

Definition hasConstantBits (p : t) : bool := hasBit isConstBit (bits p).

Definition hasNoConnectBitsConnection (p : t) : bool :=
  hasBit isNoConnectBit (bits p).

Definition hasConnection (p : t) : bool :=
  bool_decide (path p ≠ None) || hasNoConnectBitsConnection p.

Definition getMaxBitNumber (p : t) : Z :=
  foldl (λ maxBitNumber bit,
           if negb (isNoConnectBit bit) && negb (isConstBit bit)
           then Z.max maxBitNumber (toULong bit)
           else maxBitNumber)
        0 (bits p).

(** [Port::replaceBits(pos, bits)]: [this->bits[i] = bits[i - first]]
    for [i] from [first] to [second].  The source indexes inside both
    lists, as [Parser::replaceConstBits] ensures. *)
Definition replaceBits (pos : Z * Z) (bits' : list string) (p : t) : t :=
  setBits
    (foldl (λ b i, <[Z.to_nat i := default EmptyString (bits' !! Z.to_nat (i - pos.1))]> b)
           (bits p) (seqZ pos.1 (pos.2 - pos.1 + 1)))
    p.
End Port.

Module Path.
Record t := mk {
  name : string;
  width : Z;
  bits : list string;
  hiddenName : bool;
  sigSource : option PortPtr;
  sigDestinations : list PortPtr;
  alternativeNames : list string
}.

(** [Path::Path(name, bits, hiddenName)] *)
Definition new (name : string) (bits : list string) (hiddenName : bool) : t :=
  mk name (size bits) bits hiddenName None [] [].

Definition setSigSource (sigSource' : option PortPtr) (allowOverwrite : bool)
    (p : t) : t :=
  if bool_decide (sigSource p ≠ None) && negb allowOverwrite then p
  else mk (name p) (width p) (bits p) (hiddenName p) sigSource'
          (sigDestinations p) (alternativeNames p).

Definition addSigDestination (sigDestination : PortPtr) (p : t) : t :=
  mk (name p) (width p) (bits p) (hiddenName p) (sigSource p)
     (sigDestinations p ++ [sigDestination]) (alternativeNames p).

Definition addAlternativeName (n : string) (p : t) : t :=
  mk (name p) (width p) (bits p) (hiddenName p) (sigSource p)
     (sigDestinations p) (alternativeNames p ++ [n]).

Definition hasNoConnectBitsConnection (p : t) : bool :=
  hasBit isNoConnectBit (bits p).

Definition hasConstBits (p : t) : bool := hasBit isConstBit (bits p).

Definition hasConnection (p : t) : bool :=
  (bool_decide (sigSource p ≠ None)
     && negb (bool_decide (sigDestinations p = [])))
  || hasNoConnectBitsConnection p.
End Path.

Module Node.
Record t := mk {
  name : string;
  type : string;
  ports : list PortPtr
}.
End Node.

Module Netname.
Record t := mk {
  name : string;
  bits : list string;
  isHidden : bool;
  alternativeNetnames : list string
}.

Definition new (name : string) (bits : list string) (isHidden : bool) : t :=
  mk name bits isHidden [].

Definition addAlternativeName (alternativeName : string) (n : t) : t :=
  mk (name n) (bits n) (isHidden n) (alternativeNetnames n ++ [alternativeName]).
End Netname.

Global Instance Port_inhabited : Inhabited Port.t :=
  populate (Port.new EmptyString INPUT []).
Global Instance Path_inhabited : Inhabited Path.t :=
  populate (Path.new EmptyString [] false).
Global Instance Node_inhabited : Inhabited Node.t :=
  populate (Node.mk EmptyString EmptyString []).

(** The store of the shared objects.  An address is the position of its
    object; [make_shared] appends, nothing is ever freed, and every
    address the parser holds is inside the store. *)
Record Store := mkStore {
  portObj : list Port.t;
  pathObj : list Path.t;
  nodeObj : list Node.t
}.

Definition emptyStore : Store := mkStore [] [] [].

Definition port (h : Store) (p : PortPtr) : Port.t := portObj h !!! p.
Definition path (h : Store) (p : PathPtr) : Path.t := pathObj h !!! p.
Definition node (h : Store) (n : NodePtr) : Node.t := nodeObj h !!! n.

Definition newPort (o : Port.t) (h : Store) : PortPtr * Store :=
  (length (portObj h), mkStore (portObj h ++ [o]) (pathObj h) (nodeObj h)).
Definition newPath (o : Path.t) (h : Store) : PathPtr * Store :=
  (length (pathObj h), mkStore (portObj h) (pathObj h ++ [o]) (nodeObj h)).
Definition newNode (o : Node.t) (h : Store) : NodePtr * Store :=
  (length (nodeObj h), mkStore (portObj h) (pathObj h) (nodeObj h ++ [o])).

Definition updPort (p : PortPtr) (f : Port.t → Port.t) (h : Store) : Store :=
  mkStore (alter f p (portObj h)) (pathObj h) (nodeObj h).
Definition updPath (p : PathPtr) (f : Path.t → Path.t) (h : Store) : Store :=
  mkStore (portObj h) (alter f p (pathObj h)) (nodeObj h).

(** [Module]: the vectors of shared pointers of one circuit unit. *)
Module YModule.
Record t := mk {
  type : string;
  ports : list PortPtr;
  nodes : list NodePtr;
  paths : list PathPtr;
  netnames : list Netname.t
}.

Definition new (type : string) : t := mk type [] [] [] [].

Definition addPath (p : PathPtr) (m : t) : t :=
  mk (type m) (ports m) (nodes m) (paths m ++ [p]) (netnames m).
Definition addNode (n : NodePtr) (m : t) : t :=
  mk (type m) (ports m) (nodes m ++ [n]) (paths m) (netnames m).
Definition addPort (p : PortPtr) (m : t) : t :=
  mk (type m) (ports m ++ [p]) (nodes m) (paths m) (netnames m).
Definition addNetname (n : Netname.t) (m : t) : t :=
  mk (type m) (ports m) (nodes m) (paths m) (netnames m ++ [n]).
Definition setNetnames (ns : list Netname.t) (m : t) : t :=
  mk (type m) (ports m) (nodes m) (paths m) ns.
Definition setPaths (ps : list PathPtr) (m : t) : t :=
  mk (type m) (ports m) (nodes m) ps (netnames m).

(** [std::find] by pointer, then [erase] of that one position. *)
Fixpoint eraseFirst (p : PathPtr) (l : list PathPtr) : list PathPtr :=
  match l with
  | [] => []
  | q :: tl => if decide (q = p) then tl else q :: eraseFirst p tl
  end.

Definition removePath (p : PathPtr) (m : t) : t :=
  setPaths (eraseFirst p (paths m)) m.

Definition isEmpty (m : t) : bool :=
  bool_decide (paths m = []) && bool_decide (nodes m = [])
  && bool_decide (ports m = []).

Definition getMaxBitNumber (h : Store) (m : t) : Z :=
  let m1 := foldl (λ acc p, Z.max acc (Port.getMaxBitNumber (port h p)))
              0 (ports m) in
  foldl (λ acc n,
           foldl (λ acc p, Z.max acc (Port.getMaxBitNumber (port h p)))
                 acc (Node.ports (node h n)))
        m1 (nodes m).

(** [std::find_if] over the netnames: the first one with these bits. *)
Definition getNetnameByBits (bits : list string) (m : t) : option Netname.t :=
  List.find (λ n, bool_decide (Netname.bits n = bits)) (netnames m).

Definition getPathByBits (h : Store) (bits : list string) (m : t) : option PathPtr :=
  List.find (λ p, bool_decide (Path.bits (path h p) = bits)) (paths m).

Definition hasModuleInvalidPaths (h : Store) (m : t) : bool :=
  negb (forallb (λ p, Path.hasConnection (path h p)) (paths m))
  || bool_decide (paths m = []).
End YModule.

Module Diagram.
Record t := mk {
  modules : list YModule.t;
  topModule : option YModule.t
}.

Definition new : t := mk [] None.
Definition addModule (m : YModule.t) (d : t) : t :=
  mk (modules d ++ [m]) (topModule d).
Definition setTopModule (m : YModule.t) (d : t) : t :=
  mk (modules d) (Some m).
End Diagram.

(** ** The JSON document

    Numbers are the integers Yosys writes.  [jat] is
    [QJsonObject::operator[]] on a mutable object: a key that is absent
    reads as [Null].  An object lists its members in key order, the order
    in which [toVariantMap().asKeyValueRange()] visits them. *)

#[local] Unset Elimination Schemes.
Inductive QJsonValue :=
| JNull
| JBool (b : bool)
| JNumber (n : Z)
| JString (s : string)
| JArray (a : list QJsonValue)
| JObject (o : list (string * QJsonValue)).
#[local] Set Elimination Schemes.

Definition QJsonObject := list (string * QJsonValue).

Module Json.
Definition toObject (v : QJsonValue) : QJsonObject :=
  match v with JObject o => o | _ => [] end.
Definition toArray (v : QJsonValue) : list QJsonValue :=
  match v with JArray a => a | _ => [] end.
Definition toString (v : QJsonValue) : string :=
  match v with JString s => s | _ => EmptyString end.
Definition toInt (v : QJsonValue) : Z :=
  match v with
  | JNumber n => if (- 2 ^ 31 <=? n) && (n <=? 2 ^ 31 - 1) then n else 0
  | _ => 0
  end.
Definition isNull (v : QJsonValue) : bool :=
  match v with JNull => true | _ => false end.
Definition isString (v : QJsonValue) : bool :=
  match v with JString _ => true | _ => false end.

Fixpoint jat (o : QJsonObject) (key : string) : QJsonValue :=
  match o with
  | [] => JNull
  | (k, v) :: tl => if decide (k = key) then v else jat tl key
  end.

Definition keys (o : QJsonObject) : list string := o.*1.

(** [QVariant::toString] of the variant of a JSON value. *)
Definition variantToString (v : QJsonValue) : string :=
  match v with
  | JString s => s
  | JNumber n => if n <? 0 then "-" +:+ QString_number (- n) else QString_number n
  | JBool true => "true"
  | JBool false => "false"
  | _ => EmptyString
  end.

(** [QJsonArray::removeAt]: nothing happens outside the array. *)
Definition removeAt {A} (a : list A) (i : Z) : list A :=
  if (i <? 0) || (i >=? size a) then a else delete (Z.to_nat i) a.
End Json.

Module YosysJson.
Definition modules := "modules".
Definition ports := "ports".
Definition cells := "cells".
Definition attributes := "attributes".
Definition blackbox := "blackbox".
Definition direction := "direction".
Definition bits := "bits".
Definition input_dir := "input".
Definition output_dir := "output".
Definition type := "type".
Definition port_directions := "port_directions".
Definition connections := "connections".
Definition netnames := "netnames".
Definition hide_name := "hide_name".
Definition joinType := "join".
Definition splitType := "split".
Definition unused_bits := "unused_bits".
End YosysJson.

Module SymbolTypes.
Definition defaultSymbols : list string :=
  ["mux"; "mux-bus"; "tribuf"; "and"; "nand"; "or"; "not";
   "add"; "sub"; "eq"; "dff"; "dffn"; "lt"; "le"; "ge";
   "gt"; "inputExt"; "constant"; "outputExt"; "split";
   "join"; "generic"].

Definition isValidSymbolType (type : string) : bool :=
  let typeWithoutDollar :=
    match type with
    | String "$" tl => tl
    | _ => type
    end in
  bool_decide (typeWithoutDollar ∈ defaultSymbols).
End SymbolTypes.

(** ** The parser state and its monad *)

Definition BitsMap := StdMap.t (K := list string) (V := list string).
Definition InfoMap := StdMap.t (K := list string) (V := list (list string)).

Record Parser := mkParser {
  diagram : Diagram.t;
  currentModule : YModule.t;
  constToNonConstPortBits : BitsMap;
  store : Store
}.

Definition newParser : Parser :=
  mkParser Diagram.new (YModule.new EmptyString) [] emptyStore.

Definition setDiagram (d : Diagram.t) (p : Parser) : Parser :=
  mkParser d (currentModule p) (constToNonConstPortBits p) (store p).
Definition setCurrentModule (m : YModule.t) (p : Parser) : Parser :=
  mkParser (diagram p) m (constToNonConstPortBits p) (store p).
Definition setConstMap (c : BitsMap) (p : Parser) : Parser :=
  mkParser (diagram p) (currentModule p) c (store p).
Definition setStore (h : Store) (p : Parser) : Parser :=
  mkParser (diagram p) (currentModule p) (constToNonConstPortBits p) h.

Definition onModule (f : YModule.t → YModule.t) (p : Parser) : Parser :=
  setCurrentModule (f (currentModule p)) p.
Definition onStore (f : Store → Store) (p : Parser) : Parser :=
  setStore (f (store p)) p.

(** The outcome of a call that may end in [throw std::runtime_error(what)].
    The parser object is kept in both cases. *)
Inductive result (A : Type) :=
| Return (a : A)
| Throw (what : string).
Arguments Return {A} a.
Arguments Throw {A} what.

Definition M (A : Type) : Type := Parser → Parser * result A.

Definition ret {A} (a : A) : M A := λ p, (p, Return a).
Definition throw {A} (what : string) : M A := λ p, (p, Throw what).
Definition bind {A B} (m : M A) (k : A → M B) : M B :=
  λ p, match m p with
       | (p', Return a) => k a p'
       | (p', Throw what) => (p', Throw what)
       end.
Definition get : M Parser := λ p, (p, Return p).
Definition modify (f : Parser → Parser) : M unit := λ p, (f p, Return tt).

Notation "'do' x <- m ; k" := (bind m (λ x, k))
  (at level 10, x name, m at level 100, k at level 200).
Notation "m ;;; k" := (bind m (λ _, k))
  (at level 100, k at level 200, right associativity).

(** A range-based [for] whose body may throw. *)
Fixpoint forEach {A} (l : list A) (body : A → M unit) : M unit :=
  match l with
  | [] => ret tt
  | x :: tl => body x ;;; forEach tl body
  end.

(** [std::make_shared<Port>(...)] *)
Definition makePort (o : Port.t) : M PortPtr :=
  λ p, let '(a, h) := newPort o (store p) in (setStore h p, Return a).

(** ** Ports, cells and net names *)

(** [Parser::createPort] *)
Definition createPort (name : string) (bitData directionData : QJsonValue)
    : M PortPtr :=
  let directionStr := Json.toString directionData in
  do direction <-
    (if decide (directionStr = YosysJson.input_dir) then ret INPUT
     else if decide (directionStr = YosysJson.output_dir) then ret OUTPUT
     else throw ("Error while parsing the port " +:+ name +:+ ": Invalid direction"));
  let bitDataArray := Json.toArray bitData in
  if bool_decide (bitDataArray = [])
  then throw ("Error while parsing the port " +:+ name +:+ ": No bits found")
  else makePort (Port.new name direction (Json.variantToString <$> bitDataArray)).

(** [Parser::createConstantPort] *)
Definition createConstantPort (name : string) (bits constValue : list string)
    (h : Store) : PortPtr * Store :=
  newPort (Port.setConstPortValue constValue (Port.new name CONST bits)) h.

(** [Parser::parsePorts] *)
Definition parsePorts (ports : QJsonObject) : M unit :=
  forEach ports (λ '(name, value),
    let portData := Json.toObject value in
    do portInstance <- createPort name (Json.jat portData YosysJson.bits)
                         (Json.jat portData YosysJson.direction);
    modify (onModule (YModule.addPort portInstance))).

Module ParseCells.
(** The locals of the loop that creates the ports of one cell. *)
Record locals := Locals {
  indexIn : Z;
  indexOut : Z;
  ports : list PortPtr
}.

Fixpoint createPorts (portNames : list string)
    (cellType : QJsonValue) (portDirections portConnections : QJsonObject)
    (s : locals) : M locals :=
  match portNames with
  | [] => ret s
  | portName :: tl =>
      do port <- createPort portName (Json.jat portConnections portName)
                   (Json.jat portDirections portName);
      let dir := Json.toString (Json.jat portDirections portName) in
      let valid := SymbolTypes.isValidSymbolType (Json.toString cellType) in
      let '(symbolNameAlias, indexIn', indexOut') :=
        if bool_decide (dir = "input") && negb valid
        then ("in" +:+ QString_number (indexIn s), indexIn s + 1, indexOut s)
        else if bool_decide (dir = "output") && negb valid
        then ("out" +:+ QString_number (indexOut s), indexIn s, indexOut s + 1)
        else (EmptyString, indexIn s, indexOut s) in
      modify (onStore (updPort port (Port.setSymbolNameAlias symbolNameAlias))) ;;;
      createPorts tl cellType portDirections portConnections
        (Locals indexIn' indexOut' (ports s ++ [port]))
  end.
End ParseCells.

(** [Parser::parseCells] *)
Definition parseCells (cells : QJsonObject) : M unit :=
  forEach cells (λ '(name, value),
    let cellData := Json.toObject value in
    let cellType := Json.jat cellData YosysJson.type in
    if negb (Json.isString cellType)
    then throw ("Error while parsing " +:+ name +:+ ": Cell type is not valid")
    else
    let portDirections := Json.toObject (Json.jat cellData YosysJson.port_directions) in
    let portConnections := Json.toObject (Json.jat cellData YosysJson.connections) in
    if bool_decide (portDirections = []) || bool_decide (portConnections = [])
    then throw ("Error while parsing " +:+ name
                +:+ ": No port directions or connections found")
    else if negb (length portDirections =? length portConnections)%nat
    then throw ("Error while parsing " +:+ name +:+
                ": the number of port direction definitions does not match the number of port connections")
    else
    do s <- ParseCells.createPorts (Json.keys portDirections) cellType
              portDirections portConnections (ParseCells.Locals 0 0 []);
    let ports := ParseCells.ports s in
    if negb (length portDirections =? length ports)%nat
    then throw ("Error while parsing " +:+ name
                +:+ ": Not all ports could be created successfully")
    else
    modify (λ p,
      let '(cellNode, h) :=
        newNode (Node.mk name (Json.toString cellType) ports) (store p) in
      let p := onModule (YModule.addNode cellNode) (setStore h p) in
      foldl (λ p port, onStore (updPort port (Port.setParentNode (Some cellNode))) p)
            p ports)).

(** [Parser::parseNetnames] *)
Definition parseNetnames (paths : QJsonObject) : M unit :=
  forEach paths (λ '(pathName, pathData),
    let netnameDataObject := Json.toObject pathData in
    let hiddenName :=
      bool_decide (Json.toInt (Json.jat netnameDataObject YosysJson.hide_name) = 1) in
    let bitsArray := Json.toArray (Json.jat netnameDataObject YosysJson.bits) in
    if bool_decide (bitsArray = [])
    then throw ("Error while parsing the netname " +:+ pathName +:+ ": No bits found")
    else if forallb (λ bit, Json.isString bit || bool_decide (Json.toString bit = "x"))
              bitsArray
    then ret tt
    else
    let unusedBits :=
      Json.jat (Json.toObject (Json.jat netnameDataObject YosysJson.attributes))
        YosysJson.unused_bits in
    let bitsArray :=
      if Json.isString unusedBits
      then foldl (λ a bit, Json.removeAt a (toInt bit)) bitsArray
             (reverse (splitAt " " (Json.toString unusedBits)))
      else bitsArray in
    let bitStrings := Json.variantToString <$> bitsArray in
    modify (onModule (λ m,
      let foundAlternative :=
        existsb (λ n, bool_decide (Netname.bits n = bitStrings)) (YModule.netnames m) in
      let m := YModule.setNetnames
                 ((λ n, if bool_decide (Netname.bits n = bitStrings)
                        then Netname.addAlternativeName pathName n else n)
                    <$> YModule.netnames m) m in
      if foundAlternative then m
      else YModule.addNetname (Netname.new pathName bitStrings hiddenName) m))).

(** ** Constant materialisation: [Parser::replaceConstBits] *)

Module ReplaceConstBits.
(** The ports whose constant bits are replaced: the OUTPUT ports of the
    module, then the INPUT ports of its nodes. *)
Definition srcPorts (h : Store) (m : YModule.t) : list PortPtr :=
  List.filter (λ p, bool_decide (Port.direction (port h p) = OUTPUT)
                    && Port.hasConstantBits (port h p))
              (YModule.ports m)
  ++ concat ((λ n,
       List.filter (λ p, bool_decide (Port.direction (port h p) = INPUT)
                         && Port.hasConstantBits (port h p))
                   (Node.ports (node h n)))
      <$> YModule.nodes m).

(** [maxBitNumber++; bits.push_back(QString::number(maxBitNumber))],
    once per bit of the run. *)
Definition freshBits (maxBitNumber : Z) (bitValue : list string)
    : list string * Z :=
  foldl (λ '(bits, maxBitNumber) _,
           let maxBitNumber := wrap64 (maxBitNumber + 1) in
           (bits ++ [QString_number maxBitNumber], maxBitNumber))
        ([], maxBitNumber) bitValue.

(** One run of the segmentation of [srcPort]. *)
Definition run (srcPort : PortPtr) (st : Parser * Z)
    (entry : (Z * Z) * list string) : Parser * Z :=
  let '(p, maxBitNumber) := st in
  let '(pos, bitValue) := entry in
  if negb (runIsConst bitValue) then st
  else
    let '(bits, maxBitNumber) := freshBits maxBitNumber bitValue in
    let '(constPort, h) :=
      createConstantPort (Port.name (port (store p) srcPort) +:+ "_const")
        bits bitValue (store p) in
    let p := onModule (YModule.addPort constPort) (setStore h p) in
    (onStore (updPort srcPort (Port.replaceBits pos bits)) p, maxBitNumber).

Definition body (st : Parser * Z) (srcPort : PortPtr) : Parser * Z :=
  let splitBitsMap := splitBits (Port.bits (port (store st.1) srcPort)) in
  let originalBits := Port.bits (port (store st.1) srcPort) in
  let '(p, maxBitNumber) := foldl (run srcPort) st splitBitsMap in
  (setConstMap
     (StdMap.set QStringList_ltb (constToNonConstPortBits p) originalBits
        (Port.bits (port (store p) srcPort)))
     p,
   maxBitNumber).
End ReplaceConstBits.

Definition replaceConstBits (p : Parser) : Parser :=
  let srcPorts := ReplaceConstBits.srcPorts (store p) (currentModule p) in
  let maxBitNumber := YModule.getMaxBitNumber (store p) (currentModule p) in
  (foldl ReplaceConstBits.body (p, maxBitNumber) srcPorts).1.

(** ** The signal resolver: [Parser::createSplitJoin] *)

Record Task := mkTask {
  startIdx : Z;
  endIdx : Z;
  querryBits : list string
}.

(** The containers [createSplitJoin] receives by reference. *)
Record Pools := mkPools {
  srcPorts : list (list string);
  destPorts : list (list string);
  splitInfo : InfoMap;
  joinInfo : InfoMap
}.

(** [Parser::indexOfContains] *)
Fixpoint indexOfContains (lst : list (list string)) (element : list string) : Z :=
  match lst with
  | [] => -1
  | haystack :: tl =>
      if QList.searchFound haystack element then 0
      else let i := indexOfContains tl element in
           if i =? -1 then -1 else i + 1
  end.

(** [Parser::addToMap] *)
Definition addToMap (map : InfoMap) (key value : list string) : InfoMap :=
  match StdMap.find QStringList_ltb map key with
  | None => StdMap.set QStringList_ltb map key [value]
  | Some values => StdMap.set QStringList_ltb map key (values ++ [value])
  end.

Module CreateSplitJoin.
Definition remainder (toSolve : list string) (current : Task) : Task :=
  mkTask (endIdx current) (size toSolve)
    (QList.mid toSolve (endIdx current) (size toSolve - endIdx current)).

Definition shrunk (toSolve : list string) (current : Task) : Task :=
  mkTask (startIdx current)
    (startIdx current + size (querryBits current) - 1)
    (QList.mid toSolve (startIdx current) (size (querryBits current) - 1)).

Definition claim (toSolve : list string) (st : Pools) : Pools :=
  let destIdx := QList.indexOf (destPorts st) toSolve in
  if destIdx =? -1 then st
  else mkPools (srcPorts st) (QList.remove (destPorts st) destIdx)
         (splitInfo st) (joinInfo st).

Definition noteJoin (toSolve querryBits : list string) (st : Pools) : Pools :=
  if bool_decide (querryBits ≠ toSolve)
  then mkPools (srcPorts st) (destPorts st) (splitInfo st)
         (addToMap (joinInfo st) toSolve querryBits)
  else st.

Section Loop.
(** The call of [createSplitJoin] on the query itself, with the scratch
    list [tmpDstPorts] in place of the sinks; the sinks of the caller
    come back untouched. *)
Variable nested : Pools → list string → option Pools.
Variable toSolve : list string.

(** One turn of [while(!tasks.empty())]: the pools and the stack after
    it. *)
Definition turn (st : Pools) (current : Task) (tasks : list Task)
    : option (Pools * list Task) :=
  let st := claim toSolve st in
  if (startIdx current >=? size toSolve)
     || (endIdx current - startIdx current <? 1)
  then Some (st, tasks)
  else
    let querryBits := querryBits current in
    if QList.contains (srcPorts st) querryBits then
      Some (noteJoin toSolve querryBits st, remainder toSolve current :: tasks)
    else
      let indexOfSubPath := indexOfContains (srcPorts st) querryBits in
      if negb (indexOfSubPath =? -1) then
        let st := noteJoin toSolve querryBits st in
        let st := mkPools (srcPorts st ++ [querryBits]) (destPorts st)
                    (addToMap (splitInfo st)
                       (srcPorts st !!! Z.to_nat indexOfSubPath) querryBits)
                    (joinInfo st) in
        Some (st, remainder toSolve current :: tasks)
      else if negb (indexOfContains (destPorts st) querryBits =? -1) then
        let st := noteJoin toSolve querryBits st in
        match nested st querryBits with
        | None => None
        | Some st =>
            let st := mkPools (srcPorts st ++ [querryBits]) (destPorts st)
                        (splitInfo st) (joinInfo st) in
            Some (st,
                  if QList.searchFound toSolve querryBits
                  then remainder toSolve current :: tasks
                  else tasks)
        end
      else Some (st, shrunk toSolve current :: tasks).

Fixpoint loop (fuel : nat) (st : Pools) (tasks : list Task) : option Pools :=
  match tasks with
  | [] => Some st
  | current :: tasks =>
      match fuel with
      | O => None
      | S fuel =>
          match turn st current tasks with
          | None => None
          | Some (st, tasks) => loop fuel st tasks
          end
      end
  end.
End Loop.
End CreateSplitJoin.

(** [depth] bounds the nesting of the calls, [fuel] the turns of each
    worklist; [None] means that one of them ran out. *)
Fixpoint createSplitJoin (depth fuel : nat) (st : Pools) (toSolve : list string)
    (startIdx endIdx : Z) : option Pools :=
  match depth with
  | O => None
  | S depth =>
      CreateSplitJoin.loop
        (λ st querryBits,
           match createSplitJoin depth fuel
                   (mkPools (srcPorts st) [] (splitInfo st) (joinInfo st))
                   querryBits 0 (size querryBits) with
           | Some st' => Some (mkPools (srcPorts st') (destPorts st)
                                 (splitInfo st') (joinInfo st'))
           | None => None
           end)
        toSolve fuel st
        [mkTask startIdx endIdx (QList.mid toSolve startIdx (endIdx - startIdx))]
  end.

(** Turns that always suffice for a query of [n] bits. *)
Definition resolveFuel (n : nat) : nat := (n * (n + 2) + n + 1)%nat.

(** The call as [connectDiagramConnections] makes it. *)
Definition resolve (st : Pools) (destPort : list string) : Pools :=
  default st
    (createSplitJoin 2 (resolveFuel (length destPort)) st destPort 0 (size destPort)).

(** ** Node synthesis: [Parser::createSplitNodes], [Parser::createJoinNodes] *)

(** [std::make_shared<Port>] for each description, in order. *)
Definition makePorts (ports : list Port.t) (h : Store) : list PortPtr * Store :=
  foldl (λ '(ptrs, h) o, let '(a, h) := newPort o h in (ptrs ++ [a], h))
        ([], h) ports.

(** The tail shared by both: the node is made from its ports, every port
    gets the node as parent, the node joins the module. *)
Definition addSyntheticNode (name type : string) (ports : list Port.t)
    (p : Parser) : Parser :=
  let '(ptrs, h) := makePorts ports (store p) in
  let '(n, h) := newNode (Node.mk name type ptrs) h in
  let h := foldl (λ h port, updPort port (Port.setParentNode (Some n)) h) h ptrs in
  onModule (YModule.addNode n) (setStore h p).

Definition createSplitNodes (splitInfo : InfoMap) (p : Parser) : Parser :=
  (foldl (λ '(p, splitIndex) '(srcBits, destBits),
            let spliterPorts :=
              Port.new "in" INPUT srcBits
              :: imap (λ index destBit,
                         Port.new ("out" +:+ QString_number (Z.of_nat index))
                           OUTPUT destBit)
                      destBits in
            (addSyntheticNode ("split" +:+ QString_number splitIndex)
               YosysJson.splitType spliterPorts p,
             splitIndex + 1))
         (p, 0) splitInfo).1.

Definition createJoinNodes (joinInfo : InfoMap) (p : Parser) : Parser :=
  (foldl (λ '(p, joinIndex) '(srcBits, destBits),
            let joinerPorts :=
              imap (λ index destBit,
                      Port.new ("in" +:+ QString_number (Z.of_nat index))
                        INPUT destBit)
                   destBits
              ++ [Port.new "out" OUTPUT srcBits] in
            (addSyntheticNode ("join" +:+ QString_number joinIndex)
               YosysJson.joinType joinerPorts p,
             joinIndex + 1))
         (p, 0) joinInfo).1.

(** ** Stitching *)

Module ConnectSignalSrc.
(** The name and the hidden flag of the path of [srcPort]. *)
Definition naming (p : Parser) (srcPort : PortPtr) : string * bool :=
  let o := port (store p) srcPort in
  let unnamed := (Port.name o +:+ "_sig", true) in
  if decide (Port.direction o = CONST) then
    match StdMap.find QStringList_ltb (constToNonConstPortBits p) (Port.bits o) with
    | Some second =>
        match YModule.getNetnameByBits second (currentModule p) with
        | Some netname => (Netname.name netname, Netname.isHidden netname)
        | None => unnamed
        end
    | None => unnamed
    end
  else
    match YModule.getNetnameByBits (Port.bits o) (currentModule p) with
    | Some findIt => (Netname.name findIt, Netname.isHidden findIt)
    | None => unnamed
    end.

Definition body (p : Parser) (srcPort : PortPtr) : Parser :=
  let '(pathName, isHidden) := naming p srcPort in
  let '(pa, h) :=
    newPath (Path.new pathName (Port.bits (port (store p) srcPort)) isHidden)
      (store p) in
  let h := updPath pa (Path.setSigSource (Some srcPort) false) h in
  let h := updPort srcPort (Port.setPath (Some pa)) h in
  onModule (YModule.addPath pa) (setStore h p).
End ConnectSignalSrc.

(** [Parser::connectSignalSrcConnections] *)
Definition connectSignalSrcConnections (srcPorts : list PortPtr) (p : Parser) : Parser :=
  foldl ConnectSignalSrc.body p srcPorts.

Module ConnectSignalDest.
Definition body (p : Parser) (destPort : PortPtr) : Parser :=
  match YModule.getPathByBits (store p) (Port.bits (port (store p) destPort))
          (currentModule p) with
  | None => p
  | Some pa =>
      onStore (λ h, updPort destPort (Port.setPath (Some pa))
                      (updPath pa (Path.addSigDestination destPort) h)) p
  end.
End ConnectSignalDest.

(** [Parser::connectSignalDestConnections] *)
Definition connectSignalDestConnections (destPorts : list PortPtr) (p : Parser) : Parser :=
  foldl ConnectSignalDest.body p destPorts.

Module CreateSignalConnections.
Definition nodePorts (h : Store) (m : YModule.t) : list PortPtr :=
  concat ((λ n, Node.ports (node h n)) <$> YModule.nodes m).

Definition srcPorts (h : Store) (m : YModule.t) : list PortPtr :=
  List.filter (λ p, bool_decide (Port.direction (port h p) = INPUT)
                    || bool_decide (Port.direction (port h p) = CONST))
              (YModule.ports m)
  ++ List.filter (λ p, bool_decide (Port.direction (port h p) = OUTPUT))
                 (nodePorts h m).

Definition destPorts (h : Store) (m : YModule.t) : list PortPtr :=
  List.filter (λ p, negb (bool_decide (Port.direction (port h p) = INPUT)
                          || bool_decide (Port.direction (port h p) = CONST)))
              (YModule.ports m)
  ++ List.filter (λ p, negb (bool_decide (Port.direction (port h p) = OUTPUT)))
                 (nodePorts h m).
End CreateSignalConnections.

(** [Parser::createSignalConnections] *)
Definition createSignalConnections (p : Parser) : Parser :=
  let srcPorts := CreateSignalConnections.srcPorts (store p) (currentModule p) in
  let destPorts := CreateSignalConnections.destPorts (store p) (currentModule p) in
  connectSignalDestConnections destPorts (connectSignalSrcConnections srcPorts p).

Module ConnectDiagram.
(** The bit sequences handed to the resolver; a port with a no-connect
    bit is left out. *)
Definition connected (h : Store) (ps : list PortPtr) : list PortPtr :=
  List.filter (λ p, negb (Port.hasNoConnectBitsConnection (port h p))) ps.

Definition srcPorts (h : Store) (m : YModule.t) : list (list string) :=
  (λ p, Port.bits (port h p)) <$>
    (List.filter (λ p, bool_decide (Port.direction (port h p) = INPUT)
                       || bool_decide (Port.direction (port h p) = CONST))
                 (connected h (YModule.ports m))
     ++ List.filter (λ p, bool_decide (Port.direction (port h p) = OUTPUT))
                    (connected h (CreateSignalConnections.nodePorts h m))).

Definition destPorts (h : Store) (m : YModule.t) : list (list string) :=
  (λ p, Port.bits (port h p)) <$>
    (List.filter (λ p, bool_decide (Port.direction (port h p) = OUTPUT))
                 (connected h (YModule.ports m))
     ++ List.filter (λ p, bool_decide (Port.direction (port h p) = INPUT))
                    (connected h (CreateSignalConnections.nodePorts h m))).
End ConnectDiagram.

(** [Parser::connectDiagramConnections] *)
Definition connectDiagramConnections (p : Parser) : Parser :=
  let srcPorts := ConnectDiagram.srcPorts (store p) (currentModule p) in
  let destPorts := ConnectDiagram.destPorts (store p) (currentModule p) in
  let copyDestPorts := destPorts in
  let st := foldl resolve (mkPools srcPorts copyDestPorts [] []) destPorts in
  createSignalConnections
    (createSplitNodes (splitInfo st) (createJoinNodes (joinInfo st) p)).

(** ** Pruning: [Parser::removeUnconnectedPaths] *)

Definition removeUnconnectedPaths (p : Parser) : Parser :=
  let paths := YModule.paths (currentModule p) in
  let pathsToRemove :=
    List.filter (λ pa, negb (Path.hasConnection (path (store p) pa))) paths in
  foldl (λ p pa, onModule (YModule.removePath pa) p) p pathsToRemove.

(** ** [Parser::parse] *)

Module Parse.
(** The body of the loop over the modules of the document. *)
Definition body (name : string) (module : QJsonValue) : M unit :=
  let attributes :=
    Json.toObject (Json.jat (Json.toObject module) YosysJson.attributes) in
  if negb (Json.isNull (Json.jat attributes YosysJson.blackbox)) then ret tt
  else
  modify (setCurrentModule (YModule.new name)) ;;;
  parseNetnames (Json.toObject (Json.jat (Json.toObject module) YosysJson.netnames)) ;;;
  parsePorts (Json.toObject (Json.jat (Json.toObject module) YosysJson.ports)) ;;;
  parseCells (Json.toObject (Json.jat (Json.toObject module) YosysJson.cells)) ;;;
  do p <- get;
  if bool_decide (YModule.ports (currentModule p) = [])
     && bool_decide (YModule.nodes (currentModule p) = [])
  then throw ("Error while parsing " +:+ name +:+ ": Module has no Ports or Nodes")
  else
  modify replaceConstBits ;;;
  modify connectDiagramConnections ;;;
  modify removeUnconnectedPaths ;;;
  do p <- get;
  if YModule.hasModuleInvalidPaths (store p) (currentModule p)
  then throw ("Error while parsing " +:+ name +:+ ": Module has no Paths or Nodes")
  else if YModule.isEmpty (currentModule p)
  then throw ("Error while parsing " +:+ name +:+ ": Module has no components")
  else
  modify (λ p, setDiagram (Diagram.addModule (currentModule p) (diagram p)) p) ;;;
  if negb (Json.isNull (Json.jat attributes "top"))
  then modify (λ p, setDiagram (Diagram.setTopModule (currentModule p) (diagram p)) p)
  else ret tt.
End Parse.

Definition parse (yosysJsonObject : QJsonObject) : M unit :=
  let yosysModules := Json.toObject (Json.jat yosysJsonObject YosysJson.modules) in
  if bool_decide (yosysModules = [])
  then throw "No modules found in Yosys JSON object"
  else forEach yosysModules (λ '(name, module), Parse.body name module).


(** The three calls of [parse] between the reading of a module and its
    validation. *)
Definition pipeline (p : Parser) : Parser :=
  removeUnconnectedPaths (connectDiagramConnections (replaceConstBits p)).

(** The checks of [parse] that a module has to pass after [pipeline]. *)
Definition accepted (p : Parser) : bool :=
  negb (YModule.hasModuleInvalidPaths (store p) (currentModule p))
  && negb (YModule.isEmpty (currentModule p)).

(** A fresh parser in which [parsePorts] has built the boundary ports
    [ports] of the module [type]. *)
Definition afterPorts (type : string) (ports : list Port.t) : Parser :=
  mkParser Diagram.new (YModule.mk type (seq 0 (length ports)) [] [] []) []
    (mkStore ports [] []).

(** ** Documents of the scenarios *)

Module Examples.
Definition bitsOf (bits : list string) : QJsonValue := JArray (JString <$> bits).
Definition netsOf (bits : list Z) : QJsonValue := JArray (JNumber <$> bits).
Definition jport (direction : string) (bits : QJsonValue) : QJsonValue :=
  JObject [("bits", bits); ("direction", JString direction)].
Definition jnetname (bits : QJsonValue) : QJsonValue :=
  JObject [("bits", bits); ("hide_name", JNumber 0)].
Definition document (modules : QJsonObject) : QJsonObject :=
  [("modules", JObject modules)].

(** Scenario B: one 4-bit input, two 2-bit outputs. *)
Definition splitModule : QJsonValue :=
  JObject [("ports", JObject [
    ("a", jport "input" (bitsOf ["n1"; "n2"; "n3"; "n4"]));
    ("b", jport "output" (bitsOf ["n1"; "n2"]));
    ("c", jport "output" (bitsOf ["n3"; "n4"]))])].

(** A module without ports, cells and net names. *)
Definition emptyModule : QJsonValue := JObject [].

(** [module m(output o); assign o = 1'b0; endmodule] *)
Definition constModule : QJsonValue :=
  JObject [("netnames", JObject [("o", jnetname (bitsOf ["0"]))]);
           ("ports", JObject [("o", jport "output" (bitsOf ["0"]))])].

(** An input that nothing reads, next to a wire from [b] to [c]. *)
Definition unusedInputModule : QJsonValue :=
  JObject [("ports", JObject [
    ("a", jport "input" (netsOf [2]));
    ("b", jport "input" (netsOf [3]));
    ("c", jport "output" (netsOf [3]))])].

(** A wire from [a] to [b] that carries two declared names. *)
Definition aliasModule : QJsonValue :=
  JObject [("netnames", JObject [("a", jnetname (netsOf [2]));
                                  ("b", jnetname (netsOf [2]))]);
           ("ports", JObject [
             ("a", jport "input" (netsOf [2]));
             ("b", jport "output" (netsOf [2]))])].

(** The wire of scenario A, as [parsePorts] leaves it. *)
Definition wire : Parser :=
  afterPorts "m" [Port.new "a" INPUT ["2"]; Port.new "b" OUTPUT ["2"]].

(** [unusedInputModule] after the stitching, before the pruning. *)
Definition unusedInputStitched : Parser :=
  connectDiagramConnections (replaceConstBits (afterPorts "m"
    [Port.new "a" INPUT ["2"]; Port.new "b" INPUT ["3"];
     Port.new "c" OUTPUT ["3"]])).
End Examples.

(** ** Vocabulary of the statements and of the loop invariants *)

(** What the segmentation of a sequence looks like from offset [off] on:
    every run is keyed by the range it occupies, is not empty and has one
    class. *)
Fixpoint keyed (off : Z) (runs : list ((Z * Z) * list string)) : Prop :=
  match runs with
  | [] => True
  | (k, r) :: tl =>
      k = (off, off + size r - 1) ∧ r ≠ []
      ∧ Forall (λ b, isConstBit b = runIsConst r) r
      ∧ keyed (off + size r) tl
  end.

Fixpoint alternating (runs : list ((Z * Z) * list string)) : Prop :=
  match runs with
  | (_, r1) :: (((_, r2) :: _) as tl) =>
      runIsConst r1 ≠ runIsConst r2 ∧ alternating tl
  | _ => True
  end.

(** The invariant of the loop of [splitBits] once [done] has been read. *)
Definition splitBitsInv (done : list string) (s : SplitBits.locals) : Prop :=
  concat (SplitBits.splitBits s).*2 ++ SplitBits.currentBits s = done
  ∧ SplitBits.startIdx s = size (concat (SplitBits.splitBits s).*2)
  ∧ keyed 0 (SplitBits.splitBits s)
  ∧ alternating (SplitBits.splitBits s)
  ∧ Forall (λ b, isConstBit b = SplitBits.lastWasConst s) (SplitBits.currentBits s)
  ∧ (SplitBits.splitBits s ≠ [] →
     SplitBits.currentBits s ≠ []
     ∧ ∃ k r, last (SplitBits.splitBits s) = Some (k, r)
              ∧ runIsConst r ≠ SplitBits.lastWasConst s).

(** The measure that every turn of the worklist lowers: a task that the
    guard drops counts 1, another one counts the bits right of its start,
    weighted, plus the length of its query. *)
Definition taskMeasure (L : nat) (t : Task) : nat :=
  if (startIdx t >=? Z.of_nat L) || (endIdx t - startIdx t <? 1) then 1%nat
  else (1 + Z.to_nat (Z.of_nat L - startIdx t) * (L + 2) + length (querryBits t))%nat.

Definition stackMeasure (L : nat) (tasks : list Task) : nat :=
  foldr (λ t n, (taskMeasure L t + n)%nat) 0%nat tasks.

(** A task as the resolver builds them: its query is the slice of the
    sequence to solve that its two indices name. *)
Definition taskOk (toSolve : list string) (t : Task) : Prop :=
  0 ≤ startIdx t
  ∧ querryBits t = QList.mid toSolve (startIdx t) (endIdx t - startIdx t).

(** What the naming of a driver reads from the parser. *)
Definition sameNaming (p p' : Parser) : Prop :=
  constToNonConstPortBits p' = constToNonConstPortBits p
  ∧ YModule.netnames (currentModule p') = YModule.netnames (currentModule p)
  ∧ ∀ d, Port.name (port (store p') d) = Port.name (port (store p) d)
         ∧ Port.direction (port (store p') d) = Port.direction (port (store p) d)
         ∧ Port.bits (port (store p') d) = Port.bits (port (store p) d).

(** The path that [connectSignalSrcConnections] makes for a driver. *)
Definition driverPath (p : Parser) (s : PortPtr) : Path.t :=
  Path.mk (ConnectSignalSrc.naming p s).1
    (size (Port.bits (port (store p) s)))
    (Port.bits (port (store p) s))
    (ConnectSignalSrc.naming p s).2
    (Some s) [] [].

(** The state of the loop over the consumers once [seen] is behind it:
    the consumers of a path were met in this order, and each of them sits
    on the first path with its bits. *)
Definition claimed (p : Parser) (seen : list PortPtr) : Prop :=
  ∀ pa, pa ∈ YModule.paths (currentModule p) →
    sublist (Path.sigDestinations (path (store p) pa)) seen
    ∧ ∀ d, d ∈ Path.sigDestinations (path (store p) pa) →
           YModule.getPathByBits (store p) (Port.bits (port (store p) d))
             (currentModule p) = Some pa.

(** A call that leaves the diagram alone, however it ends. *)
Definition keeps {A} (m : M A) : Prop := ∀ p, diagram (m p).1 = diagram p.

(** A call that leaves the diagram alone when it throws. *)
Definition throwKeeps {A} (m : M A) : Prop :=
  ∀ p p' what, m p = (p', Throw what) → diagram p' = diagram p.

(** ** Further operations of the object model *)

(** [Path::partialBitsMatch] *)
Definition partialBitsMatch (bits : list string) (p : Path.t) : bool :=
  QList.searchFound (Path.bits p) bits.

(** [Port::getConstPortValue] *)
Definition getConstPortValue (p : Port.t) : Z :=
  if decide (Port.direction p ≠ CONST) then 0 else Port.constValue p.

(** ** Further vocabulary of the statements *)

(** The keys of a [std::map] ascend. *)
Fixpoint ascending {K V} (ltb : K → K → bool) (m : list (K * V)) : Prop :=
  match m with
  | [] => True
  | (k, _) :: tl => Forall (λ e, ltb k e.1 = true) tl ∧ ascending ltb tl
  end.

(** The number that the literals of a constant run spell, first bit
    lowest. *)
Fixpoint littleEndian (bits : list string) : Z :=
  match bits with
  | [] => 0
  | bit :: tl => (if bool_decide (bit = "1") then 1 else 0) + 2 * littleEndian tl
  end.

(** A bit that names a net: neither the no-connect marker nor a constant
    literal. *)
Definition numbered (bit : string) : bool :=
  negb (isNoConnectBit bit) && negb (isConstBit bit).

(** The name of the module under construction. *)
Definition moduleType (p : Parser) : string := YModule.type (currentModule p).

(** A call that leaves the name of the module under construction alone. *)
Definition keepsType {A} (m : M A) : Prop := ∀ p, moduleType (m p).1 = moduleType p.

(** A module of the document that [parse] skips: it has the [blackbox]
    attribute. *)
Definition isBlackbox (module : QJsonValue) : bool :=
  negb (Json.isNull
          (Json.jat (Json.toObject (Json.jat (Json.toObject module) YosysJson.attributes))
             YosysJson.blackbox)).

(** A module of the document that has the [top] attribute. *)
Definition isTop (module : QJsonValue) : bool :=
  negb (Json.isNull
          (Json.jat (Json.toObject (Json.jat (Json.toObject module) YosysJson.attributes))
             "top")).

(** The modules of the document that [parse] reads, and those of them that
    are marked as the top module. *)
Definition parsedModules (modules : QJsonObject) : QJsonObject :=
  List.filter (λ e, negb (isBlackbox e.2)) modules.
Definition topModules (modules : QJsonObject) : QJsonObject :=
  List.filter (λ e, isTop e.2) (parsedModules modules).

(** The consumer [d] has the bits of the [i]-th driver and of no driver
    before it. *)
Definition attached (p : Parser) (srcPorts : list PortPtr) (i : nat) (d : PortPtr)
    : bool :=
  bool_decide
    (fst <$> list_find (λ s, Port.bits (port (store p) s) = Port.bits (port (store p) d))
               srcPorts
     = Some i).

(** The state [q] of the loop over the consumers once [seen] is behind it,
    for the drivers [srcPorts] stitched from [p] to [p1]. *)
Definition stitchedUpTo (p p1 q : Parser) (srcPorts seen : list PortPtr) : Prop :=
  currentModule q = currentModule p1
  ∧ length (pathObj (store q)) = length (pathObj (store p1))
  ∧ (∀ x, Port.bits (port (store q) x) = Port.bits (port (store p) x))
  ∧ (∀ x, Path.bits (path (store q) x) = Path.bits (path (store p1) x))
  ∧ (∀ x, Path.sigSource (path (store q) x) = Path.sigSource (path (store p1) x))
  ∧ ∀ i, (i < length srcPorts)%nat →
         Path.sigDestinations (path (store q) (length (pathObj (store p)) + i)%nat)
         = List.filter (attached p srcPorts i) seen.

(** The net name [n'] is [n] with, possibly, more alternative names. *)
Definition sameNet (n n' : Netname.t) : Prop :=
  Netname.name n' = Netname.name n
  ∧ Netname.bits n' = Netname.bits n
  ∧ Netname.isHidden n' = Netname.isHidden n
  ∧ Netname.alternativeNetnames n `prefix_of` Netname.alternativeNetnames n'.

(** From [p] to [q] only the net names of the module have changed: no two
    of them share their bits, and those of [p] are still in their places. *)
Definition netnamesGrow (p q : Parser) : Prop :=
  NoDup (Netname.bits <$> YModule.netnames (currentModule q))
  ∧ (∀ i n, YModule.netnames (currentModule p) !! i = Some n →
            ∃ n', YModule.netnames (currentModule q) !! i = Some n' ∧ sameNet n n')
  ∧ store q = store p
  ∧ diagram q = diagram p
  ∧ constToNonConstPortBits q = constToNonConstPortBits p
  ∧ YModule.type (currentModule q) = YModule.type (currentModule p)
  ∧ YModule.ports (currentModule q) = YModule.ports (currentModule p)
  ∧ YModule.nodes (currentModule q) = YModule.nodes (currentModule p)
  ∧ YModule.paths (currentModule q) = YModule.paths (currentModule p).

(** The port object that a port description of the document stands for:
    it has bits, and its direction is one of the two the reader knows. *)
Definition declaredPort (name : string) (bitData directionData : QJsonValue)
    (o : Port.t) : Prop :=
  Json.toArray bitData ≠ []
  ∧ (Json.toString directionData = "input" ∨ Json.toString directionData = "output")
  ∧ o = Port.new name
          (if decide (Json.toString directionData = "input") then INPUT else OUTPUT)
          (Json.variantToString <$> Json.toArray bitData).

(** The parser [p] once the fresh port objects [added] are boundary ports
    of its module. *)
Definition withPorts (added : list Port.t) (p : Parser) : Parser :=
  mkParser (diagram p)
    (YModule.mk (YModule.type (currentModule p))
       (YModule.ports (currentModule p)
        ++ seq (length (portObj (store p))) (length added))
       (YModule.nodes (currentModule p))
       (YModule.paths (currentModule p))
       (YModule.netnames (currentModule p)))
    (constToNonConstPortBits p)
    (mkStore (portObj (store p) ++ added) (pathObj (store p)) (nodeObj (store p))).

(** [part] is a contiguous part of [whole]. *)
Definition slice (part whole : list string) : Prop :=
  ∃ l1 l2, whole = l1 ++ part ++ l2.

(** What the two maps of the resolver hold: the key of a split entry is a
    source that has bits, and the values of every entry are contiguous
    parts of its key. *)
Definition slicesOnly (st : Pools) : Prop :=
  (∀ key values, (key, values) ∈ splitInfo st →
     key ∈ srcPorts st ∧ key ≠ [] ∧ Forall (λ v, slice v key) values)
  ∧ (∀ key values, (key, values) ∈ joinInfo st →
       Forall (λ v, slice v key) values).

(** From [st] to [st'] the sources have only grown, at their end, and the
    sinks have only been taken away. *)
Definition poolsGrow (st st' : Pools) : Prop :=
  srcPorts st `prefix_of` srcPorts st'
  ∧ destPorts st' `sublist_of` destPorts st.

(** The parser [p] once a node with the fresh ports [ports] has joined its
    module. *)
Definition withNode (name type : string) (ports : list Port.t) (p : Parser) : Parser :=
  mkParser (diagram p)
    (YModule.addNode (length (nodeObj (store p))) (currentModule p))
    (constToNonConstPortBits p)
    (mkStore
       (portObj (store p)
        ++ (Port.setParentNode (Some (length (nodeObj (store p)))) <$> ports))
       (pathObj (store p))
       (nodeObj (store p)
        ++ [Node.mk name type (seq (length (portObj (store p))) (length ports))])).

(** The ports of a split node and of a join node. *)
Definition spliterPorts (srcBits : list string) (destBits : list (list string))
    : list Port.t :=
  Port.new "in" INPUT srcBits
  :: imap (λ index destBit,
             Port.new ("out" +:+ QString_number (Z.of_nat index)) OUTPUT destBit)
          destBits.
Definition joinerPorts (srcBits : list string) (destBits : list (list string))
    : list Port.t :=
  imap (λ index destBit,
          Port.new ("in" +:+ QString_number (Z.of_nat index)) INPUT destBit)
       destBits
  ++ [Port.new "out" OUTPUT srcBits].

(** The nodes made so far by a loop over [info] that started in [p] and
    has reached [q]: the [i]-th node stands for the [i]-th entry. *)
Definition synthesized (kind : string)
    (ports : list string → list (list string) → list Port.t)
    (info : list (list string * list (list string))) (p q : Parser) : Prop :=
  YModule.nodes (currentModule q)
  = YModule.nodes (currentModule p) ++ seq (length (nodeObj (store p))) (length info)
  ∧ length (nodeObj (store q)) = (length (nodeObj (store p)) + length info)%nat
  ∧ (length (portObj (store p)) ≤ length (portObj (store q)))%nat
  ∧ (∀ x, (x < length (portObj (store p)))%nat → port (store q) x = port (store p) x)
  ∧ (∀ x, (x < length (nodeObj (store p)))%nat → node (store q) x = node (store p) x)
  ∧ pathObj (store q) = pathObj (store p)
  ∧ (diagram q, constToNonConstPortBits q, YModule.type (currentModule q),
     YModule.ports (currentModule q), YModule.paths (currentModule q),
     YModule.netnames (currentModule q))
    = (diagram p, constToNonConstPortBits p, YModule.type (currentModule p),
       YModule.ports (currentModule p), YModule.paths (currentModule p),
       YModule.netnames (currentModule p))
  ∧ ∀ i srcBits destBits, info !! i = Some (srcBits, destBits) →
      let n := (length (nodeObj (store p)) + i)%nat in
      Node.name (node (store q) n) = kind +:+ QString_number (Z.of_nat i)
      ∧ Node.type (node (store q) n) = kind
      ∧ Forall (λ x, (length (portObj (store p)) ≤ x < length (portObj (store q)))%nat)
               (Node.ports (node (store q) n))
      ∧ port (store q) <$> Node.ports (node (store q) n)
        = Port.setParentNode (Some n) <$> ports srcBits destBits.

(** One turn of the loop of [createSplitNodes] or [createJoinNodes]: the
    parser and the running index. *)
Definition synthStep (kind : string)
    (portsOf : list string → list (list string) → list Port.t)
    (st : Parser * Z) (entry : list string * list (list string)) : Parser * Z :=
  (addSyntheticNode (kind +:+ QString_number st.2) kind (portsOf entry.1 entry.2) st.1,
   st.2 + 1).

(** From [p] to [q] the stitching has touched nothing of a port but its
    path, and no node. *)
Definition stitchKeeps (p q : Parser) : Prop :=
  nodeObj (store q) = nodeObj (store p)
  ∧ length (portObj (store q)) = length (portObj (store p))
  ∧ (∀ x, Port.setPath None (port (store q) x) = Port.setPath None (port (store p) x))
  ∧ (diagram q, constToNonConstPortBits q, YModule.type (currentModule q),
     YModule.ports (currentModule q), YModule.nodes (currentModule q),
     YModule.netnames (currentModule q))
    = (diagram p, constToNonConstPortBits p, YModule.type (currentModule p),
       YModule.ports (currentModule p), YModule.nodes (currentModule p),
       YModule.netnames (currentModule p)).

(** [Diagram::getModuleByName]: the first module of that name. *)
Definition getModuleByName (name : string) (d : Diagram.t) : option YModule.t :=
  List.find (λ module, bool_decide (YModule.type module = name)) (Diagram.modules d).

(** The state [st] of constant materialisation, started in [p], as the
    port [d] sees it: its bits keep their number and change at constant
    places only, its other fields and all paths and nodes are as they
    were, and the module has only gained boundary ports. *)
Definition materializes (p : Parser) (d : PortPtr) (st : Parser) : Prop :=
  (length (portObj (store p)) ≤ length (portObj (store st)))%nat
  ∧ (∀ x, size (Port.bits (port (store st) x)) ≤ qsizetype_max)
  ∧ length (Port.bits (port (store st) d)) = length (Port.bits (port (store p) d))
  ∧ (∀ i bit, Port.bits (port (store p) d) !! i = Some bit → isConstBit bit = false →
              Port.bits (port (store st) d) !! i = Some bit)
  ∧ Port.setBits [] (port (store st) d) = Port.setBits [] (port (store p) d)
  ∧ pathObj (store st) = pathObj (store p)
  ∧ nodeObj (store st) = nodeObj (store p)
  ∧ YModule.ports (currentModule p) `prefix_of` YModule.ports (currentModule st)
  ∧ (diagram st, YModule.type (currentModule st), YModule.nodes (currentModule st),
     YModule.paths (currentModule st), YModule.netnames (currentModule st))
    = (diagram p, YModule.type (currentModule p), YModule.nodes (currentModule p),
       YModule.paths (currentModule p), YModule.netnames (currentModule p)).

(** A run of the segmentation of the port [s] that may be replaced while
    the port [d] is watched: it starts inside the sequence, is no longer
    than a list can be, and, if [s] is [d] and the run is constant, it
    covers constant bits of [bits] only. *)
Definition safeRun (s d : PortPtr) (bits : list string)
    (entry : (Z * Z) * list string) : Prop :=
  0 ≤ entry.1.1
  ∧ size entry.2 ≤ qsizetype_max
  ∧ (s = d → runIsConst entry.2 = true →
     ∀ i bit, entry.1.1 ≤ Z.of_nat i ≤ entry.1.2 → bits !! i = Some bit →
              isConstBit bit = true).

(** From [p] to [st] constant materialisation has added ports to the store
    and made exactly these, in their order, boundary ports of the module;
    each of them is an unconnected CONST port named after a host. *)
Definition constPortsAdded (p st : Parser) : Prop :=
  (length (portObj (store p)) ≤ length (portObj (store st)))%nat
  ∧ YModule.ports (currentModule st)
    = YModule.ports (currentModule p)
      ++ seq (length (portObj (store p)))
             (length (portObj (store st)) - length (portObj (store p)))
  ∧ ∀ x, (length (portObj (store p)) ≤ x < length (portObj (store st)))%nat →
         Port.direction (port (store st) x) = CONST
         ∧ Port.path (port (store st) x) = None
         ∧ Port.parentNode (port (store st) x) = None
         ∧ ∃ host, Port.name (port (store st) x) = host +:+ "_const".

(** The port objects of a cell, in the order of the keys of its port
    directions: a cell whose type is no symbol type numbers its inputs
    [in0], [in1], ... and its outputs [out0], [out1], ... *)
Fixpoint cellPorts (valid : bool) (portDirections portConnections : QJsonObject)
    (indexIn indexOut : Z) (portNames : list string) : list Port.t :=
  match portNames with
  | [] => []
  | portName :: tl =>
      let dir := Json.toString (Json.jat portDirections portName) in
      let '(symbolNameAlias, indexIn', indexOut') :=
        if bool_decide (dir = "input") && negb valid
        then ("in" +:+ QString_number indexIn, indexIn + 1, indexOut)
        else if bool_decide (dir = "output") && negb valid
        then ("out" +:+ QString_number indexOut, indexIn, indexOut + 1)
        else (EmptyString, indexIn, indexOut) in
      Port.setSymbolNameAlias symbolNameAlias
        (Port.new portName (if decide (dir = "input") then INPUT else OUTPUT)
           (Json.variantToString
              <$> Json.toArray (Json.jat portConnections portName)))
      :: cellPorts valid portDirections portConnections indexIn' indexOut' tl
  end.

(** A port of a cell that [createPort] accepts. *)
Definition cellPortOk (portDirections portConnections : QJsonObject)
    (portName : string) : Prop :=
  Json.toArray (Json.jat portConnections portName) ≠ []
  ∧ (Json.toString (Json.jat portDirections portName) = "input"
     ∨ Json.toString (Json.jat portDirections portName) = "output").

(** A cell of the document that [parseCells] accepts. *)
Definition cellOk (value : QJsonValue) : Prop :=
  let cellData := Json.toObject value in
  let portDirections := Json.toObject (Json.jat cellData YosysJson.port_directions) in
  let portConnections := Json.toObject (Json.jat cellData YosysJson.connections) in
  Json.isString (Json.jat cellData YosysJson.type) = true
  ∧ portDirections ≠ [] ∧ portConnections ≠ []
  ∧ length portDirections = length portConnections
  ∧ Forall (cellPortOk portDirections portConnections) (Json.keys portDirections).

(** The parser once the node of a cell has joined its module. *)
Definition withCell (name : string) (value : QJsonValue) (p : Parser) : Parser :=
  let cellData := Json.toObject value in
  let cellType := Json.toString (Json.jat cellData YosysJson.type) in
  let portDirections := Json.toObject (Json.jat cellData YosysJson.port_directions) in
  let portConnections := Json.toObject (Json.jat cellData YosysJson.connections) in
  withNode name cellType
    (cellPorts (SymbolTypes.isValidSymbolType cellType) portDirections portConnections
       0 0 (Json.keys portDirections))
    p.

(** No bit of the sequence is a constant literal. *)
Definition noConstants (bits : list string) : Prop :=
  Forall (λ b, isConstBit b = false) bits.

(** The bits of the ports [l], counted together. *)
Definition totalBits (h : Store) (l : list PortPtr) : Z :=
  foldr (λ s n, size (Port.bits (port h s)) + n) 0 l.

(** What constant materialisation may put in the place of a bit: the bit
    itself, or, for a constant literal, the numeral of a 64-bit number above
    [low]. *)
Definition tokenOrSame (low : Z) (old new : string) : Prop :=
  new = old
  ∨ (isConstBit old = true ∧ ∃ k, low < k < 2 ^ 64 ∧ new = QString_number k).

(** What constant materialisation puts in the place of a bit of a port that
    it works on: a bit that is no constant stays; a constant becomes the
    numeral of a 64-bit number above the highest net number, which no port
    of the module has among its bits. *)
Definition freshToken (p : Parser) (old new : string) : Prop :=
  if isConstBit old
  then ∃ k, YModule.getMaxBitNumber (store p) (currentModule p) < k < 2 ^ 64
            ∧ new = QString_number k
            ∧ ∀ d bit,
                d ∈ YModule.ports (currentModule p)
                    ++ CreateSignalConnections.nodePorts (store p) (currentModule p) →
                bit ∈ Port.bits (port (store p) d) → bit ≠ new
  else new = old.

(** The loop over the runs of the port [s], entered in [q] with the counter
    [n]: the bits of [s] are the part [R] that the loop is done with, which
    holds no constant and stands for the bits that were there, and the runs
    [rest] still to come; the counter has advanced by at most the bits of
    [R]; no other port of [q] has changed. *)
Definition runsDone (q : Parser) (n : Z) (s : PortPtr) (st : Parser * Z)
    (R rest : list string) : Prop :=
  Port.bits (port (store st.1) s) = R ++ rest
  ∧ noConstants R
  ∧ (∃ Rold, Port.bits (port (store q) s) = Rold ++ rest
             ∧ Forall2 (tokenOrSame n) Rold R)
  ∧ n ≤ st.2 ≤ n + size R
  ∧ (length (portObj (store q)) ≤ length (portObj (store st.1)))%nat
  ∧ ∀ x, (x < length (portObj (store q)))%nat → x ≠ s →
         port (store st.1) x = port (store q) x.

(** The loop over the ports of constant materialisation, started in [p]:
    the ports [done] hold no constant any more, the bits of the ports of
    [p] are what they were or tokens, and the counter, which started at a
    net number of at least 1, stays a 64-bit number for the bits of the
    ports [rest] still to come. *)
Definition materialized (p : Parser) (done rest : list PortPtr) (st : Parser * Z)
    : Prop :=
  let top := YModule.getMaxBitNumber (store p) (currentModule p) in
  (length (portObj (store p)) ≤ length (portObj (store st.1)))%nat
  ∧ (∀ x, (x < length (portObj (store p)))%nat →
          Forall2 (tokenOrSame top) (Port.bits (port (store p) x))
                  (Port.bits (port (store st.1) x)))
  ∧ Forall (λ x, noConstants (Port.bits (port (store st.1) x))) done
  ∧ 1 ≤ top ≤ st.2
  ∧ st.2 + totalBits (store p) rest < 2 ^ 64.

(** * Proofs *)

(** ** Sizes and wrap-around *)

Lemma size_app {A} (a b : list A) : size (a ++ b) = size a + size b.
Proof. unfold size. rewrite length_app. lia. Qed.

Lemma size_nonneg {A} (a : list A) : 0 ≤ size a.
Proof. unfold size. lia. Qed.

Lemma size_pos {A} (a : list A) : a ≠ [] → 0 < size a.
Proof. destruct a; [done|]. unfold size. simpl. lia. Qed.

Lemma wrap64_small x : 0 ≤ x < 2 ^ 64 → wrap64 x = x.
Proof. intros. unfold wrap64. apply Z.mod_small. lia. Qed.

Section SplitBitsProofs.
Implicit Types (runs : list ((Z * Z) * list string)) (bits : list string).

Lemma range_ltb_asym a b : range_ltb a b = true → range_ltb b a = false.
Proof. unfold range_ltb. destruct a, b; csimpl. lia. Qed.

Lemma set_snoc runs k v :
  Forall (λ e, range_ltb e.1 k = true) runs →
  StdMap.set range_ltb runs k v = runs ++ [(k, v)].
Proof.
  induction 1 as [|[k' v'] tl Hk _ IH]; csimpl; [done|].
  csimpl in Hk. rewrite (range_ltb_asym _ _ Hk), Hk. by rewrite IH.
Qed.

Lemma keyed_app off a b :
  keyed off (a ++ b) ↔ keyed off a ∧ keyed (off + size (concat a.*2)) b.
Proof.
  revert off. induction a as [|[k r] a IH]; intros off; csimpl.
  - unfold size; csimpl. rewrite Z.add_0_r. tauto.
  - rewrite IH, size_app, Z.add_assoc. tauto.
Qed.

Lemma keyed_below off runs :
  keyed off runs → 0 ≤ off →
  Forall (λ e, off ≤ e.1.1 < off + size (concat runs.*2)) runs.
Proof.
  revert off. induction runs as [|[k r] tl IH]; intros off; csimpl; [constructor|].
  intros (-> & Hr & _ & Htl) Hoff. rewrite size_app.
  pose proof (size_pos _ Hr). pose proof (size_nonneg (concat tl.*2)).
  constructor; csimpl; [lia|].
  assert (0 ≤ off + size r) as Hoff' by lia.
  pose proof (IH _ Htl Hoff') as IH'.
  eapply Forall_impl; [exact IH'|].
  intros e He. csimpl in He. lia.
Qed.

Lemma alternating_snoc runs k r k' r' :
  alternating (runs ++ [(k, r)]) → runIsConst r ≠ runIsConst r' →
  alternating ((runs ++ [(k, r)]) ++ [(k', r')]).
Proof.
  induction runs as [|[k0 r0] tl IH]; csimpl; [done|].
  destruct tl as [|[k1 r1] tl]; csimpl in *; [tauto|].
  intros [? ?] ?. split; [done|]. by apply IH.
Qed.

Lemma emit_snoc done s :
  splitBitsInv done s → SplitBits.currentBits s ≠ [] → size done ≤ qsizetype_max →
  SplitBits.emit s
  = SplitBits.splitBits s
    ++ [((SplitBits.startIdx s,
          SplitBits.startIdx s + size (SplitBits.currentBits s) - 1),
         SplitBits.currentBits s)].
Proof.
  intros (Hcat & Hstart & Hkey & _) Hcur Hbound. unfold SplitBits.emit.
  pose proof (size_pos _ Hcur) as Hpos.
  pose proof (size_nonneg (concat (SplitBits.splitBits s).*2)) as H0.
  assert (size done = SplitBits.startIdx s + size (SplitBits.currentBits s)) as Hsz
    by (rewrite <- Hcat, size_app; lia).
  unfold qsizetype_max in Hbound.
  rewrite wrap64_small by lia.
  apply set_snoc.
  pose proof (keyed_below 0 _ Hkey ltac:(lia)) as Hbelow.
  eapply Forall_impl; [exact Hbelow|].
  intros [[a b] r] He. csimpl in He. unfold range_ltb. csimpl. lia.
Qed.

Lemma runIsConst_homogeneous r c :
  r ≠ [] → Forall (λ b, isConstBit b = c) r →
  runIsConst r = c ∧ Forall (λ b, isConstBit b = runIsConst r) r.
Proof.
  destruct r as [|b r]; [done|]. intros _ H.
  assert (runIsConst (b :: r) = c) as -> by (by inversion H). done.
Qed.

Lemma inv_body done s bit :
  splitBitsInv done s → size (done ++ [bit]) ≤ qsizetype_max →
  splitBitsInv (done ++ [bit]) (SplitBits.body s bit).
Proof.
  intros Hinv Hbound. pose proof Hinv as (Hcat & Hstart & Hkey & Halt & Hcur & Hlast).
  unfold SplitBits.body.
  destruct (bool_decide (SplitBits.currentBits s = [])
            || Bool.eqb (isConstBit bit) (SplitBits.lastWasConst s)) eqn:Hc.
  - split_and!; csimpl; try done.
    + by rewrite app_assoc, Hcat.
    + apply Forall_app. split; [|by repeat constructor].
      apply orb_true_iff in Hc as [Hc|Hc].
      * apply bool_decide_eq_true in Hc. rewrite Hc. constructor.
      * apply Bool.eqb_prop in Hc. by rewrite Hc.
    + intros Hne. destruct (Hlast Hne) as (Hne' & k & r & Hl & Hr).
      split; [by destruct (SplitBits.currentBits s)|].
      exists k, r. split; [done|].
      apply orb_true_iff in Hc as [Hc|Hc].
      * apply bool_decide_eq_true in Hc. done.
      * apply Bool.eqb_prop in Hc. by rewrite Hc.
  - apply orb_false_iff in Hc as [Hc1 Hc2].
    apply bool_decide_eq_false in Hc1. apply Bool.eqb_false_iff in Hc2.
    assert (size done ≤ qsizetype_max) as Hb'.
    { rewrite size_app in Hbound. pose proof (size_nonneg [bit]). lia. }
    pose proof (size_pos _ Hc1) as Hpos.
    pose proof (size_nonneg (concat (SplitBits.splitBits s).*2)) as H0.
    destruct (runIsConst_homogeneous _ _ Hc1 Hcur) as [Hrc Hhom].
    unfold splitBitsInv. csimpl. rewrite (emit_snoc done s Hinv Hc1 Hb').
    rewrite fmap_app, concat_app. csimpl. rewrite app_nil_r.
    split_and!.
    + by rewrite Hcat.
    + rewrite size_app, <- Hstart. apply wrap64_small.
      assert (size done = SplitBits.startIdx s + size (SplitBits.currentBits s))
        by (rewrite <- Hcat, size_app; lia).
      unfold qsizetype_max in Hb'. lia.
    + apply keyed_app. split; [done|]. csimpl. rewrite <- Hstart.
      rewrite Z.add_0_l. done.
    + destruct (decide (SplitBits.splitBits s = [])) as [->|Hne]; [done|].
      destruct (Hlast Hne) as (_ & k & r & Hl & Hr).
      apply last_Some in Hl as [l' Hl]. rewrite Hl in *.
      apply alternating_snoc; [done|]. by rewrite Hrc.
    + by repeat constructor.
    + intros _. split; [done|]. eexists _, _. rewrite last_snoc. split; [done|].
      rewrite Hrc. by destruct (isConstBit bit), (SplitBits.lastWasConst s).
Qed.

Lemma inv_foldl bits done s :
  splitBitsInv done s → size (done ++ bits) ≤ qsizetype_max →
  splitBitsInv (done ++ bits) (foldl SplitBits.body s bits).
Proof.
  revert done s. induction bits as [|bit bits IH]; intros done s Hinv Hb; csimpl.
  - by rewrite app_nil_r.
  - replace (done ++ bit :: bits) with ((done ++ [bit]) ++ bits) in *
      by (by rewrite <- app_assoc).
    apply IH; [|done]. apply inv_body; [done|].
    rewrite size_app in Hb. pose proof (size_nonneg bits). lia.
Qed.

(** The segmentation, as the two recursive predicates see it. *)
Lemma splitBits_keyed bits :
  size bits ≤ qsizetype_max →
  concat (splitBits bits).*2 = bits
  ∧ keyed 0 (splitBits bits) ∧ alternating (splitBits bits).
Proof.
  intros Hb. destruct bits as [|bit0 bits]; [done|].
  unfold splitBits.
  set (s0 := SplitBits.Locals [] [] 0 (isConstBit bit0)).
  assert (splitBitsInv [] s0) as H0.
  { unfold splitBitsInv, s0; csimpl. split_and!; done. }
  pose proof (inv_foldl (bit0 :: bits) [] s0 H0 Hb) as Hinv. simpl app in Hinv.
  set (s := foldl SplitBits.body s0 (bit0 :: bits)) in *.
  pose proof Hinv as (Hcat & Hstart & Hkey & Halt & Hcur & Hlast).
  case_bool_decide as Hc.
  - rewrite Hc, app_nil_r in Hcat. done.
  - rewrite (emit_snoc _ s Hinv Hc Hb).
    destruct (runIsConst_homogeneous _ _ Hc Hcur) as [Hrc Hhom].
    rewrite fmap_app, concat_app. csimpl. rewrite app_nil_r.
    split; [done|]. split.
    + apply keyed_app. split; [done|]. csimpl. rewrite <- Hstart, Z.add_0_l. done.
    + destruct (decide (SplitBits.splitBits s = [])) as [->|Hne]; [done|].
      destruct (Hlast Hne) as (_ & k & r & Hl & Hr).
      apply last_Some in Hl as [l' Hl]. rewrite Hl in *.
      apply alternating_snoc; [done|]. by rewrite Hrc.
Qed.

Lemma keyed_lookup off runs i k r :
  keyed off runs → runs !! i = Some (k, r) →
  k = (off + size (concat (take i runs).*2),
       off + size (concat (take (S i) runs).*2) - 1)
  ∧ r ≠ [] ∧ Forall (λ b, isConstBit b = runIsConst r) r.
Proof.
  revert off i. induction runs as [|[k0 r0] tl IH]; intros off i; [done|].
  csimpl. intros (-> & Hr & Hhom & Htl) Hi. destruct i as [|i]; csimpl in *.
  - inversion Hi; subst. rewrite app_nil_r. unfold size at 1. csimpl.
    rewrite Z.add_0_r. done.
  - destruct (IH _ _ Htl Hi) as (-> & ? & ?). rewrite !size_app.
    split; [f_equal; lia | done].
Qed.

Lemma alternating_lookup runs i k1 r1 k2 r2 :
  alternating runs → runs !! i = Some (k1, r1) → runs !! S i = Some (k2, r2) →
  runIsConst r1 ≠ runIsConst r2.
Proof.
  revert i. induction runs as [|[k r] tl IH]; intros i; [done|].
  destruct tl as [|[k' r'] tl]; [by destruct i|].
  intros [Hne Halt] H1 H2. destruct i as [|i]; csimpl in *.
  - by inversion H1; inversion H2; subst.
  - by eapply IH.
Qed.
End SplitBitsProofs.

(** C2: for every bit sequence a [QStringList] can hold, the runs of
    [splitBits], read in the order of the map, concatenate to the input;
    the [i]-th run is keyed by the inclusive range it occupies, is not empty
    and every bit of it has the class of its first bit; the keys ascend and
    two neighbouring runs differ in their class. *)
Theorem splitBits_roundtrip (bits : list string) :
  size bits ≤ qsizetype_max →
  let runs := splitBits bits in
  concat runs.*2 = bits
  ∧ (∀ i k r, runs !! i = Some (k, r) →
       k = (size (concat (take i runs).*2), size (concat (take (S i) runs).*2) - 1)
       ∧ r ≠ []
       ∧ Forall (λ b, isConstBit b = runIsConst r) r)
  ∧ (∀ i k1 r1 k2 r2,
       runs !! i = Some (k1, r1) → runs !! S i = Some (k2, r2) →
       range_ltb k1 k2 = true ∧ runIsConst r1 ≠ runIsConst r2).
Proof.
  intros Hb runs. destruct (splitBits_keyed bits Hb) as (Hcat & Hkey & Halt).
  fold runs in Hcat, Hkey, Halt. split; [done|]. split.
  - intros i k r Hi. by destruct (keyed_lookup 0 runs i k r Hkey Hi) as (-> & ? & ?).
  - intros i k1 r1 k2 r2 H1 H2. split; [|by eapply alternating_lookup].
    destruct (keyed_lookup 0 runs _ _ _ Hkey H1) as (-> & Hr1 & _).
    destruct (keyed_lookup 0 runs _ _ _ Hkey H2) as (-> & _ & _).
    unfold range_ltb. csimpl.
    rewrite (take_S_r _ _ _ H1), fmap_app, concat_app, size_app. csimpl.
    rewrite app_nil_r. pose proof (size_pos _ Hr1). lia.
Qed.

(** The sequence of scenario D. *)
Lemma splitBits_roundtrip_witness :
  size ["n1"; "0"; "1"; "n2"] ≤ qsizetype_max
  ∧ concat (splitBits ["n1"; "0"; "1"; "n2"]).*2 = ["n1"; "0"; "1"; "n2"].
Proof.
  split; [vm_compute; discriminate|].
  apply (splitBits_roundtrip ["n1"; "0"; "1"; "n2"]). vm_compute. discriminate.
Defined.

Section ResolverProofs.
Implicit Types (st : Pools) (t : Task) (tasks : list Task) (D q : list string).

Lemma mid_length {A} (l : list A) pos len :
  (length (QList.mid l pos len) ≤ length l)%nat.
Proof.
  unfold QList.mid, size.
  repeat case_match; simpl; rewrite ?length_take, ?length_drop; lia.
Qed.

Lemma mid_length_le {A} (l : list A) pos len :
  0 ≤ len → size (QList.mid l pos len) ≤ len.
Proof.
  unfold QList.mid, size. intros.
  repeat case_match; simpl; rewrite ?length_take, ?length_drop; lia.
Qed.

Lemma mid_nonempty {A} (l : list A) pos len :
  0 ≤ pos < size l → 1 ≤ len → QList.mid l pos len ≠ [].
Proof.
  unfold QList.mid, size. intros ? ? Hnil.
  apply (f_equal length) in Hnil. revert Hnil.
  repeat case_match; simpl; rewrite ?length_take, ?length_drop; lia.
Qed.

Lemma claim_srcPorts D st : srcPorts (CreateSplitJoin.claim D st) = srcPorts st.
Proof. unfold CreateSplitJoin.claim. by case_match. Qed.

Lemma claim_nil D st :
  destPorts st = [] → CreateSplitJoin.claim D st = st.
Proof. unfold CreateSplitJoin.claim. intros ->. done. Qed.

Lemma noteJoin_destPorts D q st :
  destPorts (CreateSplitJoin.noteJoin D q st) = destPorts st.
Proof. unfold CreateSplitJoin.noteJoin. by case_match. Qed.

Lemma guard_false D t :
  startIdx t < size D → 1 ≤ endIdx t - startIdx t →
  (startIdx t >=? Z.of_nat (length D)) || (endIdx t - startIdx t <? 1) = false.
Proof. unfold size. intros. apply orb_false_iff. lia. Qed.

Lemma remainder_measure D t :
  startIdx t < size D → 1 ≤ endIdx t - startIdx t →
  (taskMeasure (length D) (CreateSplitJoin.remainder D t) < taskMeasure (length D) t)%nat.
Proof.
  intros Hs He. unfold taskMeasure at 2. rewrite (guard_false D t Hs He).
  unfold taskMeasure, CreateSplitJoin.remainder; simpl.
  pose proof (mid_length D (endIdx t) (size D - endIdx t)) as Hm.
  unfold size in *.
  assert (1 ≤ Z.to_nat (Z.of_nat (length D) - startIdx t))%nat by lia.
  destruct (orb _ _) eqn:Hg1; [nia|].
  apply orb_false_iff in Hg1 as [? ?].
  assert (Z.to_nat (Z.of_nat (length D) - endIdx t) < Z.to_nat (Z.of_nat (length D) - startIdx t))%nat
    by lia.
  nia.
Qed.

Lemma shrunk_measure D t :
  startIdx t < size D → 1 ≤ endIdx t - startIdx t →
  (taskMeasure (length D) (CreateSplitJoin.shrunk D t) < taskMeasure (length D) t)%nat.
Proof.
  intros Hs He. unfold taskMeasure at 2. rewrite (guard_false D t Hs He).
  unfold taskMeasure, CreateSplitJoin.shrunk; simpl.
  unfold size in *.
  assert (1 ≤ Z.to_nat (Z.of_nat (length D) - startIdx t))%nat by lia.
  destruct (orb _ _) eqn:Hg1; [nia|].
  apply orb_false_iff in Hg1 as [? ?].
  pose proof (mid_length_le D (startIdx t) (Z.of_nat (length (querryBits t)) - 1)) as Hm.
  unfold size in Hm. lia.
Qed.

(** One turn always ends, and what it leaves on the stack is smaller. *)
Lemma turn_decreases nested D st t tasks :
  (∀ st q, (length q ≤ length D)%nat → is_Some (nested st q)) →
  (length (querryBits t) ≤ length D)%nat →
  ∃ st' tasks',
    CreateSplitJoin.turn nested D st t tasks = Some (st', tasks')
    ∧ (tasks' = tasks
       ∨ ∃ t', tasks' = t' :: tasks
               ∧ (taskMeasure (length D) t' < taskMeasure (length D) t)%nat
               ∧ (length (querryBits t') ≤ length D)%nat).
Proof.
  intros Hn Hq. unfold CreateSplitJoin.turn.
  destruct (orb _ _) eqn:Hg; [by eauto|].
  apply orb_false_iff in Hg as [Hg1 Hg2].
  assert (startIdx t < size D) as Hs by lia.
  assert (1 ≤ endIdx t - startIdx t) as He by lia.
  pose proof (remainder_measure D t Hs He) as Hrem.
  pose proof (shrunk_measure D t Hs He) as Hshr.
  assert (length (querryBits (CreateSplitJoin.remainder D t)) ≤ length D)%nat
    as Hrl by apply mid_length.
  assert (length (querryBits (CreateSplitJoin.shrunk D t)) ≤ length D)%nat
    as Hsl by apply mid_length.
  repeat case_match; try by eauto 10.
  - destruct (Hn (CreateSplitJoin.noteJoin D (querryBits t)
                    (CreateSplitJoin.claim D st)) (querryBits t) Hq) as [? ?].
    congruence.
Qed.

Lemma taskMeasure_pos L t : (1 ≤ taskMeasure L t)%nat.
Proof. unfold taskMeasure. case_match; nia. Qed.

Lemma loop_terminates nested D fuel st tasks :
  (∀ st q, (length q ≤ length D)%nat → is_Some (nested st q)) →
  Forall (λ t, (length (querryBits t) ≤ length D)%nat) tasks →
  (stackMeasure (length D) tasks ≤ fuel)%nat →
  is_Some (CreateSplitJoin.loop nested D fuel st tasks).
Proof.
  intros Hn. revert st tasks.
  induction fuel as [|fuel IH]; intros st tasks Hall Hm;
    (destruct tasks as [|t tasks]; [by eexists|]);
    unfold stackMeasure in Hm; simpl in Hm; fold (stackMeasure (length D) tasks) in Hm;
    pose proof (taskMeasure_pos (length D) t); [lia|].
  inversion Hall as [|? ? Hq Hall']; subst. simpl.
  destruct (turn_decreases nested D st t tasks Hn Hq)
    as (st' & tasks' & -> & [-> | (t' & -> & Hlt & Hq')]).
  - apply IH; [done | lia].
  - apply IH; [by constructor|]. unfold stackMeasure; simpl.
    fold (stackMeasure (length D) tasks). lia.
Qed.

(** Against an empty sink pool the nested call is never reached. *)
Lemma turn_leaf nested1 nested2 D st t tasks :
  destPorts st = [] →
  CreateSplitJoin.turn nested1 D st t tasks
  = CreateSplitJoin.turn nested2 D st t tasks
  ∧ ∀ st' tasks', CreateSplitJoin.turn nested1 D st t tasks = Some (st', tasks') →
                  destPorts st' = [].
Proof.
  intros Hd. unfold CreateSplitJoin.turn. rewrite (claim_nil _ _ Hd), Hd. simpl.
  destruct (orb _ _); [by split; [|intros ? ? [= <- <-]]|].
  destruct (QList.contains _ _).
  { split; [done|]. intros ? ? [= <- <-]. by rewrite noteJoin_destPorts. }
  destruct (negb _).
  { split; [done|]. intros ? ? [= <- <-]. simpl. by rewrite noteJoin_destPorts. }
  split; [done|]. by intros ? ? [= <- <-].
Qed.

Lemma loop_leaf nested1 nested2 D fuel st tasks :
  destPorts st = [] →
  CreateSplitJoin.loop nested1 D fuel st tasks
  = CreateSplitJoin.loop nested2 D fuel st tasks.
Proof.
  revert st tasks. induction fuel as [|fuel IH]; intros st tasks Hd;
    destruct tasks as [|t tasks]; simpl; try done.
  destruct (turn_leaf nested1 nested2 D st t tasks Hd) as [<- Hd'].
  destruct (CreateSplitJoin.turn nested1 D st t tasks) as [[st' tasks']|]; [|done].
  apply IH. by eapply Hd'.
Qed.

Lemma resolveFuel_mono n m : (n ≤ m → resolveFuel n ≤ resolveFuel m)%nat.
Proof. unfold resolveFuel. nia. Qed.

Lemma initial_measure D :
  (stackMeasure (length D) [mkTask 0 (size D) (QList.mid D 0 (size D - 0))]
   ≤ resolveFuel (length D))%nat.
Proof.
  unfold stackMeasure, taskMeasure, resolveFuel; simpl.
  pose proof (mid_length D 0 (size D - 0)). unfold size in *.
  rewrite !Z.sub_0_r in *. case_match; [nia|]. rewrite Nat2Z.id. nia.
Qed.

Lemma createSplitJoin_leaf depth fuel st D s e :
  destPorts st = [] →
  createSplitJoin (S depth) fuel st D s e = createSplitJoin 1 fuel st D s e.
Proof. intros Hd. simpl. by apply loop_leaf. Qed.

Lemma createSplitJoin_leaf_terminates depth fuel st D :
  destPorts st = [] → (resolveFuel (length D) ≤ fuel)%nat →
  is_Some (createSplitJoin (S depth) fuel st D 0 (size D)).
Proof.
  intros Hd Hf. simpl.
  rewrite (loop_leaf _ (λ st _, Some st) D fuel st _ Hd).
  apply loop_terminates.
  - by eexists.
  - repeat constructor. apply mid_length.
  - pose proof (initial_measure D). lia.
Qed.

Lemma createSplitJoin_total depth fuel st D :
  (2 ≤ depth)%nat → (resolveFuel (length D) ≤ fuel)%nat →
  is_Some (createSplitJoin depth fuel st D 0 (size D)).
Proof.
  intros Hdepth Hf. destruct depth as [|[|depth]]; [lia..|].
  change (createSplitJoin (S (S depth)) fuel st D 0 (size D))
    with (CreateSplitJoin.loop
            (λ st querryBits,
               match createSplitJoin (S depth) fuel
                       (mkPools (srcPorts st) [] (splitInfo st) (joinInfo st))
                       querryBits 0 (size querryBits) with
               | Some st' => Some (mkPools (srcPorts st') (destPorts st)
                                     (splitInfo st') (joinInfo st'))
               | None => None
               end)
            D fuel st [mkTask 0 (size D) (QList.mid D 0 (size D - 0))]).
  apply loop_terminates.
  - intros st' q Hq.
    destruct (createSplitJoin_leaf_terminates depth fuel
                (mkPools (srcPorts st') [] (splitInfo st') (joinInfo st')) q)
      as [r Hr]; [done | |].
    + pose proof (resolveFuel_mono _ _ Hq). lia.
    + rewrite Hr. by eexists.
  - repeat constructor. apply mid_length.
  - pose proof (initial_measure D). lia.
Qed.

Lemma resolve_spec st D :
  createSplitJoin 2 (resolveFuel (length D)) st D 0 (size D) = Some (resolve st D).
Proof.
  unfold resolve.
  destruct (createSplitJoin_total 2 (resolveFuel (length D)) st D) as [r ->]; done.
Qed.

(** What a turn pushes is again a slice of the sequence, further to the
    right or shorter. *)
Lemma turn_progress nested D st t tasks st' tasks' :
  taskOk D t →
  CreateSplitJoin.turn nested D st t tasks = Some (st', tasks') →
  tasks' = tasks
  ∨ ∃ t', tasks' = t' :: tasks ∧ taskOk D t'
          ∧ (startIdx t < startIdx t'
             ∨ (startIdx t' = startIdx t
                ∧ (length (querryBits t') < length (querryBits t))%nat)).
Proof.
  intros [Hs0 HQ]. unfold CreateSplitJoin.turn.
  destruct (orb _ _) eqn:Hg; [intros [= <- <-]; by left|].
  apply orb_false_iff in Hg as [Hg1 Hg2].
  assert (taskOk D (CreateSplitJoin.remainder D t)
          ∧ startIdx t < startIdx (CreateSplitJoin.remainder D t)) as [Hrok Hrs].
  { unfold taskOk, CreateSplitJoin.remainder; simpl. split_and!; [lia|done|lia]. }
  assert (taskOk D (CreateSplitJoin.shrunk D t)
          ∧ (length (querryBits (CreateSplitJoin.shrunk D t))
             < length (querryBits t))%nat) as [Hsok Hsl].
  { unfold taskOk, CreateSplitJoin.shrunk; simpl.
    assert (querryBits t ≠ []) as Hne
      by (rewrite HQ; apply mid_nonempty; lia).
    pose proof (size_pos _ Hne) as Hpos.
    pose proof (mid_length_le D (startIdx t) (size (querryBits t) - 1)) as Hm.
    unfold size in *. split_and!; [done | f_equal; lia | lia]. }
  repeat case_match; intros [= <- <-]; eauto 10.
Qed.

Lemma startsWith_refl {A} `{EqDecision A} (q : list A) : QList.startsWith q q = true.
Proof. induction q as [|x q IH]; simpl; [done|]. by rewrite bool_decide_eq_true_2. Qed.

Lemma indexOfContains_nonneg l q : -1 ≤ indexOfContains l q.
Proof. induction l as [|h l IH]; simpl; repeat case_match; lia. Qed.

Lemma indexOf_nonneg {A} `{EqDecision A} (l : list A) x : -1 ≤ QList.indexOf l x.
Proof. induction l as [|h l IH]; simpl; repeat case_match; lia. Qed.

(** A query that no source contains is, in particular, no source. *)
Lemma contains_indexOfContains l q :
  q ≠ [] → indexOfContains l q = -1 → QList.contains l q = false.
Proof.
  intros Hq. unfold QList.contains.
  induction l as [|h l IH]; simpl; [done|].
  destruct (decide (h = q)) as [->|Hne].
  - destruct q as [|x q]; [done|]. simpl.
    rewrite bool_decide_eq_true_2, startsWith_refl by done. done.
  - pose proof (indexOfContains_nonneg l q). pose proof (indexOf_nonneg l q).
    destruct (QList.searchFound h q); [done|].
    destruct (indexOfContains l q =? -1) eqn:He; [|lia].
    intros _. apply Z.eqb_eq in He. specialize (IH He).
    apply negb_false_iff, Z.eqb_eq in IH. rewrite IH. done.
Qed.

(** A single bit that matches nothing: one turn shrinks the query to
    nothing, the next drops it, and only the claim of the sink itself has
    touched the pools. *)
Lemma unresolved_bit st bit depth fuel :
  (1 ≤ depth)%nat → (2 ≤ fuel)%nat →
  indexOfContains (srcPorts st) [bit] = -1 →
  indexOfContains (destPorts (CreateSplitJoin.claim [bit] st)) [bit] = -1 →
  createSplitJoin depth fuel st [bit] 0 1
  = Some (CreateSplitJoin.claim [bit] (CreateSplitJoin.claim [bit] st)).
Proof.
  intros Hd Hf Hsrc Hdst.
  destruct depth as [|depth]; [lia|]. destruct fuel as [|[|fuel]]; [lia..|].
  assert (QList.contains (srcPorts st) [bit] = false) as Hc
    by (by apply contains_indexOfContains).
  simpl. unfold CreateSplitJoin.turn at 1. simpl.
  change (QList.mid [bit] 0 (1 - 0)) with [bit].
  rewrite claim_srcPorts, Hc, Hsrc, Hdst. simpl.
  unfold CreateSplitJoin.turn, CreateSplitJoin.shrunk, size. simpl.
  by destruct fuel.
Qed.
End ResolverProofs.

(** ** Pruning *)

Section PruneProofs.
Implicit Types (p : Parser) (m : YModule.t) (l ps : list PathPtr).

(** Erasing, one by one, the first occurrence of every address that
    fails [keep] leaves the addresses that pass it. *)
Lemma eraseFirst_filter (keep : PathPtr → bool) done l :
  Forall (λ pa, keep pa = true) done →
  foldl (λ ps pa, YModule.eraseFirst pa ps) (done ++ l)
        (List.filter (λ pa, negb (keep pa)) l)
  = done ++ List.filter keep l.
Proof.
  revert done. induction l as [|a l IH]; intros done Hdone; simpl.
  - done.
  - destruct (keep a) eqn:Ha; simpl.
    + replace (done ++ a :: l) with ((done ++ [a]) ++ l) by (by rewrite <- app_assoc).
      rewrite IH; [by rewrite <- app_assoc|].
      apply Forall_app. by repeat constructor.
    + assert (YModule.eraseFirst a (done ++ a :: l) = done ++ l) as ->.
      { clear IH. induction done as [|d done IHd]; simpl.
        - by rewrite decide_True.
        - inversion Hdone; subst. rewrite decide_False by congruence.
          by rewrite IHd. }
      by apply IH.
Qed.

Lemma removePaths_foldl p l :
  foldl (λ p pa, onModule (YModule.removePath pa) p) p l
  = onModule (YModule.setPaths
                (foldl (λ ps pa, YModule.eraseFirst pa ps)
                       (YModule.paths (currentModule p)) l)) p.
Proof.
  revert p. induction l as [|a l IH]; intros p; simpl.
  - by destruct p as [? [] ? ?].
  - rewrite IH. by destruct p as [? [] ? ?].
Qed.

Lemma removeUnconnectedPaths_filter p :
  removeUnconnectedPaths p
  = onModule (YModule.setPaths
                (List.filter (λ pa, Path.hasConnection (path (store p) pa))
                             (YModule.paths (currentModule p)))) p.
Proof.
  unfold removeUnconnectedPaths. rewrite removePaths_foldl.
  f_equal. f_equal.
  exact (eraseFirst_filter (λ pa, Path.hasConnection (path (store p) pa)) []
           (YModule.paths (currentModule p)) (Forall_nil_2 _)).
Qed.

Lemma filter_filter_same {A} (f : A → bool) (l : list A) :
  List.filter f (List.filter f l) = List.filter f l.
Proof.
  induction l as [|a l IH]; simpl; [done|].
  destruct (f a) eqn:Ha; simpl; [rewrite Ha|]; by rewrite ?IH.
Qed.
End PruneProofs.

(** C6, as the code has it: [removeUnconnectedPaths] keeps, in their
    order, exactly the paths that have a driver and at least one consumer,
    or a no-connect bit; every path that lacks a driver or lacks a consumer
    and has no such bit is removed; nothing else of the parser changes. *)
Theorem removeUnconnectedPaths_spec (p : Parser) :
  let connected pa := Path.hasConnection (path (store p) pa) in
  removeUnconnectedPaths p
  = onModule (YModule.setPaths
                (List.filter connected (YModule.paths (currentModule p)))) p
  ∧ ∀ pa, connected pa = true
          ↔ (Path.sigSource (path (store p) pa) ≠ None
             ∧ Path.sigDestinations (path (store p) pa) ≠ [])
            ∨ Path.hasNoConnectBitsConnection (path (store p) pa) = true.
Proof.
  split; [apply removeUnconnectedPaths_filter|].
  intros pa. unfold Path.hasConnection.
  rewrite orb_true_iff, andb_true_iff, negb_true_iff,
    bool_decide_eq_true, bool_decide_eq_false.
  done.
Qed.

(** C9: pruning twice gives the parser that pruning once gives. *)
Theorem removeUnconnectedPaths_idempotent (p : Parser) :
  removeUnconnectedPaths (removeUnconnectedPaths p) = removeUnconnectedPaths p.
Proof.
  rewrite !removeUnconnectedPaths_filter. destruct p as [d [] c h]; simpl.
  unfold onModule, YModule.setPaths; simpl. by rewrite filter_filter_same.
Qed.

(** ** The driver of a path *)

Lemma alter_fixed {A} `{Inhabited A} (f : A → A) (i : nat) (l : list A) :
  f (l !!! i) = l !!! i → alter f i l = l.
Proof.
  revert i. induction l as [|x l IH]; intros [|i]; simpl; try done.
  - by intros ->.
  - intros Hi. f_equal. by apply IH.
Qed.

(** ** The store *)

Section StoreProofs.
Context {A : Type} `{Inhabited A}.
Implicit Types (l : list A) (o : A) (i j : nat).

Lemma lookup_total_snoc l o : (l ++ [o]) !!! length l = o.
Proof. induction l as [|x l IH]; simpl; [done|]. apply IH. Qed.

Lemma lookup_total_snoc_ne l o j : j ≠ length l → (l ++ [o]) !!! j = l !!! j.
Proof.
  revert j. induction l as [|x l IH]; intros [|j] Hj; simpl in *; try done.
  apply IH. lia.
Qed.

Lemma lookup_total_alter f l i :
  (i < length l)%nat → alter f i l !!! i = f (l !!! i).
Proof.
  revert i. induction l as [|x l IH]; intros [|i] Hi; simpl in *; try lia; [done|].
  apply IH. lia.
Qed.

Lemma lookup_total_alter_ne f l i j : i ≠ j → alter f i l !!! j = l !!! j.
Proof.
  revert i j. induction l as [|x l IH]; intros [|i] [|j] Hij; simpl; try done.
  apply IH. lia.
Qed.

Lemma alter_ge f l i : (length l ≤ i)%nat → alter f i l = l.
Proof.
  revert i. induction l as [|x l IH]; intros [|i] Hi; simpl in *; try done; [lia|].
  f_equal. apply IH. lia.
Qed.

(** A field that [f] leaves alone reads the same after [alter f]. *)
Lemma lookup_total_alter_proj {B} (π : A → B) f l i j :
  (∀ o, π (f o) = π o) → π (alter f i l !!! j) = π (l !!! j).
Proof.
  intros Hf. revert i j.
  induction l as [|x l IH]; intros [|i] [|j]; simpl; try done. apply IH.
Qed.
End StoreProofs.

Lemma lookup_app_add {A} (l1 l2 : list A) (i : nat) :
  (l1 ++ l2) !! (length l1 + i)%nat = l2 !! i.
Proof. induction l1 as [|x l1 IH]; simpl; done. Qed.

(** ** Stitching the drivers *)

Section SrcProofs.
Implicit Types (p : Parser) (s d : PortPtr) (pa : PathPtr).

Lemma sameNaming_refl p : sameNaming p p.
Proof. by split_and!. Qed.

Lemma sameNaming_trans p1 p2 p3 :
  sameNaming p1 p2 → sameNaming p2 p3 → sameNaming p1 p3.
Proof.
  intros (? & ? & H12) (? & ? & H23). split_and!; try congruence.
  intros d. destruct (H12 d) as (? & ? & ?), (H23 d) as (? & ? & ?).
  split_and!; congruence.
Qed.

Lemma naming_same p p' s :
  sameNaming p p' → ConnectSignalSrc.naming p' s = ConnectSignalSrc.naming p s.
Proof.
  intros (Hc & Hn & Hp). destruct (Hp s) as (Hname & Hdir & Hbits).
  unfold ConnectSignalSrc.naming, YModule.getNetnameByBits.
  by rewrite Hc, Hn, Hname, Hdir, Hbits.
Qed.

Lemma src_body p s :
  let p' := ConnectSignalSrc.body p s in
  sameNaming p p'
  ∧ pathObj (store p') = pathObj (store p) ++ [driverPath p s]
  ∧ YModule.paths (currentModule p')
    = YModule.paths (currentModule p) ++ [length (pathObj (store p))]
  ∧ Port.path (port (store p') s)
    = (if decide (s < length (portObj (store p)))%nat
       then Some (length (pathObj (store p)))
       else Port.path (port (store p) s)).
Proof.
  unfold ConnectSignalSrc.body, driverPath.
  destruct (ConnectSignalSrc.naming p s) as [pathName isHidden] eqn:Hn.
  destruct p as [dg m c [po pt no]]. simpl in *.
  unfold sameNaming, port, path; simpl. split_and!; try done.
  - intros d.
    split_and!; by apply (lookup_total_alter_proj _ (Port.setPath _)).
  - rewrite alter_app_r_alt by lia. rewrite Nat.sub_diag. simpl.
    unfold Path.setSigSource, Path.new. simpl. done.
  - case_decide as Hs.
    + by rewrite lookup_total_alter.
    + by rewrite alter_ge by lia.
Qed.

Lemma driverPath_same p p' s :
  sameNaming p p' → driverPath p' s = driverPath p s.
Proof.
  intros Hs. unfold driverPath. rewrite (naming_same _ _ _ Hs).
  destruct Hs as (_ & _ & Hp). destruct (Hp s) as (_ & _ & ->). done.
Qed.

Lemma src_loop srcPorts p :
  let p' := connectSignalSrcConnections srcPorts p in
  sameNaming p p'
  ∧ pathObj (store p') = pathObj (store p) ++ (driverPath p <$> srcPorts)
  ∧ YModule.paths (currentModule p')
    = YModule.paths (currentModule p)
      ++ seq (length (pathObj (store p))) (length srcPorts).
Proof.
  unfold connectSignalSrcConnections.
  revert p. induction srcPorts as [|s srcPorts IH]; intros p; simpl.
  - rewrite !app_nil_r. split_and!; [apply sameNaming_refl|done..].
  - destruct (src_body p s) as (Hs & Hobj & Hpaths & _).
    destruct (IH (ConnectSignalSrc.body p s)) as (Hs' & Hobj' & Hpaths').
    split_and!.
    + by eapply sameNaming_trans.
    + rewrite Hobj', Hobj, <- app_assoc. simpl. do 2 f_equal.
      apply list_fmap_ext. intros _ x _. by apply driverPath_same.
    + rewrite Hpaths', Hpaths, Hobj, <- app_assoc, length_app. simpl.
      by rewrite Nat.add_1_r.
Qed.
End SrcProofs.

(** C7, for the drivers that are not CONST ports: the path of the [i]-th
    driver takes the name and the hidden flag of the first net name with
    the bits of the driver, or [<name>_sig] and hidden when there is none;
    it has the driver as source, and no alternative name is recorded on
    it. *)
Theorem connectSignalSrcConnections_naming
    (p : Parser) (srcPorts : list PortPtr) (i : nat) (P : PortPtr) :
  srcPorts !! i = Some P →
  Port.direction (port (store p) P) ≠ CONST →
  let p' := connectSignalSrcConnections srcPorts p in
  let created := (length (pathObj (store p)) + i)%nat in
  let bits := Port.bits (port (store p) P) in
  YModule.paths (currentModule p')
    !! (length (YModule.paths (currentModule p)) + i)%nat = Some created
  ∧ path (store p') created
    = match YModule.getNetnameByBits bits (currentModule p) with
      | Some netname =>
          Path.mk (Netname.name netname) (size bits) bits
            (Netname.isHidden netname) (Some P) [] []
      | None =>
          Path.mk (Port.name (port (store p) P) +:+ "_sig") (size bits) bits
            true (Some P) [] []
      end.
Proof.
  intros Hi Hdir p' created bits.
  destruct (src_loop srcPorts p) as (_ & Hobj & Hpaths).
  fold p' in Hobj, Hpaths. split.
  - rewrite Hpaths, lookup_app_add.
    apply lookup_seq. split; [done|]. by eapply lookup_lt_Some.
  - unfold path. rewrite Hobj.
    assert ((pathObj (store p) ++ (driverPath p <$> srcPorts)) !! created
            = Some (driverPath p P)) as Hl.
    { unfold created. by rewrite lookup_app_add, list_lookup_fmap, Hi. }
    rewrite (list_lookup_total_correct _ _ _ Hl).
    unfold driverPath, ConnectSignalSrc.naming. fold bits.
    rewrite decide_False by done.
    by destruct (YModule.getNetnameByBits bits (currentModule p)).
Qed.

(** ** Stitching the consumers *)

Section DestProofs.
Implicit Types (p : Parser) (s d : PortPtr) (pa : PathPtr).

Lemma find_ext {A} (f g : A → bool) (l : list A) :
  (∀ x, f x = g x) → List.find f l = List.find g l.
Proof. intros Hfg. induction l as [|x l IH]; simpl; [done|]. by rewrite Hfg, IH. Qed.

Lemma dest_body p d :
  let p' := ConnectSignalDest.body p d in
  let found := YModule.getPathByBits (store p) (Port.bits (port (store p) d))
                 (currentModule p) in
  currentModule p' = currentModule p
  ∧ (∀ x, Port.bits (port (store p') x) = Port.bits (port (store p) x))
  ∧ (∀ x, Path.bits (path (store p') x) = Path.bits (path (store p) x))
  ∧ (∀ x, Path.sigDestinations (path (store p') x)
          = Path.sigDestinations (path (store p) x)
          ∨ (found = Some x
             ∧ Path.sigDestinations (path (store p') x)
               = Path.sigDestinations (path (store p) x) ++ [d])).
Proof.
  unfold ConnectSignalDest.body. simpl.
  destruct (YModule.getPathByBits _ _ _) as [pa|] eqn:Hf; [|by split_and!; auto].
  destruct p as [dg m c [po pt no]]. unfold port, path in *. simpl in *.
  split_and!; try done.
  - intros x. by apply (lookup_total_alter_proj _ (Port.setPath _)).
  - intros x. by apply (lookup_total_alter_proj _ (Path.addSigDestination _)).
  - intros x. destruct (decide (pa = x)) as [->|Hne].
    + destruct (decide (x < length pt)%nat).
      * right. split; [done|]. by rewrite lookup_total_alter.
      * left. by rewrite alter_ge by lia.
    + left. by rewrite lookup_total_alter_ne.
Qed.

Lemma getPathByBits_same p p' bits :
  currentModule p' = currentModule p →
  (∀ x, Path.bits (path (store p') x) = Path.bits (path (store p) x)) →
  YModule.getPathByBits (store p') bits (currentModule p')
  = YModule.getPathByBits (store p) bits (currentModule p).
Proof.
  intros -> Hb. unfold YModule.getPathByBits. apply find_ext.
  intros x. by rewrite Hb.
Qed.

Lemma claimed_body p seen d :
  claimed p seen → claimed (ConnectSignalDest.body p d) (seen ++ [d]).
Proof.
  intros Hc pa Hpa.
  destruct (dest_body p d) as (Hm & Hport & Hpath & Hdest).
  rewrite Hm in Hpa. destruct (Hc pa Hpa) as [Hsub Hfirst].
  assert (∀ x, YModule.getPathByBits (store (ConnectSignalDest.body p d))
                 (Port.bits (port (store (ConnectSignalDest.body p d)) x))
                 (currentModule (ConnectSignalDest.body p d))
               = YModule.getPathByBits (store p) (Port.bits (port (store p) x))
                   (currentModule p)) as Hget.
  { intros x. rewrite Hport. by apply getPathByBits_same. }
  destruct (Hdest pa) as [-> | [Hfound ->]].
  - split; [by apply sublist_inserts_r|].
    intros x Hx. rewrite Hget. by apply Hfirst.
  - split; [by apply sublist_app|].
    intros x Hx. rewrite Hget. apply elem_of_app in Hx as [Hx|Hx].
    + by apply Hfirst.
    + by apply list_elem_of_singleton in Hx as ->.
Qed.

Lemma claimed_loop destPorts p seen :
  claimed p seen →
  claimed (connectSignalDestConnections destPorts p) (seen ++ destPorts).
Proof.
  unfold connectSignalDestConnections.
  revert p seen. induction destPorts as [|d destPorts IH]; intros p seen Hc; simpl.
  - by rewrite app_nil_r.
  - replace (seen ++ d :: destPorts) with ((seen ++ [d]) ++ destPorts)
      by (by rewrite <- app_assoc).
    apply IH. by apply claimed_body.
Qed.

(** The drivers are stitched first; their paths wait without consumers. *)
Lemma claimed_after_src srcPorts p :
  YModule.paths (currentModule p) = [] →
  claimed (connectSignalSrcConnections srcPorts p) [].
Proof.
  intros Hempty pa Hpa.
  destruct (src_loop srcPorts p) as (_ & Hobj & Hpaths).
  rewrite Hpaths, Hempty in Hpa. simpl in Hpa.
  apply elem_of_seq in Hpa as [Hlo Hhi].
  assert (Path.sigDestinations
            (path (store (connectSignalSrcConnections srcPorts p)) pa) = []) as ->.
  { unfold path. rewrite Hobj.
    destruct (lookup_lt_is_Some_2 srcPorts (pa - length (pathObj (store p))))
      as [s Hs]; [lia|].
    assert ((pathObj (store p) ++ (driverPath p <$> srcPorts)) !! pa
            = Some (driverPath p s)) as Hl.
    { replace pa with (length (pathObj (store p))
                       + (pa - length (pathObj (store p))))%nat at 1 by lia.
      by rewrite lookup_app_add, list_lookup_fmap, Hs. }
    by rewrite (list_lookup_total_correct _ _ _ Hl). }
  split; [constructor|]. by intros d Hd%elem_of_nil.
Qed.
End DestProofs.

(** ** Exceptions and the diagram *)

Section DiagramProofs.
Implicit Types (p : Parser).

Lemma foldl_invariant {A B} (I : A → Prop) (f : A → B → A) (l : list B) (a : A) :
  I a → (∀ a b, I a → I (f a b)) → I (foldl f a l).
Proof.
  intros Ha Hf. revert a Ha. induction l as [|b l IH]; intros a Ha; simpl; [done|].
  apply IH. by apply Hf.
Qed.

Lemma replaceConstBits_diagram p : diagram (replaceConstBits p) = diagram p.
Proof.
  unfold replaceConstBits.
  apply (foldl_invariant (λ st, diagram st.1 = diagram p)); [done|].
  intros [q n] s Hq. unfold ReplaceConstBits.body. simpl in *.
  assert (diagram (foldl (ReplaceConstBits.run s) (q, n)
                     (splitBits (Port.bits (port (store q) s)))).1 = diagram p) as H.
  { apply (foldl_invariant (λ st, diagram st.1 = diagram p)); [done|].
    intros [q' n'] [pos bitValue] Hq'. unfold ReplaceConstBits.run. simpl in *.
    destruct (negb _); [done|].
    destruct (ReplaceConstBits.freshBits n' bitValue) as [bits n''].
    unfold createConstantPort, newPort. simpl. done. }
  by destruct (foldl _ _ _).
Qed.

Lemma addSyntheticNode_diagram name type ports p :
  diagram (addSyntheticNode name type ports p) = diagram p.
Proof.
  unfold addSyntheticNode. destruct (makePorts _ _) as [ptrs h].
  unfold newNode. simpl. done.
Qed.

Lemma createSplitNodes_diagram info p : diagram (createSplitNodes info p) = diagram p.
Proof.
  unfold createSplitNodes.
  apply (foldl_invariant (λ st, diagram st.1 = diagram p)); [done|].
  intros [q n] [srcBits destBits] Hq. simpl in *.
  by rewrite addSyntheticNode_diagram.
Qed.

Lemma createJoinNodes_diagram info p : diagram (createJoinNodes info p) = diagram p.
Proof.
  unfold createJoinNodes.
  apply (foldl_invariant (λ st, diagram st.1 = diagram p)); [done|].
  intros [q n] [srcBits destBits] Hq. simpl in *.
  by rewrite addSyntheticNode_diagram.
Qed.

Lemma createSignalConnections_diagram p :
  diagram (createSignalConnections p) = diagram p.
Proof.
  unfold createSignalConnections, connectSignalDestConnections,
    connectSignalSrcConnections.
  apply (foldl_invariant (λ q, diagram q = diagram p)).
  - apply (foldl_invariant (λ q, diagram q = diagram p)); [done|].
    intros q s Hq. unfold ConnectSignalSrc.body.
    destruct (ConnectSignalSrc.naming q s). unfold newPath. simpl. done.
  - intros q d Hq. unfold ConnectSignalDest.body. by case_match.
Qed.

Lemma connectDiagramConnections_diagram p :
  diagram (connectDiagramConnections p) = diagram p.
Proof.
  unfold connectDiagramConnections.
  by rewrite createSignalConnections_diagram, createSplitNodes_diagram,
    createJoinNodes_diagram.
Qed.

Lemma removeUnconnectedPaths_diagram p :
  diagram (removeUnconnectedPaths p) = diagram p.
Proof. by rewrite removeUnconnectedPaths_filter. Qed.

Lemma keeps_ret {A} (a : A) : keeps (ret a).
Proof. done. Qed.
Lemma keeps_throw {A} what : keeps (throw (A := A) what).
Proof. done. Qed.
Lemma keeps_get : keeps get.
Proof. done. Qed.
Lemma keeps_modify f : (∀ p, diagram (f p) = diagram p) → keeps (modify f).
Proof. intros Hf p. apply Hf. Qed.

Lemma keeps_bind {A B} (m : M A) (k : A → M B) :
  keeps m → (∀ a, keeps (k a)) → keeps (bind m k).
Proof.
  intros Hm Hk p. unfold bind. specialize (Hm p).
  destruct (m p) as [p' [a|what]]; simpl in *; [|done].
  by rewrite Hk.
Qed.

Lemma keeps_forEach {A} (l : list A) body :
  (∀ x, keeps (body x)) → keeps (forEach l body).
Proof.
  intros Hb. induction l as [|x l IH]; simpl; [apply keeps_ret|].
  apply keeps_bind; [apply Hb | done].
Qed.

Lemma keeps_throwKeeps {A} (m : M A) : keeps m → throwKeeps m.
Proof. intros Hm p p' what Hp. specialize (Hm p). by rewrite Hp in Hm. Qed.

Lemma throwKeeps_bind {A B} (m : M A) (k : A → M B) :
  keeps m → (∀ a, throwKeeps (k a)) → throwKeeps (bind m k).
Proof.
  intros Hm Hk p p' what. unfold bind. specialize (Hm p).
  destruct (m p) as [q [a|what']]; simpl in *.
  - intros Hp. rewrite <- Hm. by eapply Hk.
  - by intros [= <- <-].
Qed.

Lemma keeps_makePort o : keeps (makePort o).
Proof. intros p. unfold makePort, newPort. simpl. done. Qed.

Lemma keeps_createPort name bitData directionData :
  keeps (createPort name bitData directionData).
Proof.
  unfold createPort. apply keeps_bind.
  - repeat case_decide; apply keeps_ret || apply keeps_throw.
  - intros dir. case_bool_decide; [apply keeps_throw | apply keeps_makePort].
Qed.

Lemma keeps_parsePorts ports : keeps (parsePorts ports).
Proof.
  apply keeps_forEach. intros [name value]. cbv beta iota zeta.
  apply keeps_bind; [apply keeps_createPort|]. intros a. by apply keeps_modify.
Qed.

Lemma keeps_createPorts names cellType dirs conns s :
  keeps (ParseCells.createPorts names cellType dirs conns s).
Proof.
  revert s. induction names as [|n names IH]; intros s; simpl; [apply keeps_ret|].
  apply keeps_bind; [apply keeps_createPort|]. intros a.
  repeat case_match; (apply keeps_bind; [by apply keeps_modify | intros _; apply IH]).
Qed.

Lemma keeps_parseCells cells : keeps (parseCells cells).
Proof.
  apply keeps_forEach. intros [name value]. cbv beta iota zeta.
  repeat (case_match; try apply keeps_throw).
  apply keeps_bind; [apply keeps_createPorts|]. intros s.
  case_match; [apply keeps_throw|]. apply keeps_modify. intros p.
  unfold newNode. simpl.
  by apply (foldl_invariant (λ q, diagram q = diagram p)).
Qed.

Lemma keeps_parseNetnames paths : keeps (parseNetnames paths).
Proof.
  apply keeps_forEach. intros [name value]. cbv beta iota zeta.
  repeat (case_match; try apply keeps_throw; try apply keeps_ret);
    by apply keeps_modify.
Qed.

(** Up to the stitching the module has the paths it had. *)
Lemma replaceConstBits_paths p :
  YModule.paths (currentModule (replaceConstBits p))
  = YModule.paths (currentModule p).
Proof.
  unfold replaceConstBits.
  apply (foldl_invariant
           (λ st, YModule.paths (currentModule st.1)
                  = YModule.paths (currentModule p))); [done|].
  intros [q n] s Hq. unfold ReplaceConstBits.body. simpl in *.
  assert (YModule.paths
            (currentModule (foldl (ReplaceConstBits.run s) (q, n)
                              (splitBits (Port.bits (port (store q) s)))).1)
          = YModule.paths (currentModule p)) as H.
  { apply (foldl_invariant
             (λ st, YModule.paths (currentModule st.1)
                    = YModule.paths (currentModule p))); [done|].
    intros [q' n'] [pos bitValue] Hq'. unfold ReplaceConstBits.run. simpl in *.
    destruct (negb _); [done|].
    destruct (ReplaceConstBits.freshBits n' bitValue) as [bits n''].
    unfold createConstantPort, newPort. simpl. done. }
  by destruct (foldl _ _ _).
Qed.

Lemma addSyntheticNode_paths name type ports p :
  YModule.paths (currentModule (addSyntheticNode name type ports p))
  = YModule.paths (currentModule p).
Proof.
  unfold addSyntheticNode. destruct (makePorts _ _) as [ptrs h].
  unfold newNode. simpl. done.
Qed.

Lemma createSplitNodes_paths info p :
  YModule.paths (currentModule (createSplitNodes info p))
  = YModule.paths (currentModule p).
Proof.
  unfold createSplitNodes.
  apply (foldl_invariant
           (λ st, YModule.paths (currentModule st.1)
                  = YModule.paths (currentModule p))); [done|].
  intros [q n] [srcBits destBits] Hq. simpl in *.
  by rewrite addSyntheticNode_paths.
Qed.

Lemma createJoinNodes_paths info p :
  YModule.paths (currentModule (createJoinNodes info p))
  = YModule.paths (currentModule p).
Proof.
  unfold createJoinNodes.
  apply (foldl_invariant
           (λ st, YModule.paths (currentModule st.1)
                  = YModule.paths (currentModule p))); [done|].
  intros [q n] [srcBits destBits] Hq. simpl in *.
  by rewrite addSyntheticNode_paths.
Qed.

(** The single claim, for the stitching as [parse] reaches it: on a
    module without paths, after the constants are replaced and the split
    and join nodes are made. *)
Lemma connectDiagramConnections_single_claim p d pa1 pa2 :
  YModule.paths (currentModule p) = [] →
  let p' := connectDiagramConnections (replaceConstBits p) in
  pa1 ∈ YModule.paths (currentModule p') →
  pa2 ∈ YModule.paths (currentModule p') →
  d ∈ Path.sigDestinations (path (store p') pa1) →
  d ∈ Path.sigDestinations (path (store p') pa2) →
  pa1 = pa2.
Proof.
  intros Hempty p'. unfold p', connectDiagramConnections.
  set (q := createSplitNodes _ (createJoinNodes _ _)).
  assert (claimed (createSignalConnections q)
            (CreateSignalConnections.destPorts (store q) (currentModule q))) as Hc.
  { unfold createSignalConnections.
    change (CreateSignalConnections.destPorts (store q) (currentModule q))
      with ([] ++ CreateSignalConnections.destPorts (store q) (currentModule q)).
    apply claimed_loop, claimed_after_src. unfold q.
    by rewrite createSplitNodes_paths, createJoinNodes_paths,
      replaceConstBits_paths. }
  intros H1 H2 Hd1 Hd2.
  destruct (Hc pa1 H1) as [_ Hf1]. destruct (Hc pa2 H2) as [_ Hf2].
  specialize (Hf1 d Hd1). specialize (Hf2 d Hd2). congruence.
Qed.

(** The loop body of [parse] touches the diagram only after its last
    check. *)
Lemma throwKeeps_body name module : throwKeeps (Parse.body name module).
Proof.
  unfold Parse.body. cbv beta iota zeta.
  case_match; [apply keeps_throwKeeps, keeps_ret|].
  apply throwKeeps_bind; [by apply keeps_modify|]. intros _.
  apply throwKeeps_bind; [apply keeps_parseNetnames|]. intros _.
  apply throwKeeps_bind; [apply keeps_parsePorts|]. intros _.
  apply throwKeeps_bind; [apply keeps_parseCells|]. intros _.
  apply throwKeeps_bind; [apply keeps_get|]. intros q.
  case_match; [apply keeps_throwKeeps, keeps_throw|].
  apply throwKeeps_bind; [apply keeps_modify, replaceConstBits_diagram|]. intros _.
  apply throwKeeps_bind; [apply keeps_modify, connectDiagramConnections_diagram|].
  intros _.
  apply throwKeeps_bind; [apply keeps_modify, removeUnconnectedPaths_diagram|].
  intros _.
  apply throwKeeps_bind; [apply keeps_get|]. intros q'.
  case_match; [apply keeps_throwKeeps, keeps_throw|].
  case_match; [apply keeps_throwKeeps, keeps_throw|].
  intros p p' what. unfold bind, modify, ret. by case_match.
Qed.

Lemma forEach_throw {A} (pre post : list A) x body p p1 p2 what :
  forEach pre body p = (p1, Return tt) →
  body x p1 = (p2, Throw what) →
  forEach (pre ++ x :: post) body p = (p2, Throw what).
Proof.
  revert p. induction pre as [|y pre IH]; intros p; simpl.
  - intros [= ->] Hx. unfold bind. by rewrite Hx.
  - unfold bind. destruct (body y p) as [q [[]|w]]; [|done].
    intros Hpre Hx. by apply IH.
Qed.
End DiagramProofs.

(** ** Constant materialisation *)

Section MaterializeProofs.
Implicit Types (p : Parser) (d : PortPtr).

Lemma replaceBits_length pos bits' (o : Port.t) :
  length (Port.bits (Port.replaceBits pos bits' o)) = length (Port.bits o).
Proof.
  unfold Port.replaceBits. simpl.
  apply (foldl_invariant (λ b, length b = length (Port.bits o))); [done|].
  intros b i Hb. by rewrite length_insert.
Qed.

(** The ports that exist keep the length of their bits; the store only
    grows. *)
Lemma replaceConstBits_length p d :
  (d < length (portObj (store p)))%nat →
  length (Port.bits (port (store (replaceConstBits p)) d))
  = length (Port.bits (port (store p) d)).
Proof.
  intros Hd. unfold replaceConstBits.
  pose (I := λ st : Parser * Z,
          (length (portObj (store p)) ≤ length (portObj (store st.1)))%nat
          ∧ length (Port.bits (port (store st.1) d))
            = length (Port.bits (port (store p) d))).
  enough (I (foldl ReplaceConstBits.body
               (p, YModule.getMaxBitNumber (store p) (currentModule p))
               (ReplaceConstBits.srcPorts (store p) (currentModule p)))) as [_ H]
    by exact H.
  apply foldl_invariant; [by split|].
  intros [q n] s Hq. unfold ReplaceConstBits.body. simpl in *.
  assert (I (foldl (ReplaceConstBits.run s) (q, n)
               (splitBits (Port.bits (port (store q) s))))) as H.
  { apply foldl_invariant; [done|].
    intros [q' n'] [pos bitValue] [Hlen Hbits]. unfold ReplaceConstBits.run.
    simpl in *. destruct (negb _); [by split|].
    destruct (ReplaceConstBits.freshBits n' bitValue) as [bits n''].
    unfold createConstantPort, newPort, port in *. simpl.
    destruct q' as [dg m c [po pt no]]. simpl in *.
    unfold onStore, onModule, setStore, updPort. split; cbn.
    - rewrite length_alter, length_app. lia.
    - rewrite <- Hbits.
      rewrite (lookup_total_alter_proj (λ o, length (Port.bits o)))
        by apply replaceBits_length.
      by rewrite lookup_total_snoc_ne by lia. }
  by destruct (foldl _ _ _).
Qed.
End MaterializeProofs.

(** ** The scenarios, run *)

(** [afterPorts] is the state in which [parsePorts] leaves a fresh parser,
    here for the ports of scenario B. *)
Lemma afterPorts_parsePorts :
  (modify (setCurrentModule (YModule.new "m")) ;;;
   parsePorts (Json.toObject (Json.jat (Json.toObject Examples.splitModule)
                                YosysJson.ports))) newParser
  = (afterPorts "m" [Port.new "a" INPUT ["n1"; "n2"; "n3"; "n4"];
                     Port.new "b" OUTPUT ["n1"; "n2"];
                     Port.new "c" OUTPUT ["n3"; "n4"]],
     Return tt).
Proof. reflexivity. Qed.

(** C1, with the count the code gives: scenario B yields one node, of
    type split, with the ports [in], [out0] and [out1], and three paths:
    the path of the input port, which feeds [in], and the paths of [out0]
    and [out1], which feed the two outputs; the module is accepted. *)
Theorem scenarioB_split (type a b c : string) :
  let p := pipeline (afterPorts type
             [Port.new a INPUT ["n1"; "n2"; "n3"; "n4"];
              Port.new b OUTPUT ["n1"; "n2"];
              Port.new c OUTPUT ["n3"; "n4"]]) in
  node (store p) <$> YModule.nodes (currentModule p)
  = [Node.mk "split0" "split" [3; 4; 5]%nat]
  ∧ port (store p) <$> [3; 4; 5]%nat
    = [Port.mk "in" INPUT ["n1"; "n2"; "n3"; "n4"] (Some 0%nat) (Some 0%nat) 0 EmptyString;
       Port.mk "out0" OUTPUT ["n1"; "n2"] (Some 1%nat) (Some 0%nat) 0 EmptyString;
       Port.mk "out1" OUTPUT ["n3"; "n4"] (Some 2%nat) (Some 0%nat) 0 EmptyString]
  ∧ path (store p) <$> YModule.paths (currentModule p)
    = [Path.mk (a +:+ "_sig") 4 ["n1"; "n2"; "n3"; "n4"] true
         (Some 0%nat) [3%nat] [];
       Path.mk "out0_sig" 2 ["n1"; "n2"] true (Some 4%nat) [1%nat] [];
       Path.mk "out1_sig" 2 ["n3"; "n4"] true (Some 5%nat) [2%nat] []]
  ∧ accepted p = true.
Proof. vm_compute. by split_and!. Qed.

(** [parse] accepts the module of scenario B with three paths, not two. *)
Lemma scenarioB_two_paths_counterexample :
  let r := parse (Examples.document [("m", Examples.splitModule)]) newParser in
  r.2 = Return tt
  ∧ (λ m, length (YModule.paths m)) <$> Diagram.modules (diagram r.1) = [3%nat]
  ∧ ¬ (∀ m, m ∈ Diagram.modules (diagram r.1) → length (YModule.paths m) = 2%nat).
Proof.
  vm_compute. split_and!; [done..|].
  intros H. specialize (H _ (list_elem_of_here _ _)). discriminate H.
Qed.

(** C3 at a module whose only port is an output tied to zero: no net
    token has a number, the counter starts from 0, and the token written
    over the constant is "1", which reads as a constant again; [parse]
    accepts the module in this state. *)
Theorem replaceConstBits_constant_token :
  let p0 := afterPorts "m" [Port.new "o" OUTPUT ["0"]] in
  let p := replaceConstBits p0 in
  let r := parse (Examples.document [("m", Examples.constModule)]) newParser in
  YModule.getMaxBitNumber (store p0) (currentModule p0) = 0
  ∧ Port.bits (port (store p) 0%nat) = ["1"]
  ∧ isConstBit "1" = true
  ∧ Port.hasConstantBits (port (store p) 0%nat) = true
  ∧ port (store p) <$> YModule.ports (currentModule p)
    = [Port.mk "o" OUTPUT ["1"] None None 0 EmptyString;
       Port.mk "o_const" CONST ["1"] None None 0 EmptyString]
  ∧ r.2 = Return tt
  ∧ Port.bits <$> portObj (store r.1) = [["1"]; ["1"]].
Proof. vm_compute. by split_and!. Qed.

(** The path of an input that nothing reads has a driver and is pruned. *)
Lemma removeUnconnectedPaths_driver_counterexample :
  ¬ (∀ pa, pa ∈ YModule.paths (currentModule Examples.unusedInputStitched) →
       Path.sigSource (path (store Examples.unusedInputStitched) pa) ≠ None
       ∨ Path.sigDestinations (path (store Examples.unusedInputStitched) pa) ≠ [] →
       pa ∈ YModule.paths
              (currentModule (removeUnconnectedPaths Examples.unusedInputStitched))).
Proof.
  intros H.
  assert (0%nat ∈ YModule.paths
            (currentModule (removeUnconnectedPaths Examples.unusedInputStitched)))
    as Hin.
  { apply H; [vm_compute; apply list_elem_of_here | left; vm_compute; discriminate]. }
  vm_compute in Hin. apply list_elem_of_singleton in Hin. discriminate Hin.
Qed.

(** The net name of the wire has the alternate [b]; its path has none. *)
Lemma connectSignalSrcConnections_alternates_counterexample :
  let r := parse (Examples.document [("m", Examples.aliasModule)]) newParser in
  r.2 = Return tt
  ∧ YModule.getNetnameByBits ["2"] (currentModule r.1)
    = Some (Netname.mk "a" ["2"] false ["b"])
  ∧ Path.sigSource (path (store r.1) 0%nat) = Some 0%nat
  ∧ Path.name (path (store r.1) 0%nat) = "a"
  ∧ Path.alternativeNames (path (store r.1) 0%nat) = []
  ∧ Path.alternativeNames (path (store r.1) 0%nat) ≠ ["b"].
Proof. vm_compute. by split_and!. Qed.

(** The driver of the wire of scenario A, without a net name. *)
Lemma connectSignalSrcConnections_naming_witness :
  path (store (connectSignalSrcConnections [0%nat] Examples.wire)) 0%nat
  = Path.mk "a_sig" 1 ["2"] true (Some 0%nat) [] [].
Proof.
  refine (proj2 (connectSignalSrcConnections_naming Examples.wire [0%nat]
                   0%nat 0%nat _ _));
    vm_compute; [reflexivity | discriminate].
Defined.

(** A module that [parse] accepts alone is not read after one that fails. *)
Lemma parse_siblings_counterexample :
  let good := Examples.document [("good", Examples.splitModule)] in
  let both := Examples.document [("bad", Examples.emptyModule);
                                 ("good", Examples.splitModule)] in
  (parse good newParser).2 = Return tt
  ∧ YModule.type <$> Diagram.modules (diagram (parse good newParser).1) = ["good"]
  ∧ (parse both newParser).2
    = Throw "Error while parsing bad: Module has no Ports or Nodes"
  ∧ Diagram.modules (diagram (parse both newParser).1) = [].
Proof. vm_compute. by split_and!. Qed.

(** ** Searching a bit sequence *)

Section SearchProofs.
Context {A : Type} `{EqDecision A}.
Implicit Types (hay needle l : list A).

Lemma startsWith_prefix needle hay :
  QList.startsWith needle hay = true ↔ ∃ l2, hay = needle ++ l2.
Proof.
  revert hay. induction needle as [|x needle IH]; intros hay; simpl.
  - split; [by eexists|done].
  - destruct hay as [|y hay]; [split; [done|by intros [? ?]]|].
    rewrite andb_true_iff, bool_decide_eq_true, IH. split.
    + intros [-> [l2 ->]]. by eexists.
    + intros [l2 [= -> ->]]. split; [done|by eexists].
Qed.

Lemma searchFound_infix hay needle :
  QList.searchFound hay needle = true
  ↔ hay ≠ [] ∧ ∃ l1 l2, hay = l1 ++ needle ++ l2.
Proof.
  split.
  - induction hay as [|x hay IH]; simpl; [done|].
    rewrite orb_true_iff. intros [Hs|Hs].
    + destruct needle as [|y needle]; [split; [done|by exists [], (x :: hay)]|].
      simpl in Hs. apply andb_true_iff in Hs as [Hxy Hs].
      apply bool_decide_eq_true in Hxy as ->.
      apply startsWith_prefix in Hs as [l2 ->].
      split; [done|]. by exists [], l2.
    + destruct (IH Hs) as (_ & l1 & l2 & ->).
      split; [done|]. by exists (x :: l1), l2.
  - intros (Hne & l1 & l2 & Heq). revert hay Hne Heq.
    induction l1 as [|y l1 IH]; intros hay Hne ->; simpl in *.
    + destruct needle as [|x needle]; simpl in *.
      * by destruct l2.
      * rewrite bool_decide_eq_true_2 by done. simpl.
        rewrite (proj2 (startsWith_prefix needle (needle ++ l2))); [done|by eexists].
    + rewrite orb_true_iff. destruct (l1 ++ needle ++ l2) as [|z tl] eqn:Htl.
      * left. apply app_eq_nil in Htl as [_ [-> _]%app_eq_nil]. done.
      * right. rewrite <- Htl. by apply IH; [rewrite Htl|].
Qed.
End SearchProofs.

(** X1: [Path::partialBitsMatch] answers true exactly when the path has
    bits and the given bits are a contiguous part of them; on a path
    without bits it answers false, also for no bits at all. *)
Theorem partialBitsMatch_infix (bits : list string) (p : Path.t) :
  partialBitsMatch bits p = true
  ↔ Path.bits p ≠ [] ∧ ∃ l1 l2, Path.bits p = l1 ++ bits ++ l2.
Proof. apply searchFound_infix. Qed.

Section IndexProofs.
Implicit Types (lst : list (list string)) (element : list string).

Lemma indexOfContains_none lst element :
  indexOfContains lst element = -1
  ↔ Forall (λ h, QList.searchFound h element = false) lst.
Proof.
  induction lst as [|h lst IH]; simpl; [done|].
  pose proof (indexOfContains_nonneg lst element).
  destruct (QList.searchFound h element) eqn:Hh.
  - split; [done|]. intros Hf. inversion Hf; congruence.
  - destruct (indexOfContains lst element =? -1) eqn:He.
    + apply Z.eqb_eq in He. split; [|done]. intros _. constructor; [done|by apply IH].
    + apply Z.eqb_neq in He. split; [lia|]. intros Hf. inversion Hf; subst.
      by apply IH in H3.
Qed.

Lemma indexOfContains_some lst element :
  indexOfContains lst element ≠ -1 →
  ∃ h, lst !! Z.to_nat (indexOfContains lst element) = Some h
       ∧ 0 ≤ indexOfContains lst element < size lst
       ∧ QList.searchFound h element = true
       ∧ ∀ j h', (j < Z.to_nat (indexOfContains lst element))%nat →
                 lst !! j = Some h' → QList.searchFound h' element = false.
Proof.
  induction lst as [|h lst IH]; simpl; [done|].
  pose proof (indexOfContains_nonneg lst element).
  destruct (QList.searchFound h element) eqn:Hh.
  - intros _. exists h. unfold size. simpl. split_and!; [done|lia|lia|done|]. lia.
  - destruct (indexOfContains lst element =? -1) eqn:He; [done|].
    apply Z.eqb_neq in He. intros _.
    destruct (IH He) as (h0 & Hl & Hr & Hf & Hbefore). exists h0.
    unfold size in *. simpl.
    replace (Z.to_nat (indexOfContains lst element + 1))
      with (S (Z.to_nat (indexOfContains lst element))) by lia.
    split_and!; [done|lia|lia|done|].
    intros [|j] h' Hj Hl'; simpl in Hl'; [by inversion Hl'; subst|].
    eapply Hbefore; [|done]. lia.
Qed.
End IndexProofs.

(** X2: [Parser::indexOfContains] returns -1 exactly when no sequence of
    the list has the element as a contiguous part; otherwise it returns the
    position of the first sequence that has. *)
Theorem indexOfContains_spec (lst : list (list string)) (element : list string) :
  (indexOfContains lst element = -1
   ↔ Forall (λ h, QList.searchFound h element = false) lst)
  ∧ (indexOfContains lst element ≠ -1 →
     ∃ h, lst !! Z.to_nat (indexOfContains lst element) = Some h
          ∧ 0 ≤ indexOfContains lst element < size lst
          ∧ (h ≠ [] ∧ ∃ l1 l2, h = l1 ++ element ++ l2)
          ∧ ∀ j h', (j < Z.to_nat (indexOfContains lst element))%nat →
                    lst !! j = Some h' → QList.searchFound h' element = false).
Proof.
  split; [apply indexOfContains_none|].
  intros Hi. destruct (indexOfContains_some lst element Hi) as (h & ? & ? & Hf & ?).
  apply searchFound_infix in Hf as [Hne Hex]. exists h.
  split; [done|]. split; [done|]. split; [by split|done].
Qed.

(** The element [d; e] against the list [a; b], [c; d; e]. *)
Lemma indexOfContains_spec_witness :
  ∃ h, [["a"; "b"]; ["c"; "d"; "e"]]
         !! Z.to_nat (indexOfContains [["a"; "b"]; ["c"; "d"; "e"]] ["d"; "e"]) = Some h
       ∧ 0 ≤ indexOfContains [["a"; "b"]; ["c"; "d"; "e"]] ["d"; "e"]
         < size [["a"; "b"]; ["c"; "d"; "e"]]
       ∧ (h ≠ [] ∧ ∃ l1 l2, h = l1 ++ ["d"; "e"] ++ l2)
       ∧ ∀ j h', (j < Z.to_nat (indexOfContains [["a"; "b"]; ["c"; "d"; "e"]]
                                  ["d"; "e"]))%nat →
                 [["a"; "b"]; ["c"; "d"; "e"]] !! j = Some h' →
                 QList.searchFound h' ["d"; "e"] = false.
Proof.
  apply (proj2 (indexOfContains_spec [["a"; "b"]; ["c"; "d"; "e"]] ["d"; "e"])).
  by vm_compute.
Defined.

(** ** The order of the keys *)

Section OrderProofs.
Lemma ascii_compare_refl (a : ascii) : Ascii.compare a a = Eq.
Proof. unfold Ascii.compare. apply N.compare_refl. Qed.

Lemma ascii_compare_lt_trans (a b c : ascii) :
  Ascii.compare a b = Lt → Ascii.compare b c = Lt → Ascii.compare a c = Lt.
Proof. unfold Ascii.compare. rewrite !N.compare_lt_iff. lia. Qed.

Lemma string_compare_lt_trans (a b c : string) :
  String.compare a b = Lt → String.compare b c = Lt → String.compare a c = Lt.
Proof.
  revert b c. induction a as [|x a IH]; intros [|y b] [|z c]; simpl; try done.
  destruct (Ascii.compare x y) eqn:Hxy; try done;
    destruct (Ascii.compare y z) eqn:Hyz; try done.
  - apply Ascii.compare_eq_iff in Hxy as ->. rewrite Hyz. apply IH.
  - apply Ascii.compare_eq_iff in Hxy as ->. by rewrite Hyz.
  - apply Ascii.compare_eq_iff in Hyz as <-. by rewrite Hxy.
  - by rewrite (ascii_compare_lt_trans _ _ _ Hxy Hyz).
Qed.

Lemma QString_ltb_asym a b : QString_ltb a b = true → QString_ltb b a = false.
Proof.
  unfold QString_ltb. rewrite (String.compare_antisym a b).
  by destruct (String.compare b a).
Qed.

Lemma QString_ltb_trans a b c :
  QString_ltb a b = true → QString_ltb b c = true → QString_ltb a c = true.
Proof.
  unfold QString_ltb. intros Hab Hbc.
  destruct (String.compare a b) eqn:H1; try done.
  destruct (String.compare b c) eqn:H2; try done.
  by rewrite (string_compare_lt_trans a b c).
Qed.

Lemma QString_ltb_eq a b :
  QString_ltb a b = false → QString_ltb b a = false → a = b.
Proof.
  unfold QString_ltb. rewrite (String.compare_antisym a b).
  destruct (String.compare b a) eqn:Hc; simpl; try done.
  intros _ _. symmetry. by apply String.compare_eq_iff.
Qed.

Lemma QStringList_ltb_asym a b :
  QStringList_ltb a b = true → QStringList_ltb b a = false.
Proof.
  revert b. induction a as [|x a IH]; intros [|y b]; simpl; try done.
  destruct (QString_ltb x y) eqn:Hxy.
  - by rewrite (QString_ltb_asym _ _ Hxy).
  - destruct (QString_ltb y x) eqn:Hyx; [done|]. apply IH.
Qed.

Lemma QStringList_ltb_eq a b :
  QStringList_ltb a b = false → QStringList_ltb b a = false → a = b.
Proof.
  revert b. induction a as [|x a IH]; intros [|y b]; simpl; try done.
  destruct (QString_ltb x y) eqn:Hxy; [done|].
  destruct (QString_ltb y x) eqn:Hyx; [done|].
  intros Hab Hba. rewrite (QString_ltb_eq _ _ Hxy Hyx). f_equal. by apply IH.
Qed.

Lemma QStringList_ltb_trans a b c :
  QStringList_ltb a b = true → QStringList_ltb b c = true →
  QStringList_ltb a c = true.
Proof.
  revert b c. induction a as [|x a IH]; intros [|y b] [|z c]; simpl; try done.
  destruct (QString_ltb x y) eqn:Hxy.
  - intros _. destruct (QString_ltb y z) eqn:Hyz.
    + intros _. by rewrite (QString_ltb_trans _ _ _ Hxy Hyz).
    + destruct (QString_ltb z y) eqn:Hzy; [done|].
      rewrite <- (QString_ltb_eq _ _ Hyz Hzy). by rewrite Hxy.
  - destruct (QString_ltb y x) eqn:Hyx; [done|].
    rewrite (QString_ltb_eq _ _ Hxy Hyx). intros Hab.
    destruct (QString_ltb y z) eqn:Hyz; [done|].
    destruct (QString_ltb z y) eqn:Hzy; [done|]. by apply IH.
Qed.
End OrderProofs.

(** ** [std::map]: lookup after assignment *)

Section StdMapProofs.
Context {K V : Type} (ltb : K → K → bool).
Hypothesis ltb_asym : ∀ a b, ltb a b = true → ltb b a = false.
Hypothesis ltb_trans : ∀ a b c, ltb a b = true → ltb b c = true → ltb a c = true.
Hypothesis ltb_eq : ∀ a b, ltb a b = false → ltb b a = false → a = b.
Implicit Types (m : list (K * V)) (k j : K) (v : V).

Lemma ltb_irrefl k : ltb k k = false.
Proof. destruct (ltb k k) eqn:H; [|done]. by rewrite (ltb_asym _ _ H) in H. Qed.

Lemma find_set_same m k v : StdMap.find ltb (StdMap.set ltb m k v) k = Some v.
Proof.
  induction m as [|[k' v'] m IH]; simpl.
  - by rewrite ltb_irrefl.
  - destruct (ltb k k') eqn:Hkk'; simpl.
    + by rewrite ltb_irrefl.
    + destruct (ltb k' k) eqn:Hk'k; simpl; by rewrite Hkk', Hk'k.
Qed.

Lemma set_keys m k v e :
  e ∈ StdMap.set ltb m k v → e ∈ m ∨ e.1 = k.
Proof.
  induction m as [|[k' v'] m IH]; simpl.
  - intros ->%list_elem_of_singleton. by right.
  - destruct (ltb k k') eqn:Hkk'.
    + intros [->|He]%elem_of_cons; [by right|by left].
    + destruct (ltb k' k) eqn:Hk'k.
      * intros [->|He]%elem_of_cons; [left; by left|].
        destruct (IH He); [left; by right|by right].
      * intros [->|He]%elem_of_cons; [right; by apply ltb_eq|left; by right].
Qed.

Lemma ascending_set m k v :
  ascending ltb m → ascending ltb (StdMap.set ltb m k v).
Proof.
  induction m as [|[k' v'] m IH]; simpl; [done|].
  intros [Hall Hasc]. destruct (ltb k k') eqn:Hkk'; simpl.
  - split_and!; [|done..]. constructor; [done|].
    eapply Forall_impl; [exact Hall|]. intros e He. by eapply ltb_trans.
  - destruct (ltb k' k) eqn:Hk'k; simpl; [|done].
    split; [|by apply IH]. apply Forall_forall. intros e He.
    destruct (set_keys _ _ _ _ He) as [Hin | ->]; [|done].
    by eapply Forall_forall in Hall.
Qed.

Lemma find_below m j :
  Forall (λ e, ltb j e.1 = true) m → StdMap.find ltb m j = None.
Proof. destruct m as [|[k' v'] m]; [done|]. intros H. inversion H; subst. simpl in *. by rewrite H2. Qed.

Lemma find_set_other m k v j :
  ascending ltb m → j ≠ k →
  StdMap.find ltb (StdMap.set ltb m k v) j = StdMap.find ltb m j.
Proof.
  intros Hasc Hjk. induction m as [|[k' v'] m IH]; simpl.
  - destruct (ltb j k) eqn:Hj; [done|].
    destruct (ltb k j) eqn:Hk; [done|]. by destruct Hjk; apply ltb_eq.
  - destruct Hasc as [Hall Hasc]. destruct (ltb k k') eqn:Hkk'; simpl.
    + destruct (ltb j k) eqn:Hj.
      * by rewrite (ltb_trans _ _ _ Hj Hkk').
      * destruct (ltb k j) eqn:Hk; [done|]. by destruct Hjk; apply ltb_eq.
    + destruct (ltb k' k) eqn:Hk'k; simpl.
      * destruct (ltb j k'); [done|]. destruct (ltb k' j); [by apply IH|done].
      * rewrite (ltb_eq _ _ Hkk' Hk'k) in *.
        destruct (ltb j k') eqn:Hj; [done|].
        destruct (ltb k' j) eqn:Hk; [done|]. by destruct Hjk; apply ltb_eq.
Qed.

Lemma find_elem_of m k v :
  ascending ltb m → StdMap.find ltb m k = Some v ↔ (k, v) ∈ m.
Proof.
  induction m as [|[k' v'] m IH]; simpl.
  - intros _. split; [done|]. by intros ?%elem_of_nil.
  - intros [Hall Hasc]. destruct (ltb k k') eqn:Hkk'.
    + split; [done|]. intros [[= -> ->]|Hin]%elem_of_cons.
      * by rewrite ltb_irrefl in Hkk'.
      * eapply Forall_forall in Hall; [|done]. simpl in Hall.
        by rewrite (ltb_asym _ _ Hall) in Hkk'.
    + destruct (ltb k' k) eqn:Hk'k.
      * rewrite (IH Hasc). split; [by right|].
        intros [[= -> ->]|Hin]%elem_of_cons; [|done].
        by rewrite ltb_irrefl in Hk'k.
      * rewrite (ltb_eq _ _ Hkk' Hk'k). split.
        -- intros [= ->]. by left.
        -- intros [[= ->]|Hin]%elem_of_cons; [done|].
           eapply Forall_forall in Hall; [|done]. simpl in Hall.
           by rewrite ltb_irrefl in Hall.
Qed.
End StdMapProofs.

Section AddToMapProofs.
Implicit Types (map : InfoMap) (key value other : list string).

Lemma addToMap_ascending map key value :
  ascending QStringList_ltb map → ascending QStringList_ltb (addToMap map key value).
Proof.
  intros H. unfold addToMap.
  destruct (StdMap.find QStringList_ltb map key);
    (apply ascending_set;
      eauto using QStringList_ltb_asym, QStringList_ltb_trans, QStringList_ltb_eq).
Qed.

Lemma addToMap_find_same map key value :
  StdMap.find QStringList_ltb (addToMap map key value) key
  = Some (default [] (StdMap.find QStringList_ltb map key) ++ [value]).
Proof.
  unfold addToMap.
  destruct (StdMap.find QStringList_ltb map key);
    (rewrite find_set_same; [done|apply QStringList_ltb_asym]).
Qed.

Lemma addToMap_find_other map key value other :
  ascending QStringList_ltb map → other ≠ key →
  StdMap.find QStringList_ltb (addToMap map key value) other
  = StdMap.find QStringList_ltb map other.
Proof.
  intros H Hne. unfold addToMap.
  destruct (StdMap.find QStringList_ltb map key);
    (apply find_set_other;
      eauto using QStringList_ltb_asym, QStringList_ltb_trans, QStringList_ltb_eq).
Qed.
End AddToMapProofs.

(** X3: [Parser::addToMap] on a map whose keys ascend: the list of the key
    is the old list, or the empty one when the key is new, with the value
    at its end; the lists of the other keys are as before, and the keys
    ascend again. *)
Theorem addToMap_lookup (map : InfoMap) (key value : list string) :
  ascending QStringList_ltb map →
  ascending QStringList_ltb (addToMap map key value)
  ∧ StdMap.find QStringList_ltb (addToMap map key value) key
    = Some (default [] (StdMap.find QStringList_ltb map key) ++ [value])
  ∧ ∀ other, other ≠ key →
      StdMap.find QStringList_ltb (addToMap map key value) other
      = StdMap.find QStringList_ltb map other.
Proof.
  intros H. split_and!.
  - by apply addToMap_ascending.
  - apply addToMap_find_same.
  - intros. by apply addToMap_find_other.
Qed.

(** A split of the source [n1 n2 n3 n4] that has the child [n1 n2] gets
    the child [n3 n4]. *)
Lemma addToMap_lookup_witness :
  StdMap.find QStringList_ltb
    (addToMap [(["n1"; "n2"; "n3"; "n4"], [["n1"; "n2"]])]
       ["n1"; "n2"; "n3"; "n4"] ["n3"; "n4"])
    ["n1"; "n2"; "n3"; "n4"]
  = Some [["n1"; "n2"]; ["n3"; "n4"]].
Proof.
  refine (proj1 (proj2 (addToMap_lookup
            [(["n1"; "n2"; "n3"; "n4"], [["n1"; "n2"]])]
            ["n1"; "n2"; "n3"; "n4"] ["n3"; "n4"] _))).
  simpl. split; [constructor|exact I].
Defined.

(** ** The value of a constant port *)

Section ConstValueProofs.
Implicit Types (bits : list string) (p : Port.t).

Lemma isConstBit_cases bit : isConstBit bit = true → bit = "0" ∨ bit = "1".
Proof.
  unfold isConstBit. rewrite orb_true_iff, !bool_decide_eq_true. tauto.
Qed.

Lemma littleEndian_nonneg bits : 0 ≤ littleEndian bits.
Proof. induction bits as [|b bits IH]; simpl; [done|]. case_bool_decide; lia. Qed.

Lemma littleEndian_bound bits : littleEndian bits < 2 ^ Z.of_nat (length bits).
Proof.
  induction bits as [|b bits IH]; simpl length; [simpl; lia|].
  rewrite Nat2Z.inj_succ, Z.pow_succ_r by lia. simpl. case_bool_decide; lia.
Qed.

Lemma lor_shift_bit x c :
  0 ≤ c ≤ 1 → Z.lor (wrap64 (Z.shiftl x 1)) c = wrap64 (Z.shiftl x 1) + c.
Proof.
  intros Hc. unfold wrap64. rewrite Z.shiftl_mul_pow2 by lia.
  assert (∃ y, (x * 2 ^ 1) mod 2 ^ 64 = 2 * y) as [y ->].
  { exists ((x * 2 ^ 1) mod 2 ^ 64 / 2). apply Z.div_exact; [lia|].
    change (2 ^ 64) with (2 * 2 ^ 63).
    rewrite Z.rem_mul_r by lia.
    replace (x * 2 ^ 1) with (x * 2) by lia.
    rewrite Z.mod_mul by lia. rewrite Z.add_0_l, Z.mul_comm, Z.mod_mul; lia. }
  assert (c = 0 ∨ c = 1) as [-> | ->] by lia.
  - by rewrite Z.lor_0_r, Z.add_0_r.
  - pose proof (Z.add_lor_land (2 * y) 1) as H.
    assert (Z.land (2 * y) 1 = 0) as Hl.
    { change 1 with (Z.ones 1). rewrite Z.land_ones by lia.
      rewrite Z.mul_comm. apply Z.mod_mul. lia. }
    rewrite Hl in H. lia.
Qed.

Lemma constValue_littleEndian bits p :
  Forall (λ b, isConstBit b = true) bits →
  Port.constValue (Port.setConstPortValue bits p) = littleEndian bits mod 2 ^ 64.
Proof.
  unfold Port.setConstPortValue. simpl. induction 1 as [|b bits Hb _ IH]; [done|].
  rewrite reverse_cons, foldl_app. simpl. rewrite IH.
  assert (toUInt b = (if bool_decide (b = "1") then 1 else 0)) as ->.
  { destruct (isConstBit_cases b Hb) as [-> | ->]; by vm_compute. }
  rewrite lor_shift_bit by (case_bool_decide; lia).
  unfold wrap64. rewrite Z.shiftl_mul_pow2 by lia.
  replace (littleEndian bits mod 2 ^ 64 * 2 ^ 1)
    with (2 * (littleEndian bits mod 2 ^ 64)) by lia.
  rewrite Z.mul_mod_idemp_r by lia.
  pose proof (littleEndian_nonneg bits).
  set (c := if bool_decide (b = "1") then 1 else 0).
  rewrite (Z.add_comm _ c).
  rewrite <- (Z.add_mod_idemp_r c (2 * littleEndian bits)) by lia.
  assert (0 ≤ c ≤ 1) by (unfold c; case_bool_decide; lia).
  pose proof (Z.mod_pos_bound (2 * littleEndian bits) (2 ^ 64)).
  destruct (decide (c = 1)) as [Hc1|Hc0].
  - (* the sum of an even residue and one stays below the modulus *)
    assert (∃ y, (2 * littleEndian bits) mod 2 ^ 64 = 2 * y) as [y Hy].
    { exists ((2 * littleEndian bits) mod 2 ^ 64 / 2). apply Z.div_exact; [lia|].
      change (2 ^ 64) with (2 * 2 ^ 63). rewrite Z.rem_mul_r by lia.
      rewrite (Z.mul_comm 2 (littleEndian bits)), Z.mod_mul by lia.
      rewrite Z.add_0_l, Z.mul_comm, Z.mod_mul; lia. }
    symmetry. apply Z.mod_small. lia.
  - assert (c = 0) as -> by lia. rewrite !Z.add_0_l.
    by rewrite Z.mod_mod by lia.
Qed.
End ConstValueProofs.

(** X4: [Port::setConstPortValue] on a run of constant literals stores the
    number that the literals spell with the first bit lowest, modulo 2^64,
    so the number itself for at most 64 literals, and changes no other
    field; [Port::getConstPortValue] gives this number for a CONST port
    and 0 for any other. *)
Theorem setConstPortValue_littleEndian (bits : list string) (p : Port.t) :
  Forall (λ b, isConstBit b = true) bits →
  let p' := Port.setConstPortValue bits p in
  Port.constValue p' = littleEndian bits mod 2 ^ 64
  ∧ ((length bits ≤ 64)%nat → Port.constValue p' = littleEndian bits)
  ∧ (Port.name p', Port.direction p', Port.bits p', Port.path p',
     Port.parentNode p', Port.symbolNameAlias p')
    = (Port.name p, Port.direction p, Port.bits p, Port.path p,
       Port.parentNode p, Port.symbolNameAlias p)
  ∧ getConstPortValue p'
    = (if decide (Port.direction p = CONST) then littleEndian bits mod 2 ^ 64 else 0).
Proof.
  intros Hb p'. pose proof (constValue_littleEndian bits p Hb) as Hv.
  fold p' in Hv. split_and!; [done| |done|].
  - intros Hlen. rewrite Hv. apply Z.mod_small.
    pose proof (littleEndian_nonneg bits). pose proof (littleEndian_bound bits).
    assert (2 ^ Z.of_nat (length bits) ≤ 2 ^ 64)
      by (apply Z.pow_le_mono_r; lia).
    lia.
  - unfold getConstPortValue. change (Port.direction p') with (Port.direction p).
    repeat case_decide; done.
Qed.

(** The run [0 1 1] spells 6. *)
Lemma setConstPortValue_littleEndian_witness :
  Port.constValue (Port.setConstPortValue ["0"; "1"; "1"] (Port.new "o_const" CONST ["5"; "6"; "7"]))
  = 6.
Proof.
  refine (proj1 (proj2 (setConstPortValue_littleEndian ["0"; "1"; "1"]
            (Port.new "o_const" CONST ["5"; "6"; "7"]) _)) _).
  - by repeat constructor.
  - simpl. lia.
Defined.

(** ** The highest net number *)

Section MaxBitProofs.
Implicit Types (h : Store) (m : YModule.t).

Lemma toIntegral_range lo hi s : lo ≤ 0 ≤ hi → lo ≤ toIntegral lo hi s ≤ hi.
Proof.
  intros H. unfold toIntegral. destruct (signedValue s) as [v|]; [|lia].
  destruct (andb _ _) eqn:Hc; [|lia]. apply andb_true_iff in Hc. lia.
Qed.

Lemma foldl_max_spec {A} (g : A → Z) (l : list A) (a0 : Z) :
  let r := foldl (λ a x, Z.max a (g x)) a0 l in
  a0 ≤ r ∧ (∀ x, x ∈ l → g x ≤ r) ∧ (r = a0 ∨ ∃ x, x ∈ l ∧ r = g x).
Proof.
  revert a0. induction l as [|y l IH]; intros a0; simpl.
  - split_and!; [lia| |by left]. by intros x ?%elem_of_nil.
  - destruct (IH (Z.max a0 (g y))) as (Hge & Hall & Hatt). split_and!.
    + lia.
    + intros x [->|Hx]%elem_of_cons; [lia|by apply Hall].
    + destruct Hatt as [Hr | (x & Hx & Hr)].
      * destruct (Z.max_spec a0 (g y)) as [[_ Hm]|[_ Hm]].
        -- right. exists y. split; [by left|lia].
        -- left. lia.
      * right. exists x. split; [by right|done].
Qed.

Lemma port_max_filter (p : Port.t) :
  Port.getMaxBitNumber p
  = foldl (λ a bit, Z.max a (toULong bit)) 0 (List.filter numbered (Port.bits p)).
Proof.
  unfold Port.getMaxBitNumber. generalize 0.
  induction (Port.bits p) as [|b bits IH]; intros a; simpl; [done|].
  fold (numbered b). destruct (numbered b); simpl; apply IH.
Qed.

Lemma module_max_concat h m :
  YModule.getMaxBitNumber h m
  = foldl (λ a d, Z.max a (Port.getMaxBitNumber (port h d))) 0
      (YModule.ports m ++ CreateSignalConnections.nodePorts h m).
Proof.
  unfold YModule.getMaxBitNumber, CreateSignalConnections.nodePorts.
  rewrite foldl_app. generalize (foldl (λ acc p, Z.max acc (Port.getMaxBitNumber (port h p))) 0 (YModule.ports m)).
  induction (YModule.nodes m) as [|n ns IH]; intros a; simpl; [done|].
  rewrite foldl_app. apply IH.
Qed.
End MaxBitProofs.

(** X5: [Module::getMaxBitNumber] is a 64-bit number that bounds the number
    of every net-naming bit of every boundary port and of every port of a
    node of the module, and it is 0 or the number of one of these bits. *)
Theorem getMaxBitNumber_bound (h : Store) (m : YModule.t) :
  let ports := YModule.ports m ++ CreateSignalConnections.nodePorts h m in
  let top := YModule.getMaxBitNumber h m in
  0 ≤ top < 2 ^ 64
  ∧ (∀ d bit, d ∈ ports → bit ∈ Port.bits (port h d) → numbered bit = true →
              toULong bit ≤ top)
  ∧ (top = 0 ∨ ∃ d bit, d ∈ ports ∧ bit ∈ Port.bits (port h d)
                         ∧ numbered bit = true ∧ top = toULong bit).
Proof.
  intros ports top.
  assert (∀ p : Port.t,
            0 ≤ Port.getMaxBitNumber p
            ∧ (∀ bit, bit ∈ Port.bits p → numbered bit = true →
                      toULong bit ≤ Port.getMaxBitNumber p)
            ∧ (Port.getMaxBitNumber p = 0
               ∨ ∃ bit, bit ∈ Port.bits p ∧ numbered bit = true
                        ∧ Port.getMaxBitNumber p = toULong bit)) as Hport.
  { intros p. rewrite port_max_filter.
    destruct (foldl_max_spec toULong (List.filter numbered (Port.bits p)) 0)
      as (Hge & Hall & Hatt).
    split_and!; [done| |].
    - intros bit Hin Hn. apply Hall. apply list_elem_of_In, filter_In.
      split; [by apply list_elem_of_In|done].
    - destruct Hatt as [?|(bit & [Hin Hn]%list_elem_of_In%filter_In & ?)]; [by left|].
      right. exists bit. split_and!; [by apply list_elem_of_In|done|done]. }
  unfold top. rewrite module_max_concat. fold ports.
  destruct (foldl_max_spec (λ d, Port.getMaxBitNumber (port h d)) ports 0)
    as (Hge & Hall & Hatt).
  assert (∀ bit, 0 ≤ toULong bit < 2 ^ 64) as Hrange.
  { intros bit. pose proof (toIntegral_range 0 (2 ^ 64 - 1) bit). unfold toULong. lia. }
  split_and!.
  - done.
  - destruct Hatt as [-> | (d & _ & ->)]; [lia|].
    destruct (Hport (port h d)) as (_ & _ & [-> | (bit & _ & _ & ->)]); [lia|].
    apply Hrange.
  - intros d bit Hd Hbit Hn. etrans; [by apply (Hport (port h d))|by apply Hall].
  - destruct Hatt as [?|(d & Hd & Hr)]; [by left|].
    destruct (Hport (port h d)) as (_ & _ & [H0 | (bit & ? & ? & Hb)]).
    + left. by rewrite Hr, H0.
    + right. exists d, bit. split_and!; [done..|]. by rewrite Hr.
Qed.

(** The net 5 of an output port whose highest net is 7. *)
Lemma getMaxBitNumber_bound_witness :
  toULong "5"
  ≤ YModule.getMaxBitNumber
      (store (afterPorts "m" [Port.new "o" OUTPUT ["5"; "0"; "7"]]))
      (currentModule (afterPorts "m" [Port.new "o" OUTPUT ["5"; "0"; "7"]])).
Proof.
  apply (proj1 (proj2 (getMaxBitNumber_bound
                         (store (afterPorts "m" [Port.new "o" OUTPUT ["5"; "0"; "7"]]))
                         (currentModule
                            (afterPorts "m" [Port.new "o" OUTPUT ["5"; "0"; "7"]]))))
           0%nat "5").
  - by left.
  - by left.
  - reflexivity.
Defined.

(** ** The validation of a module *)

(** X6: after [Parser::removeUnconnectedPaths] the check
    [Module::hasModuleInvalidPaths] of [Parser::parse] fires exactly when
    no path is left; whenever it passes, [Module::isEmpty] is false, so the
    error [Module has no components] of [parse] cannot occur. *)
Theorem pruned_module_validation (p : Parser) :
  let q := removeUnconnectedPaths p in
  YModule.hasModuleInvalidPaths (store q) (currentModule q)
  = bool_decide (YModule.paths (currentModule q) = [])
  ∧ (YModule.hasModuleInvalidPaths (store q) (currentModule q) = false →
     YModule.isEmpty (currentModule q) = false).
Proof.
  intros q. unfold q. rewrite removeUnconnectedPaths_filter.
  unfold YModule.hasModuleInvalidPaths, YModule.isEmpty. simpl.
  assert (forallb (λ pa, Path.hasConnection (path (store p) pa))
            (List.filter (λ pa, Path.hasConnection (path (store p) pa))
               (YModule.paths (currentModule p))) = true) as ->.
  { apply forallb_forall. by intros pa [_ ?]%filter_In. }
  split; [done|]. simpl. by intros ->.
Qed.

(** Scenario B passes the check with its three paths. *)
Lemma pruned_module_validation_witness :
  YModule.isEmpty
    (currentModule
       (removeUnconnectedPaths
          (connectDiagramConnections
             (afterPorts "m" [Port.new "a" INPUT ["n1"; "n2"; "n3"; "n4"];
                              Port.new "b" OUTPUT ["n1"; "n2"];
                              Port.new "c" OUTPUT ["n3"; "n4"]]))))
  = false.
Proof.
  apply (proj2 (pruned_module_validation
                  (connectDiagramConnections
                     (afterPorts "m" [Port.new "a" INPUT ["n1"; "n2"; "n3"; "n4"];
                                      Port.new "b" OUTPUT ["n1"; "n2"];
                                      Port.new "c" OUTPUT ["n3"; "n4"]])))).
  by vm_compute.
Defined.

(** ** The modules of an accepted document *)

Section TypeProofs.
Implicit Types (p : Parser).

Lemma moduleType_onModule f p :
  (∀ m, YModule.type (f m) = YModule.type m) →
  moduleType (onModule f p) = moduleType p.
Proof. intros Hf. unfold moduleType, onModule. simpl. apply Hf. Qed.

Lemma replaceConstBits_type p : moduleType (replaceConstBits p) = moduleType p.
Proof.
  unfold replaceConstBits.
  apply (foldl_invariant (λ st, moduleType st.1 = moduleType p)); [done|].
  intros [q n] s Hq. unfold ReplaceConstBits.body. simpl in *.
  assert (moduleType (foldl (ReplaceConstBits.run s) (q, n)
                     (splitBits (Port.bits (port (store q) s)))).1 = moduleType p) as H.
  { apply (foldl_invariant (λ st, moduleType st.1 = moduleType p)); [done|].
    intros [q' n'] [pos bitValue] Hq'. unfold ReplaceConstBits.run. simpl in *.
    destruct (negb _); [done|].
    destruct (ReplaceConstBits.freshBits n' bitValue) as [bits n''].
    unfold createConstantPort, newPort. simpl. done. }
  by destruct (foldl _ _ _).
Qed.

Lemma addSyntheticNode_type name type ports p :
  moduleType (addSyntheticNode name type ports p) = moduleType p.
Proof.
  unfold addSyntheticNode. destruct (makePorts _ _) as [ptrs h].
  unfold newNode. simpl. done.
Qed.

Lemma createSplitNodes_type info p : moduleType (createSplitNodes info p) = moduleType p.
Proof.
  unfold createSplitNodes.
  apply (foldl_invariant (λ st, moduleType st.1 = moduleType p)); [done|].
  intros [q n] [srcBits destBits] Hq. simpl in *.
  by rewrite addSyntheticNode_type.
Qed.

Lemma createJoinNodes_type info p : moduleType (createJoinNodes info p) = moduleType p.
Proof.
  unfold createJoinNodes.
  apply (foldl_invariant (λ st, moduleType st.1 = moduleType p)); [done|].
  intros [q n] [srcBits destBits] Hq. simpl in *.
  by rewrite addSyntheticNode_type.
Qed.

Lemma createSignalConnections_type p :
  moduleType (createSignalConnections p) = moduleType p.
Proof.
  unfold createSignalConnections, connectSignalDestConnections,
    connectSignalSrcConnections.
  apply (foldl_invariant (λ q, moduleType q = moduleType p)).
  - apply (foldl_invariant (λ q, moduleType q = moduleType p)); [done|].
    intros q s Hq. unfold ConnectSignalSrc.body.
    destruct (ConnectSignalSrc.naming q s). unfold newPath. simpl. done.
  - intros q d Hq. unfold ConnectSignalDest.body. by case_match.
Qed.

Lemma connectDiagramConnections_type p :
  moduleType (connectDiagramConnections p) = moduleType p.
Proof.
  unfold connectDiagramConnections.
  by rewrite createSignalConnections_type, createSplitNodes_type,
    createJoinNodes_type.
Qed.

Lemma removeUnconnectedPaths_type p :
  moduleType (removeUnconnectedPaths p) = moduleType p.
Proof. by rewrite removeUnconnectedPaths_filter. Qed.

Lemma keepsType_ret {A} (a : A) : keepsType (ret a).
Proof. done. Qed.
Lemma keepsType_throw {A} what : keepsType (throw (A := A) what).
Proof. done. Qed.
Lemma keepsType_modify f :
  (∀ p, moduleType (f p) = moduleType p) → keepsType (modify f).
Proof. intros Hf p. apply Hf. Qed.

Lemma keepsType_bind {A B} (m : M A) (k : A → M B) :
  keepsType m → (∀ a, keepsType (k a)) → keepsType (bind m k).
Proof.
  intros Hm Hk p. unfold bind. specialize (Hm p).
  destruct (m p) as [p' [a|what]]; simpl in *; [|done].
  by rewrite Hk.
Qed.

Lemma keepsType_forEach {A} (l : list A) body :
  (∀ x, keepsType (body x)) → keepsType (forEach l body).
Proof.
  intros Hb. induction l as [|x l IH]; simpl; [apply keepsType_ret|].
  apply keepsType_bind; [apply Hb | done].
Qed.

Lemma keepsType_makePort o : keepsType (makePort o).
Proof. intros p. unfold makePort, newPort. simpl. done. Qed.

Lemma keepsType_createPort name bitData directionData :
  keepsType (createPort name bitData directionData).
Proof.
  unfold createPort. apply keepsType_bind.
  - repeat case_decide; apply keepsType_ret || apply keepsType_throw.
  - intros dir. case_bool_decide; [apply keepsType_throw | apply keepsType_makePort].
Qed.

Lemma keepsType_parsePorts ports : keepsType (parsePorts ports).
Proof.
  apply keepsType_forEach. intros [name value]. cbv beta iota zeta.
  apply keepsType_bind; [apply keepsType_createPort|]. intros a.
  by apply keepsType_modify.
Qed.

Lemma keepsType_createPorts names cellType dirs conns s :
  keepsType (ParseCells.createPorts names cellType dirs conns s).
Proof.
  revert s. induction names as [|n names IH]; intros s; simpl; [apply keepsType_ret|].
  apply keepsType_bind; [apply keepsType_createPort|]. intros a.
  repeat case_match;
    (apply keepsType_bind; [by apply keepsType_modify | intros _; apply IH]).
Qed.

Lemma keepsType_parseCells cells : keepsType (parseCells cells).
Proof.
  apply keepsType_forEach. intros [name value]. cbv beta iota zeta.
  repeat (case_match; try apply keepsType_throw).
  apply keepsType_bind; [apply keepsType_createPorts|]. intros s.
  case_match; [apply keepsType_throw|]. apply keepsType_modify. intros p.
  unfold newNode. simpl.
  by apply (foldl_invariant (λ q, moduleType q = moduleType p)).
Qed.

Lemma keepsType_parseNetnames paths : keepsType (parseNetnames paths).
Proof.
  apply keepsType_forEach. intros [name value]. cbv beta iota zeta.
  repeat (case_match; try apply keepsType_throw; try apply keepsType_ret);
    apply keepsType_modify; intros p; apply moduleType_onModule; intros m;
    by case_match.
Qed.

(** What the loop body of [parse] does when it returns. *)
Lemma body_return name module p q :
  Parse.body name module p = (q, Return tt) →
  if isBlackbox module then q = p
  else ∃ m, YModule.type m = name
            ∧ YModule.paths m ≠ []
            ∧ Diagram.modules (diagram q) = Diagram.modules (diagram p) ++ [m]
            ∧ Diagram.topModule (diagram q)
              = (if isTop module then Some m else Diagram.topModule (diagram p)).
Proof.
  unfold Parse.body, isBlackbox, isTop. cbv beta iota zeta.
  case_match; [by intros [= ->]|].
  unfold bind at 1. unfold modify at 1.
  set (p0 := setCurrentModule (YModule.new name) p).
  pose proof (keeps_parseNetnames
    (Json.toObject (Json.jat (Json.toObject module) YosysJson.netnames)) p0) as Hd1.
  pose proof (keepsType_parseNetnames
    (Json.toObject (Json.jat (Json.toObject module) YosysJson.netnames)) p0) as Ht1.
  unfold bind at 1. destruct (parseNetnames _ p0) as [p1 [[]|?]]; [|done].
  pose proof (keeps_parsePorts
    (Json.toObject (Json.jat (Json.toObject module) YosysJson.ports)) p1) as Hd2.
  pose proof (keepsType_parsePorts
    (Json.toObject (Json.jat (Json.toObject module) YosysJson.ports)) p1) as Ht2.
  unfold bind at 1. destruct (parsePorts _ p1) as [p2 [[]|?]]; [|done].
  pose proof (keeps_parseCells
    (Json.toObject (Json.jat (Json.toObject module) YosysJson.cells)) p2) as Hd3.
  pose proof (keepsType_parseCells
    (Json.toObject (Json.jat (Json.toObject module) YosysJson.cells)) p2) as Ht3.
  unfold bind at 1. destruct (parseCells _ p2) as [p3 [[]|?]]; [|done].
  simpl in Hd1, Hd2, Hd3, Ht1, Ht2, Ht3.
  unfold bind at 1. unfold get at 1. case_match; [done|].
  unfold bind, modify, get.
  set (p4 := removeUnconnectedPaths (connectDiagramConnections (replaceConstBits p3))).
  assert (diagram p4 = diagram p) as Hd4.
  { unfold p4. rewrite removeUnconnectedPaths_diagram,
      connectDiagramConnections_diagram, replaceConstBits_diagram.
    by rewrite Hd3, Hd2, Hd1. }
  assert (moduleType p4 = name) as Ht4.
  { unfold p4. rewrite removeUnconnectedPaths_type,
      connectDiagramConnections_type, replaceConstBits_type.
    by rewrite Ht3, Ht2, Ht1. }
  clearbody p4.
  destruct (YModule.hasModuleInvalidPaths (store p4) (currentModule p4)) eqn:Hinv;
    [done|].
  case_match; [done|].
  apply orb_false_iff in Hinv as [_ Hne%bool_decide_eq_false].
  intros Hq. exists (currentModule p4).
  case_match; unfold ret in Hq; injection Hq as <-; simpl; rewrite Hd4;
    by split_and!.
Qed.

Lemma forEach_return modules p q :
  forEach modules (λ '(name, module), Parse.body name module) p = (q, Return tt) →
  ∃ added,
    Diagram.modules (diagram q) = Diagram.modules (diagram p) ++ added
    ∧ YModule.type <$> added = (parsedModules modules).*1
    ∧ Forall (λ m, YModule.paths m ≠ []) added
    ∧ match last (topModules modules) with
      | Some top => ∃ m, Diagram.topModule (diagram q) = Some m
                         ∧ m ∈ added ∧ YModule.type m = top.1
      | None => Diagram.topModule (diagram q) = Diagram.topModule (diagram p)
      end.
Proof.
  revert p. induction modules as [|[name module] modules IH]; intros p; simpl.
  - intros [= <-]. exists []. by rewrite app_nil_r.
  - unfold bind at 1. destruct (Parse.body name module p) as [p1 [[]|?]] eqn:Hb; [|done].
    intros (added & Hmods & Htypes & Hpaths & Htop)%IH.
    apply body_return in Hb. unfold topModules, parsedModules in *. simpl.
    destruct (isBlackbox module); simpl.
    + subst p1. by exists added.
    + destruct Hb as (m & Hm & Hpm & Hdm & Htm). exists (m :: added).
      split_and!.
      * by rewrite Hmods, Hdm, <- app_assoc.
      * csimpl. by rewrite Hm, Htypes.
      * by constructor.
      * destruct (isTop module); simpl.
        -- rewrite last_cons.
           destruct (last _) as [top|].
           ++ destruct Htop as (m' & ? & ? & ?). exists m'.
              split_and!; [done|by right|done].
           ++ exists m. split_and!; [by rewrite Htop|by left|done].
        -- destruct (last _) as [top|].
           ++ destruct Htop as (m' & ? & ? & ?). exists m'.
              split_and!; [done|by right|done].
           ++ by rewrite Htop.
Qed.
End TypeProofs.

(** X7: when [Parser::parse] returns, the diagram has gained one module
    for every module of the document without the [blackbox] attribute, in
    the order of the document and under its name; each of them has at least
    one path; the top module is the last one read that has the [top]
    attribute, and the one from before if none has. *)
Theorem parse_return (yosysJsonObject : QJsonObject) (p q : Parser) :
  parse yosysJsonObject p = (q, Return tt) →
  let yosysModules := Json.toObject (Json.jat yosysJsonObject YosysJson.modules) in
  yosysModules ≠ []
  ∧ ∃ added,
      Diagram.modules (diagram q) = Diagram.modules (diagram p) ++ added
      ∧ YModule.type <$> added = (parsedModules yosysModules).*1
      ∧ Forall (λ m, YModule.paths m ≠ []) added
      ∧ match last (topModules yosysModules) with
        | Some top => ∃ m, Diagram.topModule (diagram q) = Some m
                           ∧ m ∈ added ∧ YModule.type m = top.1
        | None => Diagram.topModule (diagram q) = Diagram.topModule (diagram p)
        end.
Proof.
  unfold parse. cbv zeta. case_bool_decide as Hne; [done|].
  intros Hq. split; [done|]. by apply forEach_return.
Qed.

(** The document of scenario B. *)
Lemma parse_return_witness :
  YModule.type <$>
    Diagram.modules
      (diagram (parse (Examples.document [("good", Examples.splitModule)]) newParser).1)
  = ["good"].
Proof.
  destruct (parse_return (Examples.document [("good", Examples.splitModule)])
              newParser
              (parse (Examples.document [("good", Examples.splitModule)]) newParser).1)
    as (_ & added & Hmods & Htypes & _).
  - by vm_compute.
  - rewrite Hmods. exact Htypes.
Defined.

(** ** The paths after stitching *)

Section StitchProofs.
Implicit Types (p : Parser) (s d : PortPtr) (pa : PathPtr).

Lemma find_seq {A} (P : A → Prop) `{∀ x, Decision (P x)}
    (f : nat → bool) (l : list A) (base : nat) :
  (∀ i x, l !! i = Some x → f (base + i)%nat = bool_decide (P x)) →
  List.find f (seq base (length l)) = (λ r, (base + r.1)%nat) <$> list_find P l.
Proof.
  revert base. induction l as [|a l IH]; intros base Hf; [done|].
  simpl. rewrite <- (Nat.add_0_r base) at 1. rewrite (Hf 0%nat a eq_refl).
  case_bool_decide as Ha; case_decide; try done.
  - simpl. by rewrite Nat.add_0_r.
  - rewrite (IH (S base)).
    + destruct (list_find P l) as [[j y]|]; simpl; [|done]. f_equal. lia.
    + intros i x Hi. rewrite <- (Hf (S i) x Hi). f_equal. lia.
Qed.

Lemma dest_body_exact p d :
  let p' := ConnectSignalDest.body p d in
  let found := YModule.getPathByBits (store p) (Port.bits (port (store p) d))
                 (currentModule p) in
  length (pathObj (store p')) = length (pathObj (store p))
  ∧ (∀ x, Path.sigSource (path (store p') x) = Path.sigSource (path (store p) x))
  ∧ (∀ x, (x < length (pathObj (store p)))%nat →
          Path.sigDestinations (path (store p') x)
          = Path.sigDestinations (path (store p) x)
            ++ (if decide (found = Some x) then [d] else [])).
Proof.
  unfold ConnectSignalDest.body. simpl.
  destruct (YModule.getPathByBits _ _ _) as [pa|] eqn:Hf.
  - destruct p as [dg m c [po pt no]]. unfold port, path in *. simpl in *.
    split_and!.
    + by rewrite length_alter.
    + intros x. by apply (lookup_total_alter_proj _ (Path.addSigDestination _)).
    + intros x Hx. case_decide as Hpa.
      * injection Hpa as ->. by rewrite lookup_total_alter.
      * rewrite lookup_total_alter_ne by (by intros ->). by rewrite app_nil_r.
  - split_and!; [done..|]. intros x _. by rewrite app_nil_r.
Qed.

(** The path of the first driver with the bits of a consumer. *)
Lemma getPathByBits_after_src srcPorts p bits :
  YModule.paths (currentModule p) = [] →
  let p1 := connectSignalSrcConnections srcPorts p in
  YModule.getPathByBits (store p1) bits (currentModule p1)
  = (λ r, (length (pathObj (store p)) + r.1)%nat)
      <$> list_find (λ s, Port.bits (port (store p) s) = bits) srcPorts.
Proof.
  intros Hempty p1. destruct (src_loop srcPorts p) as (_ & Hobj & Hpaths).
  fold p1 in Hobj, Hpaths. unfold YModule.getPathByBits.
  rewrite Hpaths, Hempty. simpl. apply find_seq.
  intros i s Hi. unfold path. rewrite Hobj.
  assert ((pathObj (store p) ++ (driverPath p <$> srcPorts))
            !! (length (pathObj (store p)) + i)%nat = Some (driverPath p s)) as Hl.
  { by rewrite lookup_app_add, list_lookup_fmap, Hi. }
  by rewrite (list_lookup_total_correct _ _ _ Hl).
Qed.

Lemma stitched_body srcPorts p q seen d :
  YModule.paths (currentModule p) = [] →
  stitchedUpTo p (connectSignalSrcConnections srcPorts p) q srcPorts seen →
  stitchedUpTo p (connectSignalSrcConnections srcPorts p)
    (ConnectSignalDest.body q d) srcPorts (seen ++ [d]).
Proof.
  intros Hempty (Hm & Hlen & Hport & Hbits & Hsrc & Hdest).
  destruct (src_loop srcPorts p) as (_ & Hobj & _).
  destruct (dest_body q d) as (Hm' & Hport' & Hbits' & _).
  destruct (dest_body_exact q d) as (Hlen' & Hsrc' & Hdest').
  assert (YModule.getPathByBits (store q) (Port.bits (port (store q) d))
            (currentModule q)
          = (λ r, (length (pathObj (store p)) + r.1)%nat)
              <$> list_find (λ s, Port.bits (port (store p) s)
                                  = Port.bits (port (store p) d)) srcPorts) as Hfound.
  { rewrite Hport, <- (getPathByBits_after_src srcPorts p _ Hempty).
    by apply getPathByBits_same. }
  split_and!.
  - by rewrite Hm'.
  - by rewrite Hlen'.
  - intros x. by rewrite Hport'.
  - intros x. by rewrite Hbits'.
  - intros x. by rewrite Hsrc'.
  - intros i Hi. rewrite Hdest', Hdest, List.filter_app by
      (rewrite ?Hlen, ?Hobj, ?length_app, ?length_fmap; lia || done).
    f_equal. simpl. rewrite Hfound. unfold attached.
    destruct (list_find _ srcPorts) as [[j y]|]; simpl.
    + case_decide as Hj; case_bool_decide as Hj'; try done.
      * exfalso. apply Hj'. f_equal. injection Hj. lia.
      * exfalso. apply Hj. by injection Hj' as ->.
    + done.
Qed.

Lemma stitched_loop srcPorts p destPorts q seen :
  YModule.paths (currentModule p) = [] →
  stitchedUpTo p (connectSignalSrcConnections srcPorts p) q srcPorts seen →
  stitchedUpTo p (connectSignalSrcConnections srcPorts p)
    (connectSignalDestConnections destPorts q) srcPorts (seen ++ destPorts).
Proof.
  intros Hempty. unfold connectSignalDestConnections.
  revert q seen. induction destPorts as [|d destPorts IH]; intros q seen Hq; simpl.
  - by rewrite app_nil_r.
  - replace (seen ++ d :: destPorts) with ((seen ++ [d]) ++ destPorts)
      by (by rewrite <- app_assoc).
    apply IH. by apply stitched_body.
Qed.

Lemma stitched_after_src srcPorts p :
  stitchedUpTo p (connectSignalSrcConnections srcPorts p)
    (connectSignalSrcConnections srcPorts p) srcPorts [].
Proof.
  destruct (src_loop srcPorts p) as ((_ & _ & Hport) & Hobj & _).
  split_and!; try done.
  - intros x. apply Hport.
  - intros i Hi. unfold path. rewrite Hobj.
    destruct (lookup_lt_is_Some_2 srcPorts i Hi) as [s Hs].
    assert ((pathObj (store p) ++ (driverPath p <$> srcPorts))
              !! (length (pathObj (store p)) + i)%nat = Some (driverPath p s)) as Hl.
    { by rewrite lookup_app_add, list_lookup_fmap, Hs. }
    by rewrite (list_lookup_total_correct _ _ _ Hl).
Qed.
End StitchProofs.

(** X8: [Parser::createSignalConnections] on a module that had no path
    yet leaves one path per driver, in the order of the drivers; the path
    of a driver has the driver as source and its bits, and its consumers
    are, in their order, exactly the consumer ports whose bits are those
    of this driver and of no driver before it. *)
Theorem createSignalConnections_stitch (p : Parser) :
  YModule.paths (currentModule p) = [] →
  let p' := createSignalConnections p in
  let srcPorts := CreateSignalConnections.srcPorts (store p) (currentModule p) in
  let destPorts := CreateSignalConnections.destPorts (store p) (currentModule p) in
  let base := length (pathObj (store p)) in
  YModule.paths (currentModule p') = seq base (length srcPorts)
  ∧ ∀ i s, srcPorts !! i = Some s →
      Path.sigSource (path (store p') (base + i)%nat) = Some s
      ∧ Path.bits (path (store p') (base + i)%nat) = Port.bits (port (store p) s)
      ∧ Path.sigDestinations (path (store p') (base + i)%nat)
        = List.filter (attached p srcPorts i) destPorts.
Proof.
  intros Hempty p' srcPorts destPorts base.
  pose proof (stitched_loop srcPorts p destPorts _ [] Hempty
                (stitched_after_src srcPorts p))
    as (Hm & _ & _ & Hbits & Hsrc & Hdest).
  destruct (src_loop srcPorts p) as (_ & Hobj & Hpaths).
  unfold p', createSignalConnections. cbv zeta. fold srcPorts destPorts. split.
  - rewrite Hm, Hpaths, Hempty. done.
  - intros i s Hi.
    assert (path (store (connectSignalSrcConnections srcPorts p)) (base + i)%nat
            = driverPath p s) as Hpa.
    { unfold path. rewrite Hobj.
      assert ((pathObj (store p) ++ (driverPath p <$> srcPorts))
                !! (base + i)%nat = Some (driverPath p s)) as Hl.
      { unfold base. by rewrite lookup_app_add, list_lookup_fmap, Hi. }
      by rewrite (list_lookup_total_correct _ _ _ Hl). }
    split_and!.
    + by rewrite Hsrc, Hpa.
    + by rewrite Hbits, Hpa.
    + apply Hdest. by eapply lookup_lt_Some.
Qed.

(** Scenario B after the split node: the path of [a] feeds the port [in]
    of the node. *)
Lemma createSignalConnections_stitch_witness :
  Path.sigDestinations
    (path (store (createSignalConnections
                    (createSplitNodes
                       [(["n1"; "n2"; "n3"; "n4"], [["n1"; "n2"]; ["n3"; "n4"]])]
                       (afterPorts "m" [Port.new "a" INPUT ["n1"; "n2"; "n3"; "n4"];
                                        Port.new "b" OUTPUT ["n1"; "n2"];
                                        Port.new "c" OUTPUT ["n3"; "n4"]]))))
       0%nat)
  = [3%nat].
Proof.
  exact (proj2 (proj2 (proj2
    (createSignalConnections_stitch
       (createSplitNodes
          [(["n1"; "n2"; "n3"; "n4"], [["n1"; "n2"]; ["n3"; "n4"]])]
          (afterPorts "m" [Port.new "a" INPUT ["n1"; "n2"; "n3"; "n4"];
                           Port.new "b" OUTPUT ["n1"; "n2"];
                           Port.new "c" OUTPUT ["n3"; "n4"]]))
       eq_refl)
    0%nat 0%nat eq_refl))).
Defined.

(** ** The net names of a module *)

Section NetnameProofs.
Implicit Types (p q : Parser) (n : Netname.t).

Lemma forEach_invariant {A} (I : Parser → Prop) (l : list A) body p :
  (∀ x q, I q → I (body x q).1) → I p → I (forEach l body p).1.
Proof.
  intros Hb. revert p. induction l as [|x l IH]; intros p Hp; simpl; [done|].
  unfold bind. specialize (Hb x p Hp).
  destruct (body x p) as [q [[]|what]]; simpl in *; [by apply IH|done].
Qed.

Lemma sameNet_refl n : sameNet n n.
Proof. by split_and!. Qed.

Lemma sameNet_trans n1 n2 n3 : sameNet n1 n2 → sameNet n2 n3 → sameNet n1 n3.
Proof.
  intros (? & ? & ? & ?) (? & ? & ? & ?). split_and!; try congruence.
  by etrans.
Qed.

(** One net name of the document, once its bits are known. *)
Lemma netnamesGrow_add p q pathName bitStrings hiddenName :
  netnamesGrow p q →
  netnamesGrow p
    (onModule (λ m,
       let foundAlternative :=
         existsb (λ n, bool_decide (Netname.bits n = bitStrings))
                 (YModule.netnames m) in
       let m := YModule.setNetnames
                  ((λ n, if bool_decide (Netname.bits n = bitStrings)
                         then Netname.addAlternativeName pathName n else n)
                     <$> YModule.netnames m) m in
       if foundAlternative then m
       else YModule.addNetname (Netname.new pathName bitStrings hiddenName) m) q).
Proof.
  intros (Hnd & Hold & Hrest).
  set (f := λ n, if bool_decide (Netname.bits n = bitStrings)
                 then Netname.addAlternativeName pathName n else n).
  assert (∀ n, Netname.bits (f n) = Netname.bits n) as Hf
    by (intros n; unfold f; by case_bool_decide).
  assert (∀ n, sameNet n (f n)) as Hsame.
  { intros n. unfold f. case_bool_decide; [|apply sameNet_refl].
    split_and!; try done. by apply prefix_app_r. }
  assert (Netname.bits <$> (f <$> YModule.netnames (currentModule q))
          = Netname.bits <$> YModule.netnames (currentModule q)) as Hbits.
  { rewrite <- list_fmap_compose. apply list_fmap_ext. intros _ n _. apply Hf. }
  assert (∀ i n, YModule.netnames (currentModule p) !! i = Some n →
            ∃ n', (f <$> YModule.netnames (currentModule q)) !! i = Some n'
                  ∧ sameNet n n') as Hold'.
  { intros i n Hi. destruct (Hold i n Hi) as (n' & Hn' & Hs).
    exists (f n'). rewrite list_lookup_fmap, Hn'. split; [done|].
    by eapply sameNet_trans. }
  destruct q as [dg m c h]. unfold netnamesGrow, onModule in *. simpl in *.
  destruct (existsb _ _) eqn:Hex; simpl.
  - by rewrite Hbits.
  - split_and!; try tauto.
    + rewrite fmap_app, Hbits. simpl. apply NoDup_app. split_and!; [done| |].
      * intros bits Hin ->%list_elem_of_singleton.
        apply list_elem_of_fmap in Hin as (n & Hn & Hin).
        apply not_true_iff_false in Hex. apply Hex, existsb_exists.
        exists n. split; [by apply list_elem_of_In|by apply bool_decide_eq_true].
      * apply NoDup_singleton.
    + intros i n Hi. destruct (Hold' i n Hi) as (n' & Hn' & Hs). exists n'.
      split; [|done]. by apply lookup_app_l_Some.
Qed.

Lemma netnamesGrow_parseNetnames paths p q :
  netnamesGrow p q → netnamesGrow p (parseNetnames paths q).1.
Proof.
  intros Hq. unfold parseNetnames. apply forEach_invariant; [|done].
  clear q Hq. intros [pathName pathData] q Hq. cbv beta iota zeta.
  repeat (case_match; try done); by apply netnamesGrow_add.
Qed.
End NetnameProofs.

(** X9: [Parser::parseNetnames], however it ends, keeps the bit sequences
    of the net names of the module distinct: a name whose bits are already
    there becomes an alternative name.  The net names that were there keep
    their place, name, bits and hidden flag, and nothing but the net names
    changes. *)
Theorem parseNetnames_distinct (paths : QJsonObject) (p : Parser) :
  NoDup (Netname.bits <$> YModule.netnames (currentModule p)) →
  netnamesGrow p (parseNetnames paths p).1.
Proof.
  intros Hnd. apply netnamesGrow_parseNetnames. split_and!; try done.
  intros i n Hi. exists n. split; [done|apply sameNet_refl].
Qed.

(** Two names of one net: the second becomes an alternative of the first. *)
Lemma parseNetnames_distinct_witness :
  YModule.netnames
    (currentModule
       (parseNetnames [("a", Examples.jnetname (Examples.netsOf [2; 3]));
                       ("b", Examples.jnetname (Examples.netsOf [2; 3]))]
          newParser).1)
  = [Netname.mk "a" ["2"; "3"] false ["b"]]
  ∧ netnamesGrow newParser
      (parseNetnames [("a", Examples.jnetname (Examples.netsOf [2; 3]));
                      ("b", Examples.jnetname (Examples.netsOf [2; 3]))]
         newParser).1.
Proof.
  split; [by vm_compute|].
  apply (parseNetnames_distinct
           [("a", Examples.jnetname (Examples.netsOf [2; 3]));
            ("b", Examples.jnetname (Examples.netsOf [2; 3]))] newParser).
  simpl. constructor.
Defined.

(** ** The boundary ports of a module *)

Section PortProofs.
Implicit Types (p q : Parser) (o : Port.t).

Lemma createPort_return name bitData directionData p q a :
  createPort name bitData directionData p = (q, Return a)
  ↔ ∃ o, declaredPort name bitData directionData o
         ∧ a = length (portObj (store p))
         ∧ q = setStore (mkStore (portObj (store p) ++ [o]) (pathObj (store p))
                           (nodeObj (store p))) p.
Proof.
  unfold createPort, declaredPort, YosysJson.input_dir, YosysJson.output_dir.
  cbv zeta. unfold bind, ret, throw, makePort, newPort.
  split.
  - repeat case_decide; try done; case_bool_decide; try done;
      intros [= <- <-]; eexists; split_and!; eauto.
  - intros (o & (Hne & Hdir & ->) & -> & ->).
    destruct Hdir as [Hdir|Hdir]; rewrite Hdir; simpl.
    + by rewrite bool_decide_eq_false_2.
    + by rewrite bool_decide_eq_false_2.
Qed.

Lemma withPorts_nil p : withPorts [] p = p.
Proof.
  unfold withPorts. destruct p as [dg [] c []]. simpl. by rewrite !app_nil_r.
Qed.

Lemma withPorts_cons o added p :
  withPorts added
    (onModule (YModule.addPort (length (portObj (store p))))
       (setStore (mkStore (portObj (store p) ++ [o]) (pathObj (store p))
                    (nodeObj (store p))) p))
  = withPorts (o :: added) p.
Proof.
  unfold withPorts, onModule, setStore. destruct p as [dg [] c []]. simpl.
  rewrite <- !app_assoc, length_app. simpl. by rewrite Nat.add_1_r.
Qed.
End PortProofs.

(** X10: [Parser::parsePorts] returns exactly when every port description
    has bits and the direction [input] or [output]; the module has then
    gained, in the order of the document, one boundary port per description
    with its name, direction and bits, in fresh objects of the store, and
    nothing else has changed. *)
Theorem parsePorts_return (ports : QJsonObject) (p q : Parser) :
  parsePorts ports p = (q, Return tt)
  ↔ ∃ added,
      Forall2 (λ e o, declaredPort e.1 (Json.jat (Json.toObject e.2) YosysJson.bits)
                        (Json.jat (Json.toObject e.2) YosysJson.direction) o)
              ports added
      ∧ q = withPorts added p.
Proof.
  unfold parsePorts. revert p.
  induction ports as [|[name value] ports IH]; intros p; simpl.
  - split.
    + intros [= <-]. exists []. split; [constructor|by rewrite withPorts_nil].
    + intros (added & ->%Forall2_nil_inv_l & ->). by rewrite withPorts_nil.
  - unfold bind at 1. unfold bind at 1. split.
    + destruct (createPort _ _ _ p) as [p1 [a|?]] eqn:Hc; [|done].
      apply createPort_return in Hc as (o & Ho & -> & ->).
      unfold modify at 1. intros (added & Hall & ->)%IH.
      exists (o :: added). split; [by constructor|]. apply withPorts_cons.
    + intros (added & Hall & ->).
      apply Forall2_cons_inv_l in Hall as (o & added' & Ho & Hall & ->).
      simpl in Ho.
      rewrite (proj2 (createPort_return name _ _ p _ (length (portObj (store p))))
                 (ex_intro _ o (conj Ho (conj eq_refl eq_refl)))).
      unfold modify at 1. apply IH. exists added'. split; [done|].
      symmetry. apply withPorts_cons.
Qed.

(** ** What the resolver records *)

Section SliceProofs.
Implicit Types (st : Pools) (D q : list string) (t : Task).

Lemma slice_refl q : slice q q.
Proof. exists [], []. by rewrite app_nil_r. Qed.

Lemma slice_take n D : slice (take n D) D.
Proof. exists [], (drop n D). by rewrite take_drop. Qed.

Lemma slice_drop n D : slice (drop n D) D.
Proof. exists (take n D), []. by rewrite app_nil_r, take_drop. Qed.

Lemma slice_nil D : slice [] D.
Proof. by exists [], D. Qed.

Lemma slice_trans a b c : slice a b → slice b c → slice a c.
Proof.
  intros (l1 & l2 & ->) (m1 & m2 & ->). exists (m1 ++ l1), (l2 ++ m2).
  by rewrite <- !app_assoc.
Qed.

Lemma mid_slice D pos len : slice (QList.mid D pos len) D.
Proof.
  unfold QList.mid. repeat case_match;
    eauto using slice_nil, slice_refl, slice_take, slice_drop, slice_trans.
Qed.

Lemma set_elem_of (m : InfoMap) k v e :
  e ∈ StdMap.set QStringList_ltb m k v → e ∈ m ∨ e = (k, v).
Proof.
  induction m as [|[k' v'] m IH]; simpl.
  - intros ->%list_elem_of_singleton. by right.
  - destruct (QStringList_ltb k k') eqn:H1.
    + intros [->|He]%elem_of_cons; [by right|by left].
    + destruct (QStringList_ltb k' k) eqn:H2.
      * intros [->|He]%elem_of_cons; [left; by left|].
        destruct (IH He) as [?|?]; [left; by right|by right].
      * rewrite (QStringList_ltb_eq k k') by done.
        intros [->|He]%elem_of_cons; [by right|left; by right].
Qed.

Lemma find_Some_elem (m : InfoMap) k v :
  StdMap.find QStringList_ltb m k = Some v → (k, v) ∈ m.
Proof.
  induction m as [|[k' v'] m IH]; simpl; [done|].
  destruct (QStringList_ltb k k') eqn:H1; [done|].
  destruct (QStringList_ltb k' k) eqn:H2.
  - intros ?%IH. by right.
  - intros [= ->]. rewrite (QStringList_ltb_eq k k') by done. by left.
Qed.

Lemma addToMap_elem_of (m : InfoMap) key value k vs :
  (k, vs) ∈ addToMap m key value →
  (k, vs) ∈ m
  ∨ k = key ∧ ∃ old, vs = old ++ [value] ∧ (old = [] ∨ (key, old) ∈ m).
Proof.
  unfold addToMap. destruct (StdMap.find QStringList_ltb m key) as [old|] eqn:Hf.
  - intros [?|[= -> ->]]%set_elem_of; [by left|].
    right. split; [done|]. exists old. split; [done|].
    right. by apply find_Some_elem.
  - intros [?|[= -> ->]]%set_elem_of; [by left|].
    right. split; [done|]. exists []. split; [done|by left].
Qed.

Lemma poolsGrow_refl st : poolsGrow st st.
Proof. by split. Qed.

Lemma poolsGrow_trans st1 st2 st3 :
  poolsGrow st1 st2 → poolsGrow st2 st3 → poolsGrow st1 st3.
Proof. intros [? ?] [? ?]. split; by etrans. Qed.

Lemma claim_grow D st : poolsGrow st (CreateSplitJoin.claim D st).
Proof.
  unfold CreateSplitJoin.claim. case_match; [apply poolsGrow_refl|].
  split; [done|]. simpl. unfold QList.remove.
  generalize (Z.to_nat (QList.indexOf (destPorts st) D)). intros n.
  rewrite <- (take_drop n (destPorts st)) at 3.
  apply sublist_app; [done|].
  rewrite <- (Nat.add_1_r n), <- drop_drop. apply sublist_drop.
Qed.

Lemma claim_slices D st : slicesOnly st → slicesOnly (CreateSplitJoin.claim D st).
Proof. unfold CreateSplitJoin.claim. by case_match. Qed.

Lemma noteJoin_grow D q st : poolsGrow st (CreateSplitJoin.noteJoin D q st).
Proof. unfold CreateSplitJoin.noteJoin. by case_match. Qed.

Lemma noteJoin_slices D q st :
  slice q D → slicesOnly st → slicesOnly (CreateSplitJoin.noteJoin D q st).
Proof.
  intros Hq [Hsplit Hjoin]. unfold CreateSplitJoin.noteJoin.
  case_match; [|done]. split; [done|]. simpl.
  intros key values [Hin|(-> & old & -> & Hold)]%addToMap_elem_of; [by eapply Hjoin|].
  apply Forall_app. split; [|by constructor].
  destruct Hold as [->|Hold]; [constructor|by eapply Hjoin].
Qed.

(** A source joins the pool. *)
Lemma push_slices st q :
  slicesOnly st →
  slicesOnly (mkPools (srcPorts st ++ [q]) (destPorts st) (splitInfo st) (joinInfo st)).
Proof.
  intros [Hsplit Hjoin]. split; [|done]. simpl. intros key values Hin.
  destruct (Hsplit key values Hin) as (? & ? & ?).
  split_and!; [|done..]. apply elem_of_app. by left.
Qed.

Lemma split_slices st q :
  indexOfContains (srcPorts st) q ≠ -1 →
  slicesOnly st →
  slicesOnly
    (mkPools (srcPorts st ++ [q]) (destPorts st)
       (addToMap (splitInfo st)
          (srcPorts st !!! Z.to_nat (indexOfContains (srcPorts st) q)) q)
       (joinInfo st)).
Proof.
  intros Hidx [Hsplit Hjoin].
  destruct (indexOfContains_some _ _ Hidx) as (h & Hh & _ & Hfound & _).
  rewrite (list_lookup_total_correct _ _ _ Hh).
  apply searchFound_infix in Hfound as [Hne Hslice].
  split; [|done]. simpl.
  intros key values [Hin|(-> & old & -> & Hold)]%addToMap_elem_of.
  - destruct (Hsplit key values Hin) as (? & ? & ?).
    split_and!; [|done..]. apply elem_of_app. by left.
  - split_and!.
    + apply elem_of_app. left. by eapply list_elem_of_lookup_2.
    + done.
    + apply Forall_app. split; [|by constructor].
      destruct Hold as [->|Hold]; [constructor|].
      by destruct (Hsplit _ _ Hold) as (_ & _ & ?).
Qed.

Section Turns.
Variable nested : Pools → list string → option Pools.
Hypothesis nested_ok :
  ∀ st q st', slicesOnly st → nested st q = Some st' →
              slicesOnly st' ∧ poolsGrow st st'.

Lemma turn_slices D st t tasks st' tasks' :
  taskOk D t → slicesOnly st →
  CreateSplitJoin.turn nested D st t tasks = Some (st', tasks') →
  slicesOnly st' ∧ poolsGrow st st'.
Proof.
  intros [_ Hq] Hst. unfold CreateSplitJoin.turn. cbv zeta.
  pose proof (claim_slices D st Hst) as Hc.
  pose proof (claim_grow D st) as Hg.
  assert (slice (querryBits t) D) as Hslice by (rewrite Hq; apply mid_slice).
  set (st1 := CreateSplitJoin.claim D st) in *.
  pose proof (noteJoin_slices D (querryBits t) st1 Hslice Hc) as Hn.
  pose proof (noteJoin_grow D (querryBits t) st1) as Hng.
  assert (srcPorts (CreateSplitJoin.noteJoin D (querryBits t) st1) = srcPorts st1)
    as Hsrc by (unfold CreateSplitJoin.noteJoin; by case_match).
  set (st2 := CreateSplitJoin.noteJoin D (querryBits t) st1) in *.
  destruct (orb _ _); [by intros [= <- <-]|].
  destruct (QList.contains _ _).
  { intros [= <- <-]. split; [done|]. by eapply poolsGrow_trans. }
  destruct (negb (indexOfContains (srcPorts st1) (querryBits t) =? -1)) eqn:Hidx.
  { intros [= <- <-]. apply negb_true_iff, Z.eqb_neq in Hidx. split.
    - rewrite <- Hsrc in Hidx |- *. by apply split_slices.
    - eapply poolsGrow_trans; [exact Hg|].
      eapply poolsGrow_trans; [exact Hng|].
      split; [by apply prefix_app_r|done]. }
  destruct (negb (indexOfContains (destPorts st1) (querryBits t) =? -1)).
  { destruct (nested st2 (querryBits t)) as [st3|] eqn:Hnest; [|done].
    destruct (nested_ok _ _ _ Hn Hnest) as [Hs3 Hg3].
    intros [= <- <-]. split; [by apply push_slices|].
    eapply poolsGrow_trans; [exact Hg|].
    eapply poolsGrow_trans; [exact Hng|].
    eapply poolsGrow_trans; [exact Hg3|].
    split; [by apply prefix_app_r|done]. }
  by intros [= <- <-].
Qed.

Lemma loop_slices D fuel st tasks st' :
  Forall (taskOk D) tasks → slicesOnly st →
  CreateSplitJoin.loop nested D fuel st tasks = Some st' →
  slicesOnly st' ∧ poolsGrow st st'.
Proof.
  revert st tasks. induction fuel as [|fuel IH]; intros st tasks Hok Hst;
    destruct tasks as [|t tasks]; simpl; try done.
  - intros [= <-]. split; [done|apply poolsGrow_refl].
  - intros [= <-]. split; [done|apply poolsGrow_refl].
  - apply Forall_cons in Hok as [Ht Hok].
    destruct (CreateSplitJoin.turn nested D st t tasks) as [[st1 tasks1]|] eqn:Hturn;
      [|done].
    destruct (turn_slices _ _ _ _ _ _ Ht Hst Hturn) as [Hs1 Hg1].
    intros Hloop. destruct (IH st1 tasks1) with (3 := Hloop) as [Hs' Hg'].
    + destruct (turn_progress _ _ _ _ _ _ _ Ht Hturn) as [->|(t' & -> & ? & _)];
        [done|by constructor].
    + done.
    + split; [done|by eapply poolsGrow_trans].
Qed.
End Turns.

Lemma createSplitJoin_slices depth fuel st D startIdx endIdx st' :
  0 ≤ startIdx → slicesOnly st →
  createSplitJoin depth fuel st D startIdx endIdx = Some st' →
  slicesOnly st' ∧ poolsGrow st st'.
Proof.
  revert st D startIdx endIdx st'.
  induction depth as [|depth IH]; intros st D startIdx endIdx st' H0 Hst; [done|].
  simpl. apply loop_slices; [|by repeat constructor|done].
  intros st1 q st1' Hst1.
  destruct (createSplitJoin depth fuel _ q 0 (size q)) as [st2|] eqn:Hcall; [|done].
  intros [= <-]. apply IH in Hcall as [[Hsp Hjn] [Hpre _]]; [|done|done].
  split; [done|]. by split.
Qed.
End SliceProofs.

(** X11: a call of [Parser::createSplitJoin] that starts from maps whose
    entries hold only contiguous parts of their keys, the keys of the split
    map being sources with bits, ends with such maps; it only appends to the
    sources and only takes sinks away. *)
Theorem createSplitJoin_records_slices
    (depth fuel : nat) (st st' : Pools) (toSolve : list string) (startIdx endIdx : Z) :
  0 ≤ startIdx → slicesOnly st →
  createSplitJoin depth fuel st toSolve startIdx endIdx = Some st' →
  slicesOnly st' ∧ poolsGrow st st'.
Proof. apply createSplitJoin_slices. Qed.

(** The sink [n1; n2] against the source [n1; n2; n3; n4]. *)
Lemma createSplitJoin_records_slices_witness :
  slicesOnly (resolve (mkPools [["n1"; "n2"; "n3"; "n4"]] [["n1"; "n2"]] [] [])
                ["n1"; "n2"])
  ∧ poolsGrow (mkPools [["n1"; "n2"; "n3"; "n4"]] [["n1"; "n2"]] [] [])
      (resolve (mkPools [["n1"; "n2"; "n3"; "n4"]] [["n1"; "n2"]] [] [])
         ["n1"; "n2"]).
Proof.
  apply (createSplitJoin_records_slices 2 (resolveFuel 2)
           (mkPools [["n1"; "n2"; "n3"; "n4"]] [["n1"; "n2"]] [] []) _
           ["n1"; "n2"] 0 2).
  - lia.
  - split; simpl; by intros key values ?%elem_of_nil.
  - by vm_compute.
Defined.

(** ** The synthetic nodes *)

Section NodeProofs.
Implicit Types (p q : Parser) (h : Store).

Lemma makePorts_spec ports h :
  makePorts ports h
  = (seq (length (portObj h)) (length ports),
     mkStore (portObj h ++ ports) (pathObj h) (nodeObj h)).
Proof.
  unfold makePorts.
  enough (∀ ptrs h0,
            foldl (λ '(ptrs, h) o, let '(a, h) := newPort o h in (ptrs ++ [a], h))
                  (ptrs, h0) ports
            = (ptrs ++ seq (length (portObj h0)) (length ports),
               mkStore (portObj h0 ++ ports) (pathObj h0) (nodeObj h0))) as H
    by apply (H [] h).
  induction ports as [|o ports IH]; intros ptrs h0; simpl.
  - rewrite !app_nil_r. by destruct h0.
  - rewrite IH. simpl.
    rewrite length_app, <- !app_assoc. simpl. by rewrite Nat.add_1_r.
Qed.

Lemma alter_fresh {A} (f : A → A) (l fresh : list A) :
  foldl (λ l i, alter f i l) (l ++ fresh) (seq (length l) (length fresh))
  = l ++ (f <$> fresh).
Proof.
  revert l. induction fresh as [|x fresh IH]; intros l; simpl; [done|].
  rewrite alter_app_r_alt by lia. rewrite Nat.sub_diag. simpl.
  specialize (IH (l ++ [f x])). rewrite length_app, Nat.add_1_r in IH.
  rewrite <- app_assoc in IH. simpl in IH. rewrite IH.
  by rewrite <- app_assoc.
Qed.

Lemma setParents_fresh n po pt no ptrs :
  foldl (λ h x, updPort x (Port.setParentNode (Some n)) h) (mkStore po pt no) ptrs
  = mkStore (foldl (λ l i, alter (Port.setParentNode (Some n)) i l) po ptrs) pt no.
Proof. revert po. induction ptrs as [|x ptrs IH]; intros po; simpl; [done|]. apply IH. Qed.

Lemma addSyntheticNode_spec name type ports p :
  addSyntheticNode name type ports p = withNode name type ports p.
Proof.
  unfold addSyntheticNode, withNode. rewrite makePorts_spec.
  unfold newNode. simpl. rewrite setParents_fresh, alter_fresh. done.
Qed.

Lemma lookup_total_fresh {A} `{Inhabited A} (l fresh : list A) :
  (λ x, (l ++ fresh) !!! x) <$> seq (length l) (length fresh) = fresh.
Proof.
  revert l. induction fresh as [|a fresh IH]; intros l; simpl; [done|].
  rewrite lookup_total_app_r by lia. rewrite Nat.sub_diag. simpl. f_equal.
  specialize (IH (l ++ [a])). rewrite length_app, Nat.add_1_r in IH.
  rewrite <- IH at 2. apply list_fmap_ext. intros _ x _.
  by rewrite <- app_assoc.
Qed.

Lemma foldl_same {A B} (f g : A → B → A) (l : list B) (a : A) :
  (∀ a b, f a b = g a b) → foldl f a l = foldl g a l.
Proof.
  intros Hfg. revert a. induction l as [|b l IH]; intros a; simpl; [done|].
  by rewrite Hfg, IH.
Qed.

Section Loop.
Variable kind : string.
Variable portsOf : list string → list (list string) → list Port.t.

Lemma synthesized_nil p : synthesized kind portsOf [] p p.
Proof.
  unfold synthesized. simpl. rewrite app_nil_r, Nat.add_0_r.
  split_and!; try done.
Qed.

Lemma synthesized_snoc (info : list (list string * list (list string))) s d p q :
  synthesized kind portsOf info p q →
  synthesized kind portsOf (info ++ [(s, d)]) p
    (withNode (kind +:+ QString_number (Z.of_nat (length info))) kind
       (portsOf s d) q).
Proof.
  intros (Hnodes & Hlen & Hle & Hport & Hnode & Hpath & Hrest & Hentry).
  injection Hrest as Hdg Hc Hty Hpo Hpa Hnn.
  unfold synthesized, withNode, port, node in *. simpl.
  rewrite !length_app, length_fmap. simpl.
  split_and!.
  - rewrite Hnodes, Hlen, <- app_assoc, Nat.add_1_r, seq_S. done.
  - lia.
  - lia.
  - intros x Hx. rewrite lookup_total_app_l by lia. by apply Hport.
  - intros x Hx. rewrite lookup_total_app_l by lia. by apply Hnode.
  - done.
  - by rewrite Hdg, Hc, Hty, Hpo, Hpa, Hnn.
  - intros i srcBits destBits Hi.
    destruct (decide (i < length info)%nat) as [Hold|Hnew].
    + rewrite lookup_app_l in Hi by done.
      destruct (Hentry i srcBits destBits Hi) as (Hname & Htype & Hrange & Hports).
      rewrite lookup_total_app_l by lia. split_and!; [done|done| |].
      * eapply Forall_impl; [exact Hrange|]. simpl. intros x Hx. lia.
      * rewrite <- Hports. apply Forall_fmap_ext.
        eapply Forall_impl; [exact Hrange|]. simpl. intros x Hx.
        by rewrite lookup_total_app_l by lia.
    + assert (i = length info) as ->.
      { apply lookup_lt_Some in Hi. rewrite length_app in Hi. simpl in Hi. lia. }
      rewrite lookup_app_r, Nat.sub_diag in Hi by lia. injection Hi as <- <-.
      rewrite <- Hlen, lookup_total_snoc. simpl. split_and!; [done|done| |].
      * apply Forall_forall. intros x [? ?]%elem_of_seq. lia.
      * rewrite <- (length_fmap (Port.setParentNode (Some (length (nodeObj (store q)))))
                    (portsOf s d)).
        apply lookup_total_fresh.
Qed.

Lemma synthesized_loop (info : list (list string * list (list string))) p :
  ∃ q, foldl (synthStep kind portsOf) (p, 0) info = (q, Z.of_nat (length info))
       ∧ synthesized kind portsOf info p q.
Proof.
  induction info as [|[s d] info IH] using rev_ind.
  - exists p. split; [done|apply synthesized_nil].
  - destruct IH as (q & Hfold & Hq).
    eexists. rewrite foldl_app, Hfold. simpl. unfold synthStep at 1. simpl.
    rewrite addSyntheticNode_spec. split.
    + f_equal. rewrite length_app. simpl. lia.
    + by apply synthesized_snoc.
Qed.
End Loop.
Lemma createSplitNodes_synthesized (info : InfoMap) p :
  synthesized "split" spliterPorts info p (createSplitNodes info p).
Proof.
  destruct (synthesized_loop "split" spliterPorts info p) as (q & Hfold & Hq).
  replace (createSplitNodes info p) with q; [done|].
  unfold createSplitNodes.
  change q with (q, Z.of_nat (length info)).1. rewrite <- Hfold. f_equal.
  apply foldl_same. by intros [? ?] [? ?].
Qed.

Lemma createJoinNodes_synthesized (info : InfoMap) p :
  synthesized "join" joinerPorts info p (createJoinNodes info p).
Proof.
  destruct (synthesized_loop "join" joinerPorts info p) as (q & Hfold & Hq).
  replace (createJoinNodes info p) with q; [done|].
  unfold createJoinNodes.
  change q with (q, Z.of_nat (length info)).1. rewrite <- Hfold. f_equal.
  apply foldl_same. by intros [? ?] [? ?].
Qed.
End NodeProofs.

(** X12: [Parser::createSplitNodes] and [Parser::createJoinNodes] add one
    node per entry of their map, in the order of the map: the [i]-th is
    named [split<i>] or [join<i>], has the type [split] or [join], and its
    ports are fresh objects that have the node as parent; those of a split
    node are [in] with the key and [out<j>] with the [j]-th value, those of
    a join node [in<j>] with the [j]-th value and [out] with the key.
    Objects that were in the store, and the rest of the module, stay as
    they were. *)
Theorem createNodes_synthesized (info : InfoMap) (p : Parser) :
  synthesized "split" spliterPorts info p (createSplitNodes info p)
  ∧ synthesized "join" joinerPorts info p (createJoinNodes info p).
Proof.
  split; [apply createSplitNodes_synthesized|apply createJoinNodes_synthesized].
Qed.

(** ** What the stitching leaves alone *)

Section FrameProofs.
Implicit Types (p q : Parser).

Lemma stitchKeeps_refl p : stitchKeeps p p.
Proof. by split_and!. Qed.

Lemma stitchKeeps_trans p1 p2 p3 :
  stitchKeeps p1 p2 → stitchKeeps p2 p3 → stitchKeeps p1 p3.
Proof.
  intros (? & ? & H12 & ?) (? & ? & H23 & ?). split_and!; try congruence.
Qed.

Lemma stitchKeeps_src p s : stitchKeeps p (ConnectSignalSrc.body p s).
Proof.
  unfold ConnectSignalSrc.body.
  destruct (ConnectSignalSrc.naming p s) as [pathName isHidden].
  destruct p as [dg m c [po pt no]]. unfold stitchKeeps, port. simpl.
  split_and!; try done.
  - by rewrite length_alter.
  - intros x. by apply (lookup_total_alter_proj (Port.setPath None) (Port.setPath _)).
Qed.

Lemma stitchKeeps_dest p d : stitchKeeps p (ConnectSignalDest.body p d).
Proof.
  unfold ConnectSignalDest.body.
  destruct (YModule.getPathByBits _ _ _) as [pa|]; [|apply stitchKeeps_refl].
  destruct p as [dg m c [po pt no]]. unfold stitchKeeps, port. simpl.
  split_and!; try done.
  - by rewrite length_alter.
  - intros x. by apply (lookup_total_alter_proj (Port.setPath None) (Port.setPath _)).
Qed.

Lemma stitchKeeps_createSignalConnections p :
  stitchKeeps p (createSignalConnections p).
Proof.
  unfold createSignalConnections, connectSignalDestConnections,
    connectSignalSrcConnections. cbv zeta.
  apply (foldl_invariant (stitchKeeps p)).
  - apply (foldl_invariant (stitchKeeps p)); [apply stitchKeeps_refl|].
    intros q s Hq. eapply stitchKeeps_trans; [exact Hq|apply stitchKeeps_src].
  - intros q d Hq. eapply stitchKeeps_trans; [exact Hq|apply stitchKeeps_dest].
Qed.
End FrameProofs.

(** X13: [Parser::createSignalConnections] changes nothing of a port but
    its path and touches no node; the store keeps its ports, and the
    module its boundary ports, nodes and net names. *)
Theorem createSignalConnections_frame (p : Parser) :
  stitchKeeps p (createSignalConnections p)
  ∧ ∀ x, let o := port (store p) x in
         let o' := port (store (createSignalConnections p)) x in
         (Port.name o', Port.direction o', Port.bits o', Port.parentNode o',
          Port.constValue o', Port.symbolNameAlias o')
         = (Port.name o, Port.direction o, Port.bits o, Port.parentNode o,
            Port.constValue o, Port.symbolNameAlias o).
Proof.
  pose proof (stitchKeeps_createSignalConnections p) as H.
  split; [done|]. intros x o o'.
  destruct H as (_ & _ & H & _). specialize (H x). fold o o' in H.
  destruct o, o'. by injection H as -> -> -> -> -> ->.
Qed.

(** ** The nodes that resolution adds to a module *)

Section ResolutionProofs.
Implicit Types (p q : Parser) (st : Pools).

Lemma resolve_slices st D :
  slicesOnly st → slicesOnly (resolve st D) ∧ poolsGrow st (resolve st D).
Proof.
  intros Hst. eapply createSplitJoin_slices; [|exact Hst|apply resolve_spec]. lia.
Qed.

Lemma resolved_pools srcs dests sinks :
  slicesOnly (foldl resolve (mkPools srcs dests [] []) sinks).
Proof.
  apply foldl_invariant.
  - split; simpl; by intros key values ?%elem_of_nil.
  - intros st D Hst. by apply resolve_slices.
Qed.

Lemma fmap_eq_Forall2 {A B C} (f : A → C) (g : B → C) (l : list A) (k : list B) :
  f <$> l = g <$> k → Forall2 (λ x y, f x = g y) l k.
Proof.
  revert k. induction l as [|a l IH]; intros [|b k]; simpl; try done.
  intros [= Hab Hlk]. constructor; [done|by apply IH].
Qed.

(** A node of [p1] as [q] sees it, when only nodes were added and the
    ports were then stitched. *)
Lemma node_carried kind portsOf info p0 p1 p2 q i key values :
  synthesized kind portsOf info p0 p1 →
  (∀ x, (x < length (portObj (store p1)))%nat → port (store p2) x = port (store p1) x) →
  (∀ x, (x < length (nodeObj (store p1)))%nat → node (store p2) x = node (store p1) x) →
  stitchKeeps p2 q →
  info !! i = Some (key, values) →
  let n := (length (nodeObj (store p0)) + i)%nat in
  Node.name (node (store q) n) = kind +:+ QString_number (Z.of_nat i)
  ∧ Node.type (node (store q) n) = kind
  ∧ Forall2 (λ x made,
               Port.setPath None (port (store q) x)
               = Port.setPath None (Port.setParentNode (Some n) made))
            (Node.ports (node (store q) n)) (portsOf key values).
Proof.
  intros (_ & Hlen & _ & _ & _ & _ & _ & Hentry) Hport Hnode (Hno & _ & Hpo & _)
    Hi n.
  destruct (Hentry i key values Hi) as (Hname & Htype & Hrange & Hports).
  fold n in Hname, Htype, Hrange, Hports.
  assert (node (store q) n = node (store p1) n) as ->.
  { unfold node at 1. rewrite Hno. apply Hnode. apply lookup_lt_Some in Hi.
    unfold n. lia. }
  split_and!; [done..|].
  assert (Port.setPath None <$> (port (store q) <$> Node.ports (node (store p1) n))
          = Port.setPath None
              <$> (Port.setParentNode (Some n) <$> portsOf key values)) as Heq.
  { rewrite <- Hports, <- !list_fmap_compose. apply Forall_fmap_ext.
    eapply Forall_impl; [exact Hrange|]. simpl. intros x Hx.
    rewrite Hpo. f_equal. apply Hport. lia. }
  rewrite <- !list_fmap_compose in Heq. by apply fmap_eq_Forall2 in Heq.
Qed.
End ResolutionProofs.

(** X14: [Parser::connectDiagramConnections] adds to the module one join
    node per entry of the join map of the resolver and then one split node
    per entry of its split map, and no other node.  The ports of a join
    node are [in<j>] with the values and [out] with the key of its entry,
    those of a split node [in] with the key and [out<j>] with the values;
    each has the node as parent.  In both maps the values are contiguous
    parts of their key, so a split node only cuts its input and a join node
    only takes parts of its output. *)
Theorem connectDiagramConnections_nodes (p : Parser) :
  let st := foldl resolve
              (mkPools (ConnectDiagram.srcPorts (store p) (currentModule p))
                 (ConnectDiagram.destPorts (store p) (currentModule p)) [] [])
              (ConnectDiagram.destPorts (store p) (currentModule p)) in
  let q := connectDiagramConnections p in
  let base := length (nodeObj (store p)) in
  let made kind portsOf (info : InfoMap) first :=
    ∀ i key values, info !! i = Some (key, values) →
      Node.name (node (store q) (first + i)%nat) = kind +:+ QString_number (Z.of_nat i)
      ∧ Node.type (node (store q) (first + i)%nat) = kind
      ∧ Forall2 (λ x o,
                   Port.setPath None (port (store q) x)
                   = Port.setPath None (Port.setParentNode (Some (first + i)%nat) o))
                (Node.ports (node (store q) (first + i)%nat)) (portsOf key values)
      ∧ Forall (λ v, slice v key) values in
  YModule.nodes (currentModule q)
  = YModule.nodes (currentModule p)
    ++ seq base (length (joinInfo st) + length (splitInfo st))
  ∧ length (nodeObj (store q))
    = (base + length (joinInfo st) + length (splitInfo st))%nat
  ∧ (∀ x, (x < base)%nat → node (store q) x = node (store p) x)
  ∧ made "join" joinerPorts (joinInfo st) base
  ∧ made "split" spliterPorts (splitInfo st) (base + length (joinInfo st))%nat.
Proof.
  intros st q base made.
  pose proof (resolved_pools (ConnectDiagram.srcPorts (store p) (currentModule p))
                (ConnectDiagram.destPorts (store p) (currentModule p))
                (ConnectDiagram.destPorts (store p) (currentModule p))) as [Hsplit Hjoin].
  fold st in Hsplit, Hjoin.
  set (p1 := createJoinNodes (joinInfo st) p).
  set (p2 := createSplitNodes (splitInfo st) p1).
  assert (q = createSignalConnections p2) as Hq by done.
  pose proof (createJoinNodes_synthesized (joinInfo st) p) as Hj. fold p1 in Hj.
  pose proof (createSplitNodes_synthesized (splitInfo st) p1) as Hs. fold p2 in Hs.
  pose proof (stitchKeeps_createSignalConnections p2) as Hk. rewrite <- Hq in Hk.
  clearbody p1 p2 q st.
  pose proof Hj as (Hjn & Hjl & _ & _ & Hjo & _).
  pose proof Hs as (Hsn & Hsl & _ & Hsp & Hso & _).
  pose proof Hk as (Hkn & _ & _ & Hkr). injection Hkr as _ _ _ _ Hkm _.
  split_and!.
  - rewrite Hkm, Hsn, Hjn, Hjl, <- app_assoc. f_equal. fold base.
    by rewrite seq_app.
  - rewrite Hkn, Hsl, Hjl. done.
  - intros x Hx. unfold node at 1. rewrite Hkn.
    change (nodeObj (store p2) !!! x) with (node (store p2) x).
    rewrite Hso by (rewrite Hjl; fold base; lia). by apply Hjo.
  - intros i key values Hi.
    destruct (node_carried _ _ _ p p1 p2 q i key values Hj Hsp Hso Hk Hi)
      as (? & ? & ?).
    split_and!; [done..|]. apply (Hjoin key values).
    by eapply list_elem_of_lookup_2.
  - intros i key values Hi.
    destruct (node_carried _ _ _ p1 p2 p2 q i key values Hs) as (? & ? & ?);
      [done..|].
    rewrite Hjl in *. split_and!; [done..|].
    apply (Hsplit key values). by eapply list_elem_of_lookup_2.
Qed.

(** Scenario B: the one node that resolution adds is a split node. *)
Lemma connectDiagramConnections_nodes_witness :
  Node.type
    (node (store (connectDiagramConnections
                    (afterPorts "m" [Port.new "a" INPUT ["n1"; "n2"; "n3"; "n4"];
                                     Port.new "b" OUTPUT ["n1"; "n2"];
                                     Port.new "c" OUTPUT ["n3"; "n4"]])))
       0%nat)
  = "split".
Proof.
  exact (proj1 (proj2
    (proj2 (proj2 (proj2 (proj2
       (connectDiagramConnections_nodes
          (afterPorts "m" [Port.new "a" INPUT ["n1"; "n2"; "n3"; "n4"];
                           Port.new "b" OUTPUT ["n1"; "n2"];
                           Port.new "c" OUTPUT ["n3"; "n4"]])))))
       0%nat ["n1"; "n2"; "n3"; "n4"] [["n1"; "n2"]; ["n3"; "n4"]] eq_refl))).
Defined.

(** ** Looking a module up *)

(** X15: after a [Parser::parse] that started on an empty diagram and
    returned, [Diagram::getModuleByName] finds a module for exactly the
    names of the modules of the document that have no [blackbox]
    attribute; the module found has that name and at least one path. *)
Theorem getModuleByName_after_parse
    (yosysJsonObject : QJsonObject) (p q : Parser) (name : string) :
  Diagram.modules (diagram p) = [] →
  parse yosysJsonObject p = (q, Return tt) →
  let names :=
    (parsedModules (Json.toObject (Json.jat yosysJsonObject YosysJson.modules))).*1 in
  (name ∈ names →
     ∃ m, getModuleByName name (diagram q) = Some m
          ∧ YModule.type m = name ∧ YModule.paths m ≠ [])
  ∧ (name ∉ names → getModuleByName name (diagram q) = None).
Proof.
  intros Hempty Hparse names. unfold parse in Hparse. cbv zeta in Hparse.
  case_bool_decide; [done|].
  apply forEach_return in Hparse as (added & Hmods & Htypes & Hpaths & _).
  rewrite Hempty in Hmods. simpl in Hmods. fold names in Htypes.
  unfold getModuleByName. rewrite Hmods.
  destruct (List.find _ added) as [m|] eqn:Hfind.
  - apply find_some in Hfind as [Hin Hty%bool_decide_eq_true].
    apply list_elem_of_In in Hin. split.
    + intros _. exists m. split_and!; [done..|].
      by eapply (proj1 (Forall_forall _ _) Hpaths).
    + intros []. rewrite <- Htypes. apply list_elem_of_fmap. by exists m.
  - split; [|done]. rewrite <- Htypes.
    intros (m & -> & Hin)%list_elem_of_fmap.
    apply list_elem_of_In in Hin.
    pose proof (find_none _ _ Hfind m Hin) as Hm. simpl in Hm.
    by rewrite bool_decide_eq_true_2 in Hm.
Qed.

(** The document of scenario B. *)
Lemma getModuleByName_after_parse_witness :
  ∃ m, getModuleByName "good"
         (diagram (parse (Examples.document [("good", Examples.splitModule)])
                     newParser).1) = Some m
       ∧ YModule.type m = "good" ∧ YModule.paths m ≠ [].
Proof.
  refine (proj1 (getModuleByName_after_parse
                   (Examples.document [("good", Examples.splitModule)])
                   newParser
                   (parse (Examples.document [("good", Examples.splitModule)])
                      newParser).1
                   "good" eq_refl _) _).
  - by vm_compute.
  - vm_compute. by left.
Defined.

(** ** Sinks that need no search *)

Section DirectProofs.
Implicit Types (st : Pools) (D : list string).

Lemma mid_all {A} (l : list A) : QList.mid l 0 (size l - 0) = l.
Proof.
  unfold QList.mid, size. rewrite !Z.sub_0_r.
  destruct (Z.gtb_spec 0 (Z.of_nat (length l))); [lia|]. simpl.
  destruct (Z.ltb_spec (Z.of_nat (length l)) 0); [lia|].
  destruct (Z.gtb_spec (Z.of_nat (length l)) (Z.of_nat (length l))); [lia|].
  rewrite Nat2Z.id. change (Z.to_nat 0) with 0%nat. simpl. by apply take_ge.
Qed.

Lemma resolveFuel_two n : ∃ fuel, resolveFuel n = S (S fuel) ∨ n = 0%nat.
Proof.
  destruct n as [|n]; [exists 0%nat; by right|].
  exists (S n * (S n + 2) + S n - 1)%nat. left. unfold resolveFuel. lia.
Qed.

(** The turn on what is left of the sequence once all of it is done. *)
Lemma turn_done nested D st t tasks :
  startIdx t = size D →
  CreateSplitJoin.turn nested D st t tasks = Some (CreateSplitJoin.claim D st, tasks).
Proof.
  intros Hs. unfold CreateSplitJoin.turn. cbv zeta.
  rewrite Hs. by rewrite (proj2 (Z.geb_le _ _)) by lia.
Qed.

Lemma resolve_two_turns st D st1 :
  D ≠ [] →
  (∀ nested tasks,
     CreateSplitJoin.turn nested D st (mkTask 0 (size D) D) tasks
     = Some (st1, CreateSplitJoin.remainder D (mkTask 0 (size D) D) :: tasks)) →
  resolve st D = CreateSplitJoin.claim D st1.
Proof.
  intros Hne Hturn. unfold resolve.
  destruct (resolveFuel_two (length D)) as [fuel [Hf|Hf]];
    [|by destruct D].
  rewrite Hf. simpl. rewrite mid_all, Hturn.
  rewrite turn_done by done. by destruct fuel.
Qed.
End DirectProofs.


(** X16: a sink with the bits of a source needs no node:
    [Parser::createSplitJoin] takes it, and a second sink with these bits
    if there is one, from the sinks and leaves the sources and both maps
    as they were. *)
Theorem resolve_exact_match (st : Pools) (toSolve : list string) :
  toSolve ≠ [] → QList.contains (srcPorts st) toSolve = true →
  resolve st toSolve
  = CreateSplitJoin.claim toSolve (CreateSplitJoin.claim toSolve st)
  ∧ srcPorts (resolve st toSolve) = srcPorts st
  ∧ splitInfo (resolve st toSolve) = splitInfo st
  ∧ joinInfo (resolve st toSolve) = joinInfo st.
Proof.
  intros Hne Hsrc.
  assert (resolve st toSolve
          = CreateSplitJoin.claim toSolve (CreateSplitJoin.claim toSolve st)) as ->.
  { apply resolve_two_turns; [done|]. intros nested tasks.
    unfold CreateSplitJoin.turn. cbv zeta. simpl.
    pose proof (size_pos _ Hne).
    destruct (Z.geb_spec 0 (size toSolve)); [lia|].
    destruct (Z.ltb_spec (size toSolve - 0) 1); [lia|]. simpl.
    rewrite claim_srcPorts, Hsrc. unfold CreateSplitJoin.noteJoin.
    by rewrite bool_decide_eq_false_2 by (by intros []). }
  split; [done|]. unfold CreateSplitJoin.claim. by repeat case_match.
Qed.

(** The sink [n1; n2] against the sources [n1; n2] and [n3]. *)
Lemma resolve_exact_match_witness :
  resolve (mkPools [["n1"; "n2"]; ["n3"]] [["n1"; "n2"]; ["n3"]] [] []) ["n1"; "n2"]
  = mkPools [["n1"; "n2"]; ["n3"]] [["n3"]] [] [].
Proof.
  refine (eq_trans (proj1 (resolve_exact_match
            (mkPools [["n1"; "n2"]; ["n3"]] [["n1"; "n2"]; ["n3"]] [] [])
            ["n1"; "n2"] _ _)) _); done.
Defined.

(** X17: a sink that is no source but a contiguous part of one is cut out
    of the first such source: [Parser::createSplitJoin] records it in the
    split map under that source, makes it a source, records no join and
    takes it from the sinks. *)
Theorem resolve_split (st : Pools) (toSolve : list string) :
  toSolve ≠ [] →
  QList.contains (srcPorts st) toSolve = false →
  indexOfContains (srcPorts st) toSolve ≠ -1 →
  let st1 := CreateSplitJoin.claim toSolve st in
  resolve st toSolve
  = CreateSplitJoin.claim toSolve
      (mkPools (srcPorts st ++ [toSolve]) (destPorts st1)
         (addToMap (splitInfo st)
            (srcPorts st !!! Z.to_nat (indexOfContains (srcPorts st) toSolve))
            toSolve)
         (joinInfo st)).
Proof.
  intros Hne Hsrc Hidx st1.
  assert (srcPorts st1 = srcPorts st ∧ splitInfo st1 = splitInfo st
          ∧ joinInfo st1 = joinInfo st) as (Hs & Hsp & Hj).
  { unfold st1, CreateSplitJoin.claim. by repeat case_match. }
  apply resolve_two_turns; [done|]. intros nested tasks.
  unfold CreateSplitJoin.turn. cbv zeta. simpl. fold st1.
  pose proof (size_pos _ Hne).
  destruct (Z.geb_spec 0 (size toSolve)); [lia|].
  destruct (Z.ltb_spec (size toSolve - 0) 1); [lia|]. simpl.
  rewrite Hs, Hsrc.
  rewrite (proj2 (Z.eqb_neq _ _) Hidx). simpl.
  unfold CreateSplitJoin.noteJoin.
  rewrite bool_decide_eq_false_2 by (by intros []).
  by rewrite Hs, Hsp, Hj.
Qed.

(** Scenario B: the sink [n1; n2] against the source [n1; n2; n3; n4]. *)
Lemma resolve_split_witness :
  resolve (mkPools [["n1"; "n2"; "n3"; "n4"]] [["n1"; "n2"]; ["n3"; "n4"]] [] [])
    ["n1"; "n2"]
  = mkPools [["n1"; "n2"; "n3"; "n4"]; ["n1"; "n2"]] [["n3"; "n4"]]
      [(["n1"; "n2"; "n3"; "n4"], [["n1"; "n2"]])] [].
Proof.
  refine (eq_trans (resolve_split
            (mkPools [["n1"; "n2"; "n3"; "n4"]] [["n1"; "n2"]; ["n3"; "n4"]] [] [])
            ["n1"; "n2"] _ _ _) _); done.
Defined.

(** ** What constant materialisation leaves alone *)

Section KeepProofs.
Implicit Types (p q : Parser) (s d : PortPtr) (o : Port.t).

Lemma foldl_invariant_in {A B} (I : A → Prop) (f : A → B → A) (l : list B) (a : A) :
  I a → (∀ a b, b ∈ l → I a → I (f a b)) → I (foldl f a l).
Proof.
  revert a. induction l as [|b l IH]; intros a Ha Hf; simpl; [done|].
  apply IH.
  - apply Hf; [by left|done].
  - intros a' b' Hb'. apply Hf. by right.
Qed.

Lemma replaceBits_lookup_ne pos fresh o j :
  0 ≤ pos.1 → ¬ (pos.1 ≤ Z.of_nat j ≤ pos.2) →
  Port.bits (Port.replaceBits pos fresh o) !! j = Port.bits o !! j.
Proof.
  intros Hpos Hj. unfold Port.replaceBits. simpl.
  apply (foldl_invariant_in (λ b, b !! j = Port.bits o !! j)); [done|].
  intros b i Hi%elem_of_seqZ Hb. rewrite list_lookup_insert_ne by lia. done.
Qed.

Lemma replaceBits_rest pos fresh o :
  Port.setBits [] (Port.replaceBits pos fresh o) = Port.setBits [] o.
Proof. done. Qed.

Lemma freshBits_length n r : length (ReplaceConstBits.freshBits n r).1 = length r.
Proof.
  unfold ReplaceConstBits.freshBits.
  enough (∀ acc m,
            length (foldl (λ '(bits, maxBitNumber) (_ : string),
                             let maxBitNumber := wrap64 (maxBitNumber + 1) in
                             (bits ++ [QString_number maxBitNumber], maxBitNumber))
                          (acc, m) r).1
            = (length acc + length r)%nat) as H by apply (H [] n).
  induction r as [|b r IH]; intros acc m; simpl; [lia|].
  rewrite IH, length_app. simpl. lia.
Qed.

(** The runs of a segmentation lie where their bits are. *)
Lemma keyed_positions off runs pre (k : Z * Z) r :
  keyed off runs → size pre = off → (k, r) ∈ runs →
  0 ≤ k.1
  ∧ (length r ≤ length (pre ++ concat runs.*2))%nat
  ∧ ∀ i bit, k.1 ≤ Z.of_nat i ≤ k.2 →
             (pre ++ concat runs.*2) !! i = Some bit →
             isConstBit bit = runIsConst r.
Proof.
  revert off pre. induction runs as [|[k0 r0] tl IH]; intros off pre;
    [by intros _ _ ?%elem_of_nil|].
  csimpl. intros (-> & Hr & Hhom & Htl) Hoff [[= -> ->]|Hin]%elem_of_cons.
  - unfold size in *. simpl. split_and!.
    + lia.
    + rewrite !length_app. lia.
    + intros i bit Hi Hl.
      rewrite lookup_app_r in Hl by lia.
      rewrite lookup_app_l in Hl by lia.
      apply list_elem_of_lookup_2 in Hl.
      by apply (proj1 (Forall_forall _ _) Hhom).
  - destruct (IH (off + size r0) (pre ++ r0) Htl) as (? & ? & Hi); [|done|].
    + rewrite size_app. lia.
    + rewrite <- app_assoc in *. done.
Qed.

Lemma run_keeps p d s q n entry :
  (d < length (portObj (store p)))%nat →
  safeRun s d (Port.bits (port (store p) d)) entry →
  materializes p d q →
  materializes p d (ReplaceConstBits.run s (q, n) entry).1.
Proof.
  intros Hd (Hpos & Hsize & Hsafe)
    (Hlen & Hmax & Hbl & Hkeep & Hrest & Hpt & Hno & Hports & Hmod).
  destruct entry as [pos r]. unfold ReplaceConstBits.run. simpl in *.
  destruct (runIsConst r) eqn:Hconst; simpl; [|by split_and!].
  pose proof (freshBits_length n r) as Hfresh.
  destruct (ReplaceConstBits.freshBits n r) as [fresh n']. simpl in Hfresh.
  unfold createConstantPort, newPort.
  set (c := Port.setConstPortValue r _).
  assert (Port.bits c = fresh) as Hc by done. clearbody c.
  destruct q as [dg m cm [po pt no]]. unfold materializes, port in *. simpl in *.
  assert (d ≠ length po) as Hdne by lia.
  split_and!; try done.
  - rewrite length_alter, length_app. simpl. lia.
  - intros x.
    rewrite (lookup_total_alter_proj (λ o, size (Port.bits o)))
      by (intros o; unfold size; by rewrite replaceBits_length).
    destruct (decide (x = length po)) as [->|Hx].
    + rewrite lookup_total_snoc, Hc. unfold size in *. lia.
    + rewrite lookup_total_snoc_ne by done. apply Hmax.
  - rewrite (lookup_total_alter_proj (λ o, length (Port.bits o)))
      by apply replaceBits_length.
    by rewrite lookup_total_snoc_ne.
  - intros i bit Hi Hbit. destruct (decide (s = d)) as [->|Hsd].
    + rewrite lookup_total_alter by (rewrite length_app; simpl; lia).
      rewrite lookup_total_snoc_ne by done.
      rewrite replaceBits_lookup_ne; [by apply Hkeep|done|].
      intros Hin. specialize (Hsafe eq_refl eq_refl i bit Hin Hi). congruence.
    + rewrite lookup_total_alter_ne by done.
      rewrite lookup_total_snoc_ne by done. by apply Hkeep.
  - rewrite (lookup_total_alter_proj (Port.setBits [])) by done.
    by rewrite lookup_total_snoc_ne.
  - by apply prefix_app_r.
Qed.

Lemma runs_keep p d s st runs :
  (d < length (portObj (store p)))%nat →
  Forall (safeRun s d (Port.bits (port (store p) d))) runs →
  materializes p d st.1 →
  materializes p d (foldl (ReplaceConstBits.run s) st runs).1.
Proof.
  intros Hd Hsafe. revert st.
  induction Hsafe as [|entry runs He _ IH]; intros [q n] Hq; [done|].
  change (foldl (ReplaceConstBits.run s) (q, n) (entry :: runs))
    with (foldl (ReplaceConstBits.run s) (ReplaceConstBits.run s (q, n) entry) runs).
  apply IH. by apply run_keeps.
Qed.

Lemma body_keeps p d s q n :
  (d < length (portObj (store p)))%nat →
  materializes p d q →
  materializes p d (ReplaceConstBits.body (q, n) s).1.
Proof.
  intros Hd Hq. unfold ReplaceConstBits.body. simpl.
  pose proof Hq as (_ & Hmax & Hbl & Hkeep & _).
  destruct (splitBits_keyed (Port.bits (port (store q) s)) (Hmax s))
    as (Hcat & Hkey & _).
  assert (Forall (safeRun s d (Port.bits (port (store p) d)))
            (splitBits (Port.bits (port (store q) s)))) as Hsafe.
  { apply Forall_forall. intros [k r] Hin.
    destruct (keyed_positions 0 _ [] k r Hkey eq_refl Hin) as (Hk & Hr & Hpos).
    simpl in Hr, Hpos. rewrite Hcat in Hr, Hpos.
    split_and!; simpl.
    - done.
    - specialize (Hmax s). unfold size in *. lia.
    - intros -> Hconst i bit Hi Hbit.
      destruct (isConstBit bit) eqn:Hb; [done|].
      rewrite <- Hconst, <- Hb. apply (Hpos i bit Hi). by apply Hkeep. }
  pose proof (runs_keep p d s (q, n) _ Hd Hsafe Hq) as H.
  destruct (foldl _ _ _) as [q' n']. simpl in *.
  destruct q' as [dg m cm h]. exact H.
Qed.

Lemma replaceConstBits_keeps p d :
  (∀ x, size (Port.bits (port (store p) x)) ≤ qsizetype_max) →
  (d < length (portObj (store p)))%nat →
  materializes p d (replaceConstBits p).
Proof.
  intros Hmax Hd. unfold replaceConstBits. cbv zeta.
  apply (foldl_invariant (λ st, materializes p d st.1)).
  - by split_and!.
  - intros [q n] s Hq. by apply body_keeps.
Qed.
End KeepProofs.

(** X18: [Parser::replaceConstBits] keeps, for every port that is in the
    store, the number of its bits and every bit that is not a constant
    literal, in its place; no other field of the port changes, no path and
    no node is touched, and the module only gains boundary ports.  The
    hypothesis is the size bound of a [QStringList]. *)
Theorem replaceConstBits_keeps_nets (p : Parser) (d : PortPtr) :
  (∀ x, size (Port.bits (port (store p) x)) ≤ qsizetype_max) →
  (d < length (portObj (store p)))%nat →
  materializes p d (replaceConstBits p).
Proof. apply replaceConstBits_keeps. Qed.

(** An output port with one constant bit between two nets. *)
Lemma replaceConstBits_keeps_nets_witness :
  materializes (afterPorts "m" [Port.new "o" OUTPUT ["5"; "0"; "7"]]) 0%nat
    (replaceConstBits (afterPorts "m" [Port.new "o" OUTPUT ["5"; "0"; "7"]])).
Proof.
  apply (replaceConstBits_keeps_nets
           (afterPorts "m" [Port.new "o" OUTPUT ["5"; "0"; "7"]]) 0%nat).
  - intros [|x]; by vm_compute.
  - simpl. lia.
Defined.

(** ** The ports that constant materialisation adds *)

Section ConstPortProofs.
Implicit Types (p q : Parser) (s : PortPtr).

Lemma run_adds p s q n entry :
  constPortsAdded p q →
  constPortsAdded p (ReplaceConstBits.run s (q, n) entry).1.
Proof.
  intros (Hlen & Hports & Hnew).
  destruct entry as [pos r]. unfold ReplaceConstBits.run. simpl.
  destruct (runIsConst r); simpl; [|by split_and!].
  destruct (ReplaceConstBits.freshBits n r) as [fresh n'].
  unfold createConstantPort, newPort.
  set (host := Port.name (port (store q) s)).
  set (c := Port.setConstPortValue r _).
  assert (Port.direction c = CONST ∧ Port.path c = None
          ∧ Port.parentNode c = None ∧ Port.name c = host +:+ "_const")
    as Hc by done.
  clearbody c host.
  destruct q as [dg m cm [po pt no]]. unfold constPortsAdded, port in *.
  simpl in *. rewrite length_alter, length_app. simpl.
  split_and!.
  - lia.
  - rewrite Hports, <- app_assoc. f_equal.
    replace (length po + 1 - length (portObj (store p)))%nat
      with (S (length po - length (portObj (store p)))) by lia.
    rewrite seq_S. do 2 f_equal. lia.
  - intros x Hx.
    pose proof (lookup_total_alter_proj
                  (λ o, (Port.direction o, Port.path o, Port.parentNode o,
                         Port.name o))
                  (Port.replaceBits pos fresh) (po ++ [c]) s x
                  (λ _, eq_refl)) as Heq.
    simpl in Heq. injection Heq as H1 H2 H3 H4.
    assert (Port.direction ((po ++ [c]) !!! x) = CONST
            ∧ Port.path ((po ++ [c]) !!! x) = None
            ∧ Port.parentNode ((po ++ [c]) !!! x) = None
            ∧ ∃ host, Port.name ((po ++ [c]) !!! x) = host +:+ "_const")
      as (R1 & R2 & R3 & host0 & R4).
    { destruct (decide (x = length po)) as [->|Hne].
      - rewrite lookup_total_snoc. destruct Hc as (-> & -> & -> & ->). eauto.
      - rewrite lookup_total_snoc_ne by done. apply Hnew. lia. }
    split_and!; [etrans; [exact H1|exact R1] | etrans; [exact H2|exact R2]
                | etrans; [exact H3|exact R3] |].
    exists host0. etrans; [exact H4|exact R4].
Qed.

Lemma replaceConstBits_adds p : constPortsAdded p (replaceConstBits p).
Proof.
  unfold replaceConstBits. cbv zeta.
  apply (foldl_invariant (λ st, constPortsAdded p st.1)).
  - unfold constPortsAdded. simpl. rewrite Nat.sub_diag, app_nil_r.
    split_and!; [done..|]. intros x Hx. lia.
  - intros [q n] s Hq. unfold ReplaceConstBits.body. simpl.
    assert (constPortsAdded p
              (foldl (ReplaceConstBits.run s) (q, n)
                 (splitBits (Port.bits (port (store q) s)))).1) as H.
    { apply (foldl_invariant (λ st, constPortsAdded p st.1)); [done|].
      intros [q' n'] entry Hq'. by apply run_adds. }
    destruct (foldl _ _ _) as [q' n']. by destruct q'.
Qed.
End ConstPortProofs.

(** X19: the ports that [Parser::replaceConstBits] adds to the store are
    exactly the boundary ports that it adds to the module, in the same
    order; each is a CONST port without path and parent whose name ends in
    [_const]. *)
Theorem replaceConstBits_adds_const_ports (p : Parser) :
  constPortsAdded p (replaceConstBits p).
Proof. apply replaceConstBits_adds. Qed.

(** ** The cells of a module *)

Section CellProofs.
Implicit Types (p q : Parser) (s : ParseCells.locals).

Lemma alter_last {A} (f : A → A) (l : list A) (o : A) :
  alter f (length l) (l ++ [o]) = l ++ [f o].
Proof. rewrite alter_app_r_alt by lia. by rewrite Nat.sub_diag. Qed.

Lemma createPorts_return names cellType dirs conns s p :
  let Q := setStore
             (mkStore
                (portObj (store p)
                 ++ cellPorts (SymbolTypes.isValidSymbolType (Json.toString cellType))
                      dirs conns (ParseCells.indexIn s) (ParseCells.indexOut s) names)
                (pathObj (store p)) (nodeObj (store p))) p in
  (Forall (cellPortOk dirs conns) names →
   ∃ s', ParseCells.createPorts names cellType dirs conns s p = (Q, Return s')
         ∧ ParseCells.ports s'
           = ParseCells.ports s ++ seq (length (portObj (store p))) (length names))
  ∧ (∀ q s', ParseCells.createPorts names cellType dirs conns s p = (q, Return s') →
             Forall (cellPortOk dirs conns) names).
Proof.
  revert s p. induction names as [|portName names IH]; intros s p Q.
  - split; [|by constructor]. intros _. exists s. unfold Q. simpl.
    rewrite !app_nil_r. split; [|done]. unfold ret. by destruct p as [? ? ? []].
  - unfold Q. clear Q. cbn [ParseCells.createPorts cellPorts]. cbv zeta.
    destruct (if bool_decide (Json.toString (Json.jat dirs portName) = "input")
                 && negb (SymbolTypes.isValidSymbolType (Json.toString cellType))
              then _ else _) as [[symbolNameAlias indexIn'] indexOut'].
    set (o := Port.new portName _ _).
    assert (∀ p1 a,
              createPort portName (Json.jat conns portName) (Json.jat dirs portName) p
              = (p1, Return a)
              ↔ cellPortOk dirs conns portName
                ∧ a = length (portObj (store p))
                ∧ p1 = setStore (mkStore (portObj (store p) ++ [o])
                                   (pathObj (store p)) (nodeObj (store p))) p)
      as Hcreate.
    { intros p1 a. rewrite createPort_return. unfold declaredPort, cellPortOk.
      split.
      - intros (o' & (? & ? & ->) & -> & ->). done.
      - intros ((? & ?) & -> & ->). by exists o. }
    set (p1 := setStore (mkStore (portObj (store p) ++ [o])
                           (pathObj (store p)) (nodeObj (store p))) p) in *.
    set (p2 := onStore (updPort (length (portObj (store p)))
                          (Port.setSymbolNameAlias symbolNameAlias)) p1).
    assert (p2 = setStore (mkStore
                             (portObj (store p)
                              ++ [Port.setSymbolNameAlias symbolNameAlias o])
                             (pathObj (store p)) (nodeObj (store p))) p) as Hp2.
    { unfold p2, p1, onStore, updPort, setStore. simpl. by rewrite alter_last. }
    destruct (IH (ParseCells.Locals indexIn' indexOut'
                    (ParseCells.ports s ++ [length (portObj (store p))])) p2)
      as [IHok IHret].
    simpl in IHok, IHret. split.
    + intros [Hhead Htail]%Forall_cons. destruct (IHok Htail) as (s' & Hrun & Hs').
      exists s'. unfold bind at 1.
      rewrite (proj2 (Hcreate p1 (length (portObj (store p))))) by done.
      unfold bind, modify. fold p2. split.
      * etrans; [exact Hrun|]. f_equal. unfold setStore. simpl.
        by rewrite alter_last, <- app_assoc.
      * etrans; [exact Hs'|]. rewrite <- app_assoc. f_equal. simpl.
        rewrite length_alter, length_app. simpl. by rewrite Nat.add_1_r.
    + intros q s'. unfold bind at 1.
      destruct (createPort _ _ _ p) as [p1' [a|?]] eqn:Hc; [|done].
      destruct (proj1 (Hcreate p1' a) eq_refl) as (Hok & -> & ->).
      unfold bind, modify. fold p2.
      intros Hrun%IHret. by constructor.
Qed.

Lemma cellPorts_length valid dirs conns indexIn indexOut names :
  length (cellPorts valid dirs conns indexIn indexOut names) = length names.
Proof.
  revert indexIn indexOut. induction names as [|n names IH]; intros indexIn indexOut;
    [done|].
  cbn [cellPorts]. cbv zeta. repeat case_match; simpl; by rewrite IH.
Qed.

Lemma foldl_onStore (f : PortPtr → Store → Store) (ptrs : list PortPtr) p :
  foldl (λ p x, onStore (f x) p) p ptrs
  = setStore (foldl (λ h x, f x h) (store p) ptrs) p.
Proof.
  revert p. induction ptrs as [|x ptrs IH]; intros p; simpl.
  - by destruct p.
  - rewrite IH. by destruct p.
Qed.

Lemma cell_return name value p :
  (cellOk value → parseCells [(name, value)] p = (withCell name value p, Return tt))
  ∧ (∀ q, parseCells [(name, value)] p = (q, Return tt) → cellOk value).
Proof.
  unfold parseCells, cellOk, withCell. cbn [forEach]. cbv zeta.
  set (cellType := Json.jat (Json.toObject value) YosysJson.type).
  set (dirs := Json.toObject (Json.jat (Json.toObject value) YosysJson.port_directions)).
  set (conns := Json.toObject (Json.jat (Json.toObject value) YosysJson.connections)).
  destruct (createPorts_return (Json.keys dirs) cellType dirs conns
              (ParseCells.Locals 0 0 []) p) as [Hok Hret].
  simpl in Hok.
  unfold bind, throw, ret, modify.
  destruct (Json.isString cellType); simpl; [|split; [by intros []|done]].
  destruct (decide (dirs = [])) as [Hd|Hd].
  { rewrite bool_decide_eq_true_2 by done. simpl. split; [by intros (_ & ? & _)|done]. }
  rewrite (bool_decide_eq_false_2 _ Hd). simpl.
  destruct (decide (conns = [])) as [Hc|Hc].
  { rewrite bool_decide_eq_true_2 by done. simpl.
    split; [by intros (_ & _ & ? & _)|done]. }
  rewrite (bool_decide_eq_false_2 _ Hc). simpl.
  destruct (length dirs =? length conns)%nat eqn:Hlen; simpl.
  2: { apply Nat.eqb_neq in Hlen. split; [by intros (_ & _ & _ & ? & _)|done]. }
  apply Nat.eqb_eq in Hlen. split.
  - intros (_ & _ & _ & _ & Hports).
    destruct (Hok Hports) as (s' & Hrun & Hs'). rewrite Hrun.
    rewrite Hs'. simpl. rewrite length_seq. unfold Json.keys at 1.
    rewrite length_fmap, Nat.eqb_refl. simpl.
    unfold newNode. simpl. f_equal.
    rewrite foldl_onStore. simpl. rewrite setParents_fresh.
    unfold withNode, setStore, onModule, setCurrentModule. simpl.
    rewrite <- (cellPorts_length
                  (SymbolTypes.isValidSymbolType (Json.toString cellType))
                  dirs conns 0 0 (Json.keys dirs)) at 1.
    rewrite alter_fresh, cellPorts_length. reflexivity.
  - intros q.
    destruct (ParseCells.createPorts _ _ _ _ _ p) as [p1 [s'|?]] eqn:Hrun; [|done].
    intros _. split_and!; try done. by apply (Hret p1 s').
Qed.

Lemma forEach_cons {A} (x : A) (l : list A) (body : A → M unit) p :
  forEach (x :: l) body p
  = match forEach [x] body p with
    | (p', Return _) => forEach l body p'
    | (p', Throw what) => (p', Throw what)
    end.
Proof. simpl. unfold bind, ret. by destruct (body x p) as [p' [[]|what]]. Qed.

Lemma parseCells_cons e cells p :
  parseCells (e :: cells) p
  = match parseCells [e] p with
    | (p', Return _) => parseCells cells p'
    | (p', Throw what) => (p', Throw what)
    end.
Proof. apply forEach_cons. Qed.
End CellProofs.

(** X20: [Parser::parseCells] returns exactly when every cell has a type
    that is a string, port directions and connections of the same,
    positive number, and, for every key of the directions, connection bits
    and the direction [input] or [output].  The module has then gained, in
    the order of the document, one node per cell, with the cell's name and
    type and with fresh ports that have the node as parent; a cell whose
    type is no symbol type numbers its inputs and outputs in their aliases.
    The error [Not all ports could be created successfully] cannot
    occur. *)
Theorem parseCells_return (cells : QJsonObject) (p q : Parser) :
  parseCells cells p = (q, Return tt)
  ↔ Forall (λ e, cellOk e.2) cells
    ∧ q = foldl (λ p e, withCell e.1 e.2 p) p cells.
Proof.
  revert p. induction cells as [|[name value] cells IH]; intros p.
  - simpl. unfold parseCells, ret. simpl. split.
    + by intros [= <-].
    + by intros [_ ->].
  - rewrite parseCells_cons. destruct (cell_return name value p) as [Hok Hret].
    simpl. split.
    + destruct (parseCells [(name, value)] p) as [p1 [[]|?]] eqn:Hcell; [|done].
      pose proof (Hret p1 eq_refl) as Hcok. specialize (Hok Hcok).
      injection Hok as ->. intros [Hall ->]%IH. split; [by constructor|done].
    + intros [[Hcok Hall]%Forall_cons ->]. rewrite (Hok Hcok). apply IH. done.
Qed.

(** ** The way back from a port to its path *)

Section BackProofs.
Implicit Types (p q : Parser) (s d y : PortPtr).

Lemma src_body_other p s y :
  y ≠ s →
  Port.path (port (store (ConnectSignalSrc.body p s)) y) = Port.path (port (store p) y).
Proof.
  intros Hy. unfold ConnectSignalSrc.body.
  destruct (ConnectSignalSrc.naming p s) as [pathName isHidden].
  destruct p as [dg m c [po pt no]]. unfold port. simpl.
  by rewrite lookup_total_alter_ne.
Qed.

Lemma src_loop_back srcPorts p :
  NoDup srcPorts →
  Forall (λ x, (x < length (portObj (store p)))%nat) srcPorts →
  let p1 := connectSignalSrcConnections srcPorts p in
  (∀ i s, srcPorts !! i = Some s →
          Port.path (port (store p1) s) = Some (length (pathObj (store p)) + i)%nat)
  ∧ (∀ y, y ∉ srcPorts → Port.path (port (store p1) y) = Port.path (port (store p) y)).
Proof.
  unfold connectSignalSrcConnections.
  revert p. induction srcPorts as [|s srcPorts IH]; intros p Hnd Hvalid; simpl.
  - split; [done|]. done.
  - apply NoDup_cons in Hnd as [Hs Hnd]. apply Forall_cons in Hvalid as [Hsv Hvalid].
    destruct (src_body p s) as (_ & Hobj & _ & Hpath).
    destruct (stitchKeeps_src p s) as (_ & Hlen & _).
    destruct (IH (ConnectSignalSrc.body p s)) as [IHsrc IHother];
      [done|by rewrite Hlen|].
    rewrite Hobj, length_app in IHsrc. simpl in IHsrc. split.
    + intros [|i] s' Hi; simpl in Hi.
      * injection Hi as <-. rewrite IHother by done. rewrite Hpath.
        rewrite decide_True by done. by rewrite Nat.add_0_r.
      * rewrite (IHsrc i s' Hi). f_equal. lia.
    + intros y [Hys Hy]%not_elem_of_cons. rewrite IHother by done.
      by apply src_body_other.
Qed.

Lemma dest_body_back p d y :
  (d < length (portObj (store p)))%nat →
  Port.path (port (store (ConnectSignalDest.body p d)) y)
  = if decide (y = d)
    then match YModule.getPathByBits (store p) (Port.bits (port (store p) d))
                 (currentModule p) with
         | Some pa => Some pa
         | None => Port.path (port (store p) d)
         end
    else Port.path (port (store p) y).
Proof.
  intros Hd. unfold ConnectSignalDest.body.
  destruct (YModule.getPathByBits _ _ _) as [pa|]; [|by case_decide; subst].
  destruct p as [dg m c [po pt no]]. unfold port in *. simpl in *.
  case_decide as Hy.
  - subst y. by rewrite lookup_total_alter.
  - by rewrite lookup_total_alter_ne.
Qed.

Lemma found_stitched srcPorts p q seen d :
  YModule.paths (currentModule p) = [] →
  stitchedUpTo p (connectSignalSrcConnections srcPorts p) q srcPorts seen →
  YModule.getPathByBits (store q) (Port.bits (port (store q) d)) (currentModule q)
  = (λ r, (length (pathObj (store p)) + r.1)%nat)
      <$> list_find (λ s, Port.bits (port (store p) s) = Port.bits (port (store p) d))
            srcPorts.
Proof.
  intros Hempty (Hm & _ & Hport & Hbits & _).
  rewrite Hport, <- (getPathByBits_after_src srcPorts p _ Hempty).
  by apply getPathByBits_same.
Qed.

Lemma dest_loop_back srcPorts p destPorts q seen :
  YModule.paths (currentModule p) = [] →
  Forall (λ x, (x < length (portObj (store p)))%nat) destPorts →
  let p1 := connectSignalSrcConnections srcPorts p in
  let back y :=
    match list_find (λ s, Port.bits (port (store p) s) = Port.bits (port (store p) y))
                    srcPorts with
    | Some r => Some (length (pathObj (store p)) + r.1)%nat
    | None => Port.path (port (store p1) y)
    end in
  length (portObj (store q)) = length (portObj (store p)) →
  stitchedUpTo p p1 q srcPorts seen →
  (∀ y, Port.path (port (store q) y)
        = if decide (y ∈ seen) then back y else Port.path (port (store p1) y)) →
  let q' := connectSignalDestConnections destPorts q in
  stitchedUpTo p p1 q' srcPorts (seen ++ destPorts)
  ∧ ∀ y, Port.path (port (store q') y)
         = if decide (y ∈ seen ++ destPorts) then back y
           else Port.path (port (store p1) y).
Proof.
  intros Hempty Hvalid p1 back. unfold connectSignalDestConnections.
  revert q seen. induction Hvalid as [|d destPorts Hd _ IH]; intros q seen Hlen Hq Hback;
    simpl.
  - by rewrite app_nil_r.
  - replace (seen ++ d :: destPorts) with ((seen ++ [d]) ++ destPorts)
      by (by rewrite <- app_assoc).
    apply IH.
    + destruct (stitchKeeps_dest q d) as (_ & -> & _). done.
    + by apply stitched_body.
    + intros y. rewrite dest_body_back by lia.
      rewrite (found_stitched srcPorts p q seen d Hempty Hq).
      case_decide as Hy.
      * subst y. rewrite decide_True by (apply elem_of_app; right; by left).
        unfold back at 1.
        destruct (list_find _ srcPorts) as [[j z]|] eqn:Hfind; simpl; [done|].
        rewrite Hback. case_decide; [|done]. unfold back. by rewrite Hfind.
      * rewrite Hback.
        destruct (decide (y ∈ seen)) as [Hin|Hin],
          (decide (y ∈ seen ++ [d])) as [Hin'|Hin']; try done.
        -- exfalso. apply Hin'. apply elem_of_app. by left.
        -- exfalso. apply elem_of_app in Hin' as [?|?%list_elem_of_singleton]; done.
Qed.
End BackProofs.

(** X21: after [Parser::createSignalConnections] on a module that had no
    path yet, a driver points to the path it is the source of, and every
    consumer of a path points back to that path.  The hypotheses say that
    the ports are objects of the store, that no driver is listed twice and
    that no driver is listed as a consumer too. *)
Theorem createSignalConnections_backrefs (p : Parser) :
  let srcPorts := CreateSignalConnections.srcPorts (store p) (currentModule p) in
  let destPorts := CreateSignalConnections.destPorts (store p) (currentModule p) in
  YModule.paths (currentModule p) = [] →
  NoDup srcPorts →
  Forall (λ s, s ∉ destPorts) srcPorts →
  Forall (λ x, (x < length (portObj (store p)))%nat) (srcPorts ++ destPorts) →
  let q := createSignalConnections p in
  let base := length (pathObj (store p)) in
  (∀ i s, srcPorts !! i = Some s →
     Port.path (port (store q) s) = Some (base + i)%nat
     ∧ Path.sigSource (path (store q) (base + i)%nat) = Some s)
  ∧ (∀ i d, (i < length srcPorts)%nat →
       d ∈ Path.sigDestinations (path (store q) (base + i)%nat) →
       Port.path (port (store q) d) = Some (base + i)%nat).
Proof.
  intros srcPorts destPorts Hempty Hnd Hdisj [Hsv Hdv]%Forall_app q base.
  set (p1 := connectSignalSrcConnections srcPorts p).
  destruct (src_loop_back srcPorts p Hnd Hsv) as [Hsrc Hother]. fold p1 in Hsrc, Hother.
  assert (length (portObj (store p1)) = length (portObj (store p))) as Hlen.
  { unfold p1, connectSignalSrcConnections.
    apply (foldl_invariant
             (λ st, length (portObj (store st)) = length (portObj (store p)))); [done|].
    intros st s <-. by destruct (stitchKeeps_src st s) as (_ & ? & _). }
  destruct (dest_loop_back srcPorts p destPorts p1 [] Hempty Hdv Hlen
              (stitched_after_src srcPorts p))
    as [(_ & _ & _ & _ & Hsig & Hdests) Hback].
  { intros y. by rewrite decide_False by (by intros ?%elem_of_nil). }
  simpl in Hsig, Hdests, Hback.
  change (connectSignalDestConnections destPorts p1) with q in Hsig, Hdests, Hback.
  destruct (src_loop srcPorts p) as (_ & Hobj & _).
  split.
  - intros i s Hi. split.
    + rewrite Hback.
      rewrite decide_False by (by apply (proj1 (Forall_forall _ _) Hdisj);
                               eapply list_elem_of_lookup_2).
      by apply Hsrc.
    + rewrite Hsig. unfold path, p1. rewrite Hobj.
      assert ((pathObj (store p) ++ (driverPath p <$> srcPorts)) !! (base + i)%nat
              = Some (driverPath p s)) as Hl.
      { unfold base. by rewrite lookup_app_add, list_lookup_fmap, Hi. }
      by rewrite (list_lookup_total_correct _ _ _ Hl).
  - intros i d Hi Hd. unfold base in *. rewrite (Hdests i Hi) in Hd.
    apply list_elem_of_In, filter_In in Hd as [Hin%list_elem_of_In Hatt].
    rewrite Hback, decide_True by done.
    unfold attached in Hatt. apply bool_decide_eq_true in Hatt.
    destruct (list_find _ srcPorts) as [[j z]|]; [|done].
    simpl in Hatt. by injection Hatt as ->.
Qed.

(** Scenario B after the split node. *)
Lemma createSignalConnections_backrefs_witness :
  Port.path
    (port (store (createSignalConnections
                    (createSplitNodes
                       [(["n1"; "n2"; "n3"; "n4"], [["n1"; "n2"]; ["n3"; "n4"]])]
                       (afterPorts "m" [Port.new "a" INPUT ["n1"; "n2"; "n3"; "n4"];
                                        Port.new "b" OUTPUT ["n1"; "n2"];
                                        Port.new "c" OUTPUT ["n3"; "n4"]]))))
       3%nat)
  = Some 0%nat.
Proof.
  refine (proj2 (createSignalConnections_backrefs
                   (createSplitNodes
                      [(["n1"; "n2"; "n3"; "n4"], [["n1"; "n2"]; ["n3"; "n4"]])]
                      (afterPorts "m" [Port.new "a" INPUT ["n1"; "n2"; "n3"; "n4"];
                                       Port.new "b" OUTPUT ["n1"; "n2"];
                                       Port.new "c" OUTPUT ["n3"; "n4"]]))
                   eq_refl _ _ _) 0%nat 3%nat _ _).
  - apply (bool_decide_unpack _). by vm_compute.
  - apply (bool_decide_unpack _). by vm_compute.
  - apply (bool_decide_unpack _). by vm_compute.
  - vm_compute. lia.
  - vm_compute. by left.
Defined.

(** ** The tokens that replace the constants *)

Section TokenProofs.
Implicit Types (p q : Parser) (s d : PortPtr) (o : Port.t) (bits : list string).

Lemma to_uint_nonnil (n : N) : N.to_uint n ≠ Decimal.Nil.
Proof. destruct n; [done|]. apply DecimalPos.Unsigned.to_uint_nonnil. Qed.

Lemma QString_number_inj a b :
  0 ≤ a → 0 ≤ b → QString_number a = QString_number b → a = b.
Proof.
  intros Ha Hb Heq. unfold QString_number in Heq.
  apply (f_equal NilZero.uint_of_string) in Heq.
  rewrite !NilZero.usu in Heq by apply to_uint_nonnil.
  injection Heq as Heq. apply DecimalN.Unsigned.to_uint_inj in Heq. lia.
Qed.

Lemma QString_number_nonconst k : 2 ≤ k → isConstBit (QString_number k) = false.
Proof.
  intros Hk. unfold isConstBit. apply orb_false_iff.
  split; apply bool_decide_eq_false; intros Heq.
  - apply (QString_number_inj k 0) in Heq; [lia..|done].
  - apply (QString_number_inj k 1) in Heq; [lia..|done].
Qed.

Lemma freshBits_spec m r :
  0 ≤ m → m + size r < 2 ^ 64 →
  ReplaceConstBits.freshBits m r
  = ((λ k, QString_number (m + 1 + k)) <$> seqZ 0 (size r), m + size r).
Proof.
  unfold ReplaceConstBits.freshBits.
  enough (∀ acc m0, 0 ≤ m0 → m0 + size r < 2 ^ 64 →
            foldl (λ '(bits, maxBitNumber) (_ : string),
                     let maxBitNumber := wrap64 (maxBitNumber + 1) in
                     (bits ++ [QString_number maxBitNumber], maxBitNumber))
                  (acc, m0) r
            = (acc ++ ((λ k, QString_number (m0 + 1 + k)) <$> seqZ 0 (size r)),
               m0 + size r)) as H by apply (H [] m).
  induction r as [|b r IH]; intros acc m0 Hm0 Hlt.
  - unfold size. simpl. by rewrite app_nil_r, Z.add_0_r.
  - unfold size in *. simpl length in *. rewrite Nat2Z.inj_succ in *.
    cbn [foldl]. assert (0 ≤ m0 + 1 < 2 ^ 64) as Hw by lia. rewrite (wrap64_small _ Hw). rewrite IH by lia.
    f_equal; [|lia]. rewrite <- app_assoc. f_equal.
    rewrite (seqZ_cons 0 (Z.succ (Z.of_nat (length r)))) by lia. simpl.
    rewrite Z.add_0_r. f_equal.
    replace (Z.pred (Z.succ (Z.of_nat (length r)))) with (Z.of_nat (length r)) by lia.
    rewrite <- (fmap_add_seqZ 1 0), <- list_fmap_compose.
    apply list_fmap_ext. intros _ k _. simpl. f_equal. lia.
Qed.

Lemma freshBits_nonconst m r :
  1 ≤ m → m + size r < 2 ^ 64 →
  Forall (λ b, isConstBit b = false) (ReplaceConstBits.freshBits m r).1.
Proof.
  intros Hm Hlt. rewrite freshBits_spec by lia. simpl.
  apply Forall_fmap, Forall_forall. intros k [? ?]%elem_of_seqZ. simpl.
  apply QString_number_nonconst. lia.
Qed.

(** [replaceBits] on the place of a run writes the new bits there. *)
Lemma replaceBits_segment pre r post fresh o :
  Port.bits o = pre ++ r ++ post → length fresh = length r →
  Port.bits (Port.replaceBits (size pre, size pre + size r - 1) fresh o)
  = pre ++ fresh ++ post.
Proof.
  intros Hbits Hlen. unfold Port.replaceBits. simpl. rewrite Hbits.
  replace (size pre + size r - 1 - size pre + 1) with (size r) by lia.
  enough (∀ t, (t ≤ length r)%nat →
            foldl (λ b i, <[Z.to_nat i := default EmptyString (fresh !! Z.to_nat (i - size pre))]> b)
                  (pre ++ r ++ post) (seqZ (size pre) (Z.of_nat t))
            = pre ++ take t fresh ++ drop t r ++ post) as H.
  { change (size r) with (Z.of_nat (length r)). rewrite (H (length r)) by done.
    by rewrite <- Hlen, firstn_all, Hlen, drop_all. }
  induction t as [|t IH]; intros Ht; [done|].
  rewrite seqZ_S, foldl_app, IH by lia. simpl.
  replace (size pre + Z.of_nat t - size pre) with (Z.of_nat t) by lia.
  rewrite Nat2Z.id. unfold size. rewrite <- Nat2Z.inj_add, Nat2Z.id.
  destruct (lookup_lt_is_Some_2 fresh t) as [x Hx]; [lia|]. rewrite Hx. simpl.
  destruct (lookup_lt_is_Some_2 r t) as [y Hy]; [lia|].
  rewrite (take_S_r _ _ _ Hx), (drop_S _ _ _ Hy).
  rewrite insert_app_r_alt by lia.
  replace (length pre + t - length pre)%nat with t by lia.
  rewrite insert_app_r_alt by (rewrite length_take; lia).
  rewrite length_take, Nat.min_l by lia. rewrite Nat.sub_diag. simpl.
  by rewrite <- app_assoc.
Qed.

Lemma hasConstantBits_false o :
  Port.hasConstantBits o = false ↔ noConstants (Port.bits o).
Proof.
  unfold Port.hasConstantBits, hasBit, noConstants.
  rewrite <- not_true_iff_false, existsb_exists, Forall_forall. split.
  - intros Hno b Hb. apply not_true_iff_false. intros Hc. apply Hno.
    exists b. split; [by apply list_elem_of_In|done].
  - intros Hall (b & Hb%list_elem_of_In & Hc). by rewrite (Hall b Hb) in Hc.
Qed.

Lemma keyed_noConstants off k r tl :
  keyed off ((k, r) :: tl) → runIsConst r = false → noConstants r.
Proof. simpl. intros (_ & _ & Hhom & _) Hr. by rewrite Hr in Hhom. Qed.

Lemma tokenOrSame_refl low bits : Forall2 (tokenOrSame low) bits bits.
Proof. apply Forall_Forall2_diag, Forall_forall. intros b _. by left. Qed.

Lemma tokenOrSame_mono low low' old new :
  low ≤ low' → tokenOrSame low' old new → tokenOrSame low old new.
Proof.
  intros Hle [->|(Hc & k & Hk & ->)]; [by left|].
  right. split; [done|]. exists k. split; [lia|done].
Qed.

Lemma tokenOrSame_trans low a b c :
  1 ≤ low → tokenOrSame low a b → tokenOrSame low b c → tokenOrSame low a c.
Proof.
  intros Hlow [->|(Ha & k & Hk & ->)] Hbc; [done|].
  destruct Hbc as [->|(Hb & _)].
  - right. split; [done|]. by exists k.
  - rewrite QString_number_nonconst in Hb by lia. done.
Qed.

Lemma tokens_fresh n m r :
  n ≤ m → m + size r < 2 ^ 64 → Forall (λ b, isConstBit b = true) r →
  Forall2 (tokenOrSame n) r ((λ k, QString_number (m + 1 + k)) <$> seqZ 0 (size r)).
Proof.
  intros Hnm Hlt Hr. apply Forall2_same_length_lookup_2.
  - rewrite length_fmap, length_seqZ. unfold size. lia.
  - intros i old new Hold Hnew. right.
    split; [by eapply (proj1 (Forall_forall _ _) Hr), list_elem_of_lookup_2|].
    rewrite list_lookup_fmap in Hnew.
    destruct (seqZ 0 (size r) !! i) as [k|] eqn:Hk; [|done].
    injection Hnew as <-. apply lookup_seqZ in Hk as [-> Hi].
    exists (m + 1 + (0 + Z.of_nat i)). split; [lia|done].
Qed.

Lemma run_done q n s st R k r tl :
  (s < length (portObj (store q)))%nat → 1 ≤ n →
  n + size R + size r < 2 ^ 64 →
  keyed (size R) ((k, r) :: tl) →
  runsDone q n s st R (r ++ concat tl.*2) →
  ∃ R', size R' = size R + size r
        ∧ runsDone q n s (ReplaceConstBits.run s st (k, r)) R' (concat tl.*2).
Proof.
  intros Hs Hn Hlt Hkey (Hbits & Hnc & (Rold & HB & Hold) & Hcnt & Hlen & Hother).
  pose proof Hkey as (-> & Hr & Hhom & _).
  destruct st as [q' m]. unfold ReplaceConstBits.run. simpl in *.
  destruct (runIsConst r) eqn:Hconst; simpl.
  - pose proof (freshBits_length m r) as Hfl.
    pose proof (freshBits_nonconst m r) as Hfn.
    rewrite freshBits_spec in * by lia. simpl in Hfl, Hfn.
    pose proof (tokens_fresh n m r) as Htok.
    set (fresh := (λ k, QString_number (m + 1 + k)) <$> seqZ 0 (size r)) in *.
    exists (R ++ fresh). split; [rewrite !size_app; unfold size; lia|].
    unfold createConstantPort, newPort.
    set (c := Port.setConstPortValue r _). clearbody c.
    destruct q' as [dg mo cm [po pt no]]. unfold runsDone, port in *. simpl in *.
    refine (conj _ (conj _ (conj _ (conj _ (conj _ _))))).
    + rewrite lookup_total_alter by (rewrite length_app; simpl; lia).
      rewrite lookup_total_snoc_ne by lia.
      rewrite (replaceBits_segment R r (concat tl.*2) fresh) by done.
      by rewrite <- app_assoc.
    + apply Forall_app. split; [done|]. apply Hfn; lia.
    + exists (Rold ++ r). split; [by rewrite <- app_assoc|].
      apply Forall2_app; [done|]. apply Htok; [lia|lia|done].
    + rewrite size_app. unfold size in *. lia.
    + rewrite length_alter, length_app. simpl. lia.
    + intros x Hx Hxs. rewrite lookup_total_alter_ne by done.
      rewrite lookup_total_snoc_ne by lia. by apply Hother.
  - exists (R ++ r). split; [by rewrite size_app|].
    unfold runsDone. simpl.
    refine (conj _ (conj _ (conj _ (conj _ (conj _ _))))); try done.
    + by rewrite <- app_assoc.
    + by apply Forall_app.
    + exists (Rold ++ r). split; [by rewrite <- app_assoc|].
      apply Forall2_app; [done|apply tokenOrSame_refl].
    + rewrite size_app. pose proof (size_nonneg r). lia.
Qed.

Lemma runs_done q n s runs :
  (s < length (portObj (store q)))%nat → 1 ≤ n →
  ∀ st R,
    n + size R + size (concat runs.*2) < 2 ^ 64 →
    keyed (size R) runs →
    runsDone q n s st R (concat runs.*2) →
    ∃ R', size R' = size R + size (concat runs.*2)
          ∧ runsDone q n s (foldl (ReplaceConstBits.run s) st runs) R' [].
Proof.
  intros Hs Hn. induction runs as [|[k r] tl IH]; intros st R Hlt Hkey Hst.
  - exists R. split; [unfold size; simpl; lia|done].
  - csimpl in Hlt. csimpl in Hst. rewrite size_app in Hlt.
    pose proof (size_nonneg (concat tl.*2)).
    destruct (run_done q n s st R k r tl Hs Hn) as (R1 & HR1 & Hst1);
      [lia|done|done|].
    destruct (IH (ReplaceConstBits.run s st (k, r)) R1) as (R' & HR' & Hst');
      [lia| |done|].
    + rewrite HR1. by destruct Hkey as (_ & _ & _ & ?).
    + exists R'. split; [|done]. csimpl. rewrite size_app. lia.
Qed.

Lemma totalBits_nonneg h l : 0 ≤ totalBits h l.
Proof.
  induction l as [|s l IH]; simpl; [done|].
  pose proof (size_nonneg (Port.bits (port h s))). lia.
Qed.

Lemma body_done p done s rest st :
  Forall (λ x, (x < length (portObj (store p)))%nat) (done ++ [s]) →
  size (Port.bits (port (store p) s)) ≤ qsizetype_max →
  materialized p done (s :: rest) st →
  materialized p (done ++ [s]) rest (ReplaceConstBits.body st s).
Proof.
  intros [Hdv [Hsv _]%Forall_cons]%Forall_app Hmax (Hlen & Hbl & Hnc & Hn & Hlt).
  destruct st as [q n]. simpl in *.
  set (top := YModule.getMaxBitNumber (store p) (currentModule p)) in *.
  unfold ReplaceConstBits.body. simpl.
  set (B := Port.bits (port (store q) s)).
  assert (size B = size (Port.bits (port (store p) s))) as HB.
  { unfold size, B. by rewrite (Forall2_length _ _ _ (Hbl s Hsv)). }
  destruct (splitBits_keyed B) as (Hcat & Hkey & _); [lia|].
  pose proof (totalBits_nonneg (store p) rest) as Hrest.
  destruct (runs_done q n s (splitBits B)) with (st := (q, n)) (R := @nil string)
    as (R' & HR' & Hbits & HncR & (Rold & HRold & Htok) & Hcnt & Hlen' & Hother).
  - lia.
  - lia.
  - rewrite Hcat. unfold size at 1. simpl. lia.
  - done.
  - unfold runsDone. simpl. rewrite Hcat.
    refine (conj _ (conj _ (conj _ (conj _ (conj _ _))))); try done.
    + constructor.
    + exists []. split; [done|constructor].
    + unfold size. simpl. lia.
  - rewrite Hcat in HR'. unfold size at 2 in HR'. simpl in HR'.
    rewrite app_nil_r in Hbits, HRold. fold B in HRold. subst Rold.
    destruct (foldl (ReplaceConstBits.run s) (q, n) (splitBits B)) as [q' n'].
    simpl in *. destruct q' as [dg m cm h]. unfold materialized. simpl in *.
    fold top.
    refine (conj _ (conj _ (conj _ (conj _ _)))).
    + lia.
    + intros x Hx. destruct (decide (x = s)) as [->|Hxs].
      * rewrite Hbits. specialize (Hbl s Hx). fold B in Hbl.
        apply Forall2_same_length_lookup_2.
        { rewrite (Forall2_length _ _ _ Hbl). by eapply Forall2_length. }
        intros i old new Hold Hnew.
        destruct (Forall2_lookup_l _ _ _ _ _ Hbl Hold) as (mid & Hmid & H1).
        destruct (Forall2_lookup_l _ _ _ _ _ Htok Hmid) as (new' & Hnew' & H2).
        assert (new' = new) as -> by congruence.
        apply (tokenOrSame_trans top old mid new); [lia|done|].
        eapply tokenOrSame_mono; [|exact H2]. lia.
      * rewrite Hother by (done || lia). by apply Hbl.
    + apply Forall_app. split; [|constructor; [by rewrite Hbits|done]].
      apply Forall_forall. intros x Hx.
      destruct (decide (x = s)) as [->|Hxs]; [by rewrite Hbits|].
      rewrite Hother; [by apply (proj1 (Forall_forall _ _) Hnc)| |done].
      pose proof (proj1 (Forall_forall _ _) Hdv x Hx). simpl in *. lia.
    + lia.
    + lia.
Qed.

Lemma loop_done p rest :
  ∀ done st,
    Forall (λ x, (x < length (portObj (store p)))%nat) (done ++ rest) →
    Forall (λ s, size (Port.bits (port (store p) s)) ≤ qsizetype_max) rest →
    materialized p done rest st →
    materialized p (done ++ rest) [] (foldl ReplaceConstBits.body st rest).
Proof.
  induction rest as [|s rest IH]; intros done st Hvalid Hmax Hst.
  - by rewrite app_nil_r.
  - replace (done ++ s :: rest) with ((done ++ [s]) ++ rest) in *
      by (by rewrite <- app_assoc).
    apply Forall_cons in Hmax as [Hs Hmax]. simpl. apply IH; [done..|].
    apply body_done; [|done..]. by apply Forall_app in Hvalid as [? _].
Qed.
End TokenProofs.

(** ** Reading a numeral back *)

Section NumeralProofs.
Lemma rev_app_rev_app s a b :
  String.rev_app (String.rev_app s a) b = String.rev_app a (s +:+ b).
Proof.
  revert a b. induction s as [|c s IH]; intros a b; simpl; [done|].
  rewrite IH. reflexivity.
Qed.

Lemma append_nil_r s : s +:+ EmptyString = s.
Proof.
  induction s as [|c s IH]; [done|].
  change (String c (s +:+ EmptyString) = String c s). by f_equal.
Qed.

Lemma rev_rev s : String.rev (String.rev s) = s.
Proof. unfold String.rev. by rewrite rev_app_rev_app, append_nil_r. Qed.

Lemma trimLeft_rev_digits d acc :
  trimLeft acc = acc →
  trimLeft (String.rev_app (NilEmpty.string_of_uint d) acc)
  = String.rev_app (NilEmpty.string_of_uint d) acc.
Proof.
  revert acc. induction d; intros acc Hacc; simpl; [done|..]; by apply IHd.
Qed.

Lemma trimmed_digits d :
  trimmed (NilEmpty.string_of_uint d) = NilEmpty.string_of_uint d.
Proof.
  unfold trimmed.
  assert (trimLeft (NilEmpty.string_of_uint d) = NilEmpty.string_of_uint d) as ->
    by (by destruct d).
  unfold String.rev at 2. rewrite trimLeft_rev_digits by done.
  apply rev_rev.
Qed.

Lemma digitsValue_digits u :
  u ≠ Decimal.Nil →
  digitsValue (NilEmpty.string_of_uint u) = Some (Z.of_N (N.of_uint u)).
Proof.
  intros Hu. unfold digitsValue. rewrite NilEmpty.usu. by destruct u.
Qed.

Lemma signedValue_digits u :
  u ≠ Decimal.Nil →
  signedValue (NilEmpty.string_of_uint u) = Some (Z.of_N (N.of_uint u)).
Proof.
  intros Hu. unfold signedValue. rewrite trimmed_digits.
  rewrite <- (digitsValue_digits u Hu). by destruct u.
Qed.

Lemma toULong_QString_number k :
  0 ≤ k < 2 ^ 64 → toULong (QString_number k) = k.
Proof.
  intros Hk. unfold toULong, toIntegral, QString_number.
  pose proof (to_uint_nonnil (Z.to_N k)) as Hnil.
  pose proof (DecimalN.Unsigned.of_to (Z.to_N k)) as Hof.
  assert (NilZero.string_of_uint (N.to_uint (Z.to_N k))
          = NilEmpty.string_of_uint (N.to_uint (Z.to_N k))) as ->
    by (by destruct (N.to_uint (Z.to_N k))).
  rewrite signedValue_digits, Hof by done.
  rewrite Z2N.id by lia.
  by rewrite (proj2 (Z.leb_le 0 k)), (proj2 (Z.leb_le k (2 ^ 64 - 1))) by lia.
Qed.

Lemma QString_number_numbered k : 2 ≤ k → numbered (QString_number k) = true.
Proof.
  intros Hk. unfold numbered. rewrite QString_number_nonconst by done.
  rewrite andb_true_r. apply negb_true_iff, bool_decide_eq_false.
  unfold QString_number. intros Heq.
  apply (f_equal NilZero.uint_of_string) in Heq.
  by rewrite NilZero.usu in Heq by apply to_uint_nonnil.
Qed.

Lemma getMaxBitNumber_ge h (m : YModule.t) d bit :
  d ∈ YModule.ports m ++ CreateSignalConnections.nodePorts h m →
  bit ∈ Port.bits (port h d) → numbered bit = true →
  toULong bit ≤ YModule.getMaxBitNumber h m.
Proof.
  intros Hd Hbit Hn. rewrite module_max_concat.
  destruct (foldl_max_spec (λ d, Port.getMaxBitNumber (port h d))
              (YModule.ports m ++ CreateSignalConnections.nodePorts h m) 0)
    as (_ & Hall & _).
  etrans; [|by apply Hall]. simpl. rewrite port_max_filter.
  destruct (foldl_max_spec toULong (List.filter numbered (Port.bits (port h d))) 0)
    as (_ & Hall' & _).
  apply Hall'. apply list_elem_of_In, filter_In.
  split; [by apply list_elem_of_In|done].
Qed.

Lemma token_fresh h (m : YModule.t) k d bit :
  1 ≤ YModule.getMaxBitNumber h m → YModule.getMaxBitNumber h m < k < 2 ^ 64 →
  d ∈ YModule.ports m ++ CreateSignalConnections.nodePorts h m →
  bit ∈ Port.bits (port h d) → bit ≠ QString_number k.
Proof.
  intros Htop Hk Hd Hbit ->.
  pose proof (getMaxBitNumber_ge h m d _ Hd Hbit (QString_number_numbered k ltac:(lia)))
    as Hle.
  rewrite toULong_QString_number in Hle by lia. lia.
Qed.
End NumeralProofs.

(** X22: when the module has a net number of at least 1 and the counter
    cannot leave 64 bits, [Parser::replaceConstBits] leaves no constant
    literal on the ports it works on, the OUTPUT ports of the module and
    the INPUT ports of its nodes that had one: a bit that is no constant
    stays, and a constant becomes the decimal numeral of a number above the
    highest net number, which no port of the module had among its bits.
    The other hypotheses say that these ports are objects of the store and
    that their bit lists have the size of a [QStringList]. *)
Theorem replaceConstBits_fresh_tokens (p : Parser) :
  let srcPorts := ReplaceConstBits.srcPorts (store p) (currentModule p) in
  let top := YModule.getMaxBitNumber (store p) (currentModule p) in
  1 ≤ top →
  top + totalBits (store p) srcPorts < 2 ^ 64 →
  Forall (λ s, (s < length (portObj (store p)))%nat) srcPorts →
  Forall (λ s, size (Port.bits (port (store p) s)) ≤ qsizetype_max) srcPorts →
  Forall (λ s, Port.hasConstantBits (port (store (replaceConstBits p)) s) = false
               ∧ Forall2 (freshToken p) (Port.bits (port (store p) s))
                   (Port.bits (port (store (replaceConstBits p)) s)))
         srcPorts.
Proof.
  intros srcPorts top Htop Hlt Hvalid Hmax.
  pose proof (loop_done p srcPorts [] (p, top) Hvalid Hmax) as (_ & Htok & Hnc & _).
  { unfold materialized. simpl. fold top. split_and!; try done; try lia.
    intros x _. apply tokenOrSame_refl. }
  simpl in Htok, Hnc. fold top in Htok.
  change (foldl ReplaceConstBits.body (p, top) srcPorts).1
    with (replaceConstBits p) in Htok, Hnc.
  apply Forall_forall. intros s Hs.
  pose proof (proj1 (Forall_forall _ _) Hnc s Hs) as Hno.
  pose proof (Htok s (proj1 (Forall_forall _ _) Hvalid s Hs)) as Hrel.
  split; [by apply hasConstantBits_false|].
  apply Forall2_same_length_lookup_2; [by eapply Forall2_length|].
  intros i old new Hold Hnew.
  destruct (Forall2_lookup_l _ _ _ _ _ Hrel Hold) as (new' & Hnew' & Hon).
  assert (new' = new) as -> by congruence.
  assert (isConstBit new = false) as Hnew0
    by (by eapply (proj1 (Forall_forall _ _) Hno), list_elem_of_lookup_2).
  unfold freshToken. fold top.
  destruct (isConstBit old) eqn:Ho; destruct Hon as [->|(Hc & k & Hk & ->)];
    try congruence.
  exists k. split; [done|]. split; [done|]. intros d bit Hd Hbit.
  by apply (token_fresh (store p) (currentModule p) k d bit).
Qed.

(** An output port with one constant bit between the nets 5 and 7: the
    constant becomes 8. *)
Lemma replaceConstBits_fresh_tokens_witness :
  Forall (λ s, Port.hasConstantBits
                 (port (store (replaceConstBits
                                 (afterPorts "m" [Port.new "o" OUTPUT ["5"; "0"; "7"]])))
                    s) = false
               ∧ Forall2 (freshToken (afterPorts "m" [Port.new "o" OUTPUT ["5"; "0"; "7"]]))
                   (Port.bits (port (store (afterPorts "m"
                                              [Port.new "o" OUTPUT ["5"; "0"; "7"]])) s))
                   (Port.bits
                      (port (store (replaceConstBits
                                      (afterPorts "m"
                                         [Port.new "o" OUTPUT ["5"; "0"; "7"]]))) s)))
         [0%nat].
Proof.
  apply (replaceConstBits_fresh_tokens
           (afterPorts "m" [Port.new "o" OUTPUT ["5"; "0"; "7"]])).
  - by vm_compute.
  - by vm_compute.
  - repeat constructor.
  - repeat constructor. by vm_compute.
Defined.

(** ** A bit that nothing drives *)

Section UnresolvedProofs.
Implicit Types (st : Pools) (D A : list string) (t : Task).

Lemma guard_size D t :
  startIdx t < size D → 1 ≤ endIdx t - startIdx t →
  (startIdx t >=? size D) || (endIdx t - startIdx t <? 1) = false.
Proof. exact (guard_false D t). Qed.

Lemma claim_maps D st :
  splitInfo (CreateSplitJoin.claim D st) = splitInfo st
  ∧ joinInfo (CreateSplitJoin.claim D st) = joinInfo st.
Proof. unfold CreateSplitJoin.claim. by case_match. Qed.

(** The turn on a query of one bit that no source and no sink contains
    shrinks the query to nothing, and the turn on the empty query drops
    it. *)
Lemma turn_unresolved nested D st t tasks :
  startIdx t < size D → 1 ≤ endIdx t - startIdx t →
  size (querryBits t) = 1 →
  indexOfContains (srcPorts st) (querryBits t) = -1 →
  indexOfContains (destPorts (CreateSplitJoin.claim D st)) (querryBits t) = -1 →
  CreateSplitJoin.turn nested D st t tasks
  = Some (CreateSplitJoin.claim D st, CreateSplitJoin.shrunk D t :: tasks)
  ∧ endIdx (CreateSplitJoin.shrunk D t) = startIdx t
  ∧ querryBits (CreateSplitJoin.shrunk D t) = []
  ∧ ∀ st', CreateSplitJoin.turn nested D st' (CreateSplitJoin.shrunk D t) tasks
           = Some (CreateSplitJoin.claim D st', tasks).
Proof.
  intros Hs He Hq Hsrc Hdst.
  assert (querryBits t ≠ []) as Hne by (intros E; by rewrite E in Hq).
  split_and!.
  - unfold CreateSplitJoin.turn. cbv zeta.
    rewrite (guard_size D t Hs He), claim_srcPorts.
    rewrite (contains_indexOfContains _ _ Hne Hsrc), Hsrc, Hdst. done.
  - unfold CreateSplitJoin.shrunk. simpl. lia.
  - unfold CreateSplitJoin.shrunk. simpl. rewrite Hq.
    unfold QList.mid. change (1 - 1) with 0. unfold size in *.
    repeat case_match; try done; try lia.
  - intros st'. unfold CreateSplitJoin.turn, CreateSplitJoin.shrunk. cbv zeta.
    simpl. rewrite Hq.
    replace (startIdx t + 1 - 1 - startIdx t <? 1) with true
      by (symmetry; apply Z.ltb_lt; lia).
    by rewrite orb_true_r.
Qed.

Lemma mid_front A (bit : string) :
  QList.mid (A ++ [bit]) 0 (size (A ++ [bit]) - 1) = A.
Proof.
  unfold QList.mid, size. rewrite length_app. simpl.
  replace (Z.of_nat (length A + 1) - 1) with (Z.of_nat (length A)) by lia.
  destruct (Z.gtb_spec 0 (Z.of_nat (length A + 1))); [lia|].
  change (0 <? 0) with false. cbv iota.
  destruct (Z.ltb_spec (Z.of_nat (length A)) 0); [lia|].
  destruct (Z.gtb_spec (Z.of_nat (length A)) (Z.of_nat (length A + 1) - 0)); [lia|].
  simpl. rewrite Nat2Z.id. change (Z.to_nat 0) with 0%nat. simpl.
  rewrite drop_0. by rewrite take_app_length.
Qed.

Lemma mid_back A (bit : string) :
  QList.mid (A ++ [bit]) (size A) (size (A ++ [bit]) - size A) = [bit].
Proof.
  unfold QList.mid, size. rewrite length_app. simpl.
  replace (Z.of_nat (length A + 1) - Z.of_nat (length A)) with 1 by lia.
  destruct (Z.gtb_spec (Z.of_nat (length A)) (Z.of_nat (length A + 1))); [lia|].
  destruct (Z.ltb_spec (Z.of_nat (length A)) 0); [lia|].
  change (1 <? 0) with false.
  destruct (Z.gtb_spec 1 (Z.of_nat (length A + 1) - Z.of_nat (length A))); [lia|].
  simpl. rewrite Nat2Z.id, drop_app_length. done.
Qed.

Lemma claim_absent D st :
  QList.contains (destPorts st) D = false → CreateSplitJoin.claim D st = st.
Proof.
  unfold QList.contains, CreateSplitJoin.claim.
  intros H. apply negb_false_iff in H. by rewrite H.
Qed.

Lemma claim_noteJoin D q st :
  CreateSplitJoin.claim D st = st →
  CreateSplitJoin.claim D (CreateSplitJoin.noteJoin D q st)
  = CreateSplitJoin.noteJoin D q st.
Proof.
  unfold CreateSplitJoin.claim, CreateSplitJoin.noteJoin.
  case_bool_decide; simpl; [|done].
  destruct (_ =? -1) eqn:E; [done|].
  intros Hst. exfalso.
  assert (length (destPorts st)
          = length (QList.remove (destPorts st)
                      (QList.indexOf (destPorts st) D))) as Hl
    by (by rewrite <- Hst at 1).
  apply Z.eqb_neq in E.
  pose proof (indexOf_nonneg (destPorts st) D) as Hge.
  assert (QList.indexOf (destPorts st) D
          < Z.of_nat (length (destPorts st))) as Hlt.
  { clear. induction (destPorts st) as [|h l IH]; simpl; [lia|].
    repeat case_match; lia. }
  unfold QList.remove in Hl. rewrite length_app, length_take, length_drop in Hl.
  lia.
Qed.

(** A sink made of a source followed by one bit that nothing drives: the
    source is recorded as a part of the sink, the bit is not. *)
Lemma trailing_bit st D A bit depth fuel :
  D = A ++ [bit] →
  (1 ≤ depth)%nat → (4 ≤ fuel)%nat →
  A ≠ [] →
  QList.contains (srcPorts st) A = true →
  indexOfContains (srcPorts st) D = -1 →
  indexOfContains (destPorts (CreateSplitJoin.claim D st)) D = -1 →
  indexOfContains (srcPorts st) [bit] = -1 →
  indexOfContains (destPorts (CreateSplitJoin.claim D st)) [bit] = -1 →
  createSplitJoin depth fuel st D 0 (size D)
  = Some (mkPools (srcPorts st)
            (destPorts (CreateSplitJoin.claim D st))
            (splitInfo st)
            (addToMap (joinInfo st) D A)).
Proof.
  intros ED Hd Hf HA Hin HsD HdD Hsb Hdb.
  assert (D ≠ []) as HD by (rewrite ED; by destruct A).
  assert (size D = size A + 1) as Hsize
    by (rewrite ED; unfold size; rewrite length_app; simpl; lia).
  assert (0 < size A) as HposA by (by apply size_pos).
  assert (QList.mid D 0 (size D - 1) = A) as Hfront
    by (rewrite ED; apply mid_front).
  assert (QList.mid D (size A) (size D - size A) = [bit]) as Hback
    by (rewrite ED; apply mid_back).
  destruct (claim_maps D st) as [Hsplit1 Hjoin1].
  pose proof (claim_srcPorts D st) as Hsrc1.
  remember (CreateSplitJoin.claim D st) as st1 eqn:Est1.
  assert (CreateSplitJoin.claim D st1 = st1) as Hfix
    by (apply claim_absent; by apply contains_indexOfContains).
  assert (bool_decide (A ≠ D) = true) as HAD.
  { apply bool_decide_eq_true_2. intros E.
    apply (f_equal size) in E. lia. }
  pose proof (claim_noteJoin D A st1 Hfix) as Hfix2.
  assert (CreateSplitJoin.noteJoin D A st1
          = mkPools (srcPorts st) (destPorts st1) (splitInfo st)
              (addToMap (joinInfo st) D A)) as Hnote.
  { unfold CreateSplitJoin.noteJoin. rewrite HAD. by rewrite Hsrc1, Hsplit1, Hjoin1. }
  remember (CreateSplitJoin.noteJoin D A st1) as st2 eqn:Est2.
  destruct depth as [|depth]; [lia|].
  destruct fuel as [|[|[|[|fuel]]]]; [lia..|].
  cbn [createSplitJoin].
  set (nested := λ (st0 : Pools) (querryBits0 : list string), _).
  clearbody nested.
  rewrite mid_all. cbn [CreateSplitJoin.loop].
  (* the whole sink *)
  assert (CreateSplitJoin.turn nested D st (mkTask 0 (size D) D) []
          = Some (st1, [mkTask 0 (size A) A])) as ->.
  { unfold CreateSplitJoin.turn. cbv zeta. rewrite <- Est1.
    rewrite guard_size by (simpl; lia).
    cbn [querryBits]. rewrite Hsrc1.
    rewrite (contains_indexOfContains _ _ HD HsD), HsD, HdD.
    unfold CreateSplitJoin.shrunk. cbn [startIdx querryBits negb Z.eqb].
    rewrite Hfront. do 3 f_equal. f_equal. lia. }
  (* the source in front *)
  assert (CreateSplitJoin.turn nested D st1 (mkTask 0 (size A) A) []
          = Some (st2, [mkTask (size A) (size D) [bit]])) as ->.
  { unfold CreateSplitJoin.turn. cbv zeta. rewrite Hfix.
    rewrite guard_size by (simpl; lia).
    cbn [querryBits]. rewrite Hsrc1, Hin. rewrite <- Est2.
    unfold CreateSplitJoin.remainder. cbn [endIdx]. by rewrite Hback. }
  (* the bit *)
  assert (indexOfContains (srcPorts st2) [bit] = -1) as Hsb2
    by (by rewrite Hnote).
  assert (indexOfContains (destPorts (CreateSplitJoin.claim D st2)) [bit] = -1)
    as Hdb2 by (rewrite Hfix2, Hnote; by simpl).
  destruct (turn_unresolved nested D st2 (mkTask (size A) (size D) [bit]) []
              ltac:(simpl; lia) ltac:(simpl; lia) eq_refl Hsb2 Hdb2)
    as (Hturn & _ & _ & Hdrop).
  rewrite Hturn, Hdrop, Hfix2, Hfix2. destruct fuel; simpl; by rewrite Hnote.
Qed.
End UnresolvedProofs.

(** C4: [createSplitJoin], seeded as its callers seed it, returns for all
    pools and every sequence once the nesting bound is 2 and the turn bound
    is [resolveFuel]; the seed is a slice of the sequence, and a turn on a
    slice either pushes nothing or pushes one slice that starts further
    right, or starts at the same place with a shorter query;
    the nested call, made on an empty sink list, needs no nesting of its
    own.  A query of one bit that no source and no sink contains, wherever
    it lies in the sequence, is shrunk to the empty query by its turn and
    dropped by the next, and neither turn touches the sources or the maps.
    So a sequence that is one such bit leaves the sources and both maps as
    they were, and a sequence made of a source followed by one such bit
    records the source as its part and nothing for the bit. *)
Theorem createSplitJoin_terminates (st : Pools) (toSolve : list string) :
  (∀ depth fuel,
     (2 ≤ depth)%nat → (resolveFuel (length toSolve) ≤ fuel)%nat →
     is_Some (createSplitJoin depth fuel st toSolve 0 (size toSolve)))
  ∧ taskOk toSolve
      (mkTask 0 (size toSolve) (QList.mid toSolve 0 (size toSolve - 0)))
  ∧ (∀ nested current tasks st' tasks',
       taskOk toSolve current →
       CreateSplitJoin.turn nested toSolve st current tasks = Some (st', tasks') →
       tasks' = tasks
       ∨ ∃ next, tasks' = next :: tasks ∧ taskOk toSolve next
                 ∧ (startIdx current < startIdx next
                    ∨ (startIdx next = startIdx current
                       ∧ (length (querryBits next) < length (querryBits current))%nat)))
  ∧ (∀ depth fuel querryBits,
       let scratch := mkPools (srcPorts st) [] (splitInfo st) (joinInfo st) in
       createSplitJoin (S depth) fuel scratch querryBits 0 (size querryBits)
       = createSplitJoin 1 fuel scratch querryBits 0 (size querryBits))
  ∧ (∀ bit depth fuel,
       toSolve = [bit] → (1 ≤ depth)%nat → (2 ≤ fuel)%nat →
       indexOfContains (srcPorts st) [bit] = -1 →
       indexOfContains (destPorts (CreateSplitJoin.claim [bit] st)) [bit] = -1 →
       ∃ st', createSplitJoin depth fuel st toSolve 0 (size toSolve) = Some st'
              ∧ srcPorts st' = srcPorts st
              ∧ splitInfo st' = splitInfo st ∧ joinInfo st' = joinInfo st)
  ∧ (∀ nested current tasks,
       startIdx current < size toSolve →
       1 ≤ endIdx current - startIdx current →
       size (querryBits current) = 1 →
       indexOfContains (srcPorts st) (querryBits current) = -1 →
       indexOfContains (destPorts (CreateSplitJoin.claim toSolve st))
         (querryBits current) = -1 →
       let st1 := CreateSplitJoin.claim toSolve st in
       let rest := CreateSplitJoin.shrunk toSolve current in
       CreateSplitJoin.turn nested toSolve st current tasks = Some (st1, rest :: tasks)
       ∧ querryBits rest = []
       ∧ CreateSplitJoin.turn nested toSolve st1 rest tasks
         = Some (CreateSplitJoin.claim toSolve st1, tasks)
       ∧ srcPorts (CreateSplitJoin.claim toSolve st1) = srcPorts st
       ∧ splitInfo (CreateSplitJoin.claim toSolve st1) = splitInfo st
       ∧ joinInfo (CreateSplitJoin.claim toSolve st1) = joinInfo st)
  ∧ (∀ known bit depth fuel,
       toSolve = known ++ [bit] → known ≠ [] →
       (1 ≤ depth)%nat → (4 ≤ fuel)%nat →
       QList.contains (srcPorts st) known = true →
       indexOfContains (srcPorts st) toSolve = -1 →
       indexOfContains (destPorts (CreateSplitJoin.claim toSolve st)) toSolve = -1 →
       indexOfContains (srcPorts st) [bit] = -1 →
       indexOfContains (destPorts (CreateSplitJoin.claim toSolve st)) [bit] = -1 →
       createSplitJoin depth fuel st toSolve 0 (size toSolve)
       = Some (mkPools (srcPorts st)
                 (destPorts (CreateSplitJoin.claim toSolve st))
                 (splitInfo st)
                 (addToMap (joinInfo st) toSolve known))).
Proof.
  split_and!.
  - intros. by apply createSplitJoin_total.
  - by split.
  - intros. by eapply turn_progress.
  - intros. by apply createSplitJoin_leaf.
  - intros bit depth fuel -> Hd Hf Hs Hdst.
    eexists. split; [by apply unresolved_bit|].
    unfold CreateSplitJoin.claim. by repeat case_match.
  - intros nested current tasks Hs He Hq Hsrc Hdst st1 rest.
    destruct (turn_unresolved nested toSolve st current tasks Hs He Hq Hsrc Hdst)
      as (Hturn & _ & Hrest & Hdrop).
    split_and!; [done | done | apply Hdrop | ..];
      unfold st1, CreateSplitJoin.claim; by repeat case_match.
  - intros known bit depth fuel Hk Hne Hd Hf Hin HsD HdD Hsb Hdb.
    by apply (trailing_bit st toSolve known bit).
Qed.

(** Scenario E: the sink [n1; n9] against the source [n1].  The driven
    bit is recorded as a part of the sink, the floating bit [n9] is
    recorded nowhere. *)
Lemma createSplitJoin_terminates_witness :
  createSplitJoin 2 (resolveFuel 2)
    (mkPools [["n1"]] [["n1"; "n9"]] [] []) ["n1"; "n9"] 0 2
  = Some (mkPools [["n1"]] [] [] [(["n1"; "n9"], [["n1"]])]).
Proof.
  apply (proj2 (proj2 (proj2 (proj2 (proj2 (proj2
           (createSplitJoin_terminates
              (mkPools [["n1"]] [["n1"; "n9"]] [] []) ["n1"; "n9"]))))))
           ["n1"] "n9" 2%nat (resolveFuel 2));
    vm_compute; (done || lia).
Defined.

(** ** The checks of a module and their exceptions *)

Section RefuseProofs.
Implicit Types (p q : Parser) (name what : string) (module cell : QJsonValue).

(** A module that passes the check of its paths has a path, so the check
    for a module without components has nothing left to refuse. *)
Lemma isEmpty_valid h m :
  YModule.hasModuleInvalidPaths h m = false → YModule.isEmpty m = false.
Proof.
  unfold YModule.hasModuleInvalidPaths, YModule.isEmpty.
  intros [_ H]%orb_false_iff. by rewrite H.
Qed.

(** The loop body of [parse], check by check. *)
Lemma body_steps name module p1 :
  isBlackbox module = false →
  Parse.body name module p1
  = match parseNetnames
            (Json.toObject (Json.jat (Json.toObject module) YosysJson.netnames))
            (setCurrentModule (YModule.new name) p1) with
    | (pa, Throw what) => (pa, Throw what)
    | (pa, Return _) =>
      match parsePorts
              (Json.toObject (Json.jat (Json.toObject module) YosysJson.ports)) pa with
      | (pb, Throw what) => (pb, Throw what)
      | (pb, Return _) =>
        match parseCells
                (Json.toObject (Json.jat (Json.toObject module) YosysJson.cells)) pb with
        | (pc, Throw what) => (pc, Throw what)
        | (pc, Return _) =>
          if bool_decide (YModule.ports (currentModule pc) = [])
             && bool_decide (YModule.nodes (currentModule pc) = [])
          then (pc, Throw ("Error while parsing " +:+ name
                           +:+ ": Module has no Ports or Nodes"))
          else if YModule.hasModuleInvalidPaths (store (pipeline pc))
                    (currentModule (pipeline pc))
          then (pipeline pc, Throw ("Error while parsing " +:+ name
                                    +:+ ": Module has no Paths or Nodes"))
          else
            let q := setDiagram (Diagram.addModule (currentModule (pipeline pc))
                                   (diagram (pipeline pc))) (pipeline pc) in
            (if isTop module
             then setDiagram (Diagram.setTopModule (currentModule q) (diagram q)) q
             else q,
             Return tt)
        end
      end
    end.
Proof.
  unfold isBlackbox, isTop, Parse.body. cbv beta zeta. intros ->.
  unfold bind at 1. unfold modify at 1.
  unfold bind at 1. destruct (parseNetnames _ _) as [pa [[]|?]]; [|done].
  unfold bind at 1. destruct (parsePorts _ _) as [pb [[]|?]]; [|done].
  unfold bind at 1. destruct (parseCells _ _) as [pc [[]|?]]; [|done].
  unfold bind at 1. unfold get at 1.
  destruct (_ && _); [done|].
  unfold bind, modify, get. fold (pipeline pc).
  set (p4 := pipeline pc). clearbody p4.
  destruct (YModule.hasModuleInvalidPaths _ _) eqn:Hinv; [done|].
  rewrite (isEmpty_valid _ _ Hinv).
  by destruct (negb _).
Qed.

(** The cells in front of a cell that is refused have become nodes. *)
Lemma parseCells_refused cpre cname cell cpost p q what :
  Forall (λ e, cellOk e.2) cpre →
  parseCells [(cname, cell)] (foldl (λ p e, withCell e.1 e.2 p) p cpre)
  = (q, Throw what) →
  parseCells (cpre ++ (cname, cell) :: cpost) p = (q, Throw what).
Proof.
  intros Hok. revert p. induction Hok as [|[n v] cpre Hv _ IH]; intros p Hbad.
  - simpl in *. rewrite parseCells_cons. by rewrite Hbad.
  - simpl in *. rewrite parseCells_cons.
    rewrite (proj1 (cell_return n v p) Hv). by apply IH.
Qed.

Lemma cell_type_refused cname cell p :
  Json.isString (Json.jat (Json.toObject cell) YosysJson.type) = false →
  parseCells [(cname, cell)] p
  = (p, Throw ("Error while parsing " +:+ cname +:+ ": Cell type is not valid")).
Proof.
  intros Ht. unfold parseCells. cbn [forEach]. cbv zeta.
  unfold bind. by rewrite Ht.
Qed.

Lemma cell_counts_refused cname cell p :
  let portDirections :=
    Json.toObject (Json.jat (Json.toObject cell) YosysJson.port_directions) in
  let portConnections :=
    Json.toObject (Json.jat (Json.toObject cell) YosysJson.connections) in
  Json.isString (Json.jat (Json.toObject cell) YosysJson.type) = true →
  portDirections ≠ [] → portConnections ≠ [] →
  length portDirections ≠ length portConnections →
  parseCells [(cname, cell)] p
  = (p, Throw ("Error while parsing " +:+ cname +:+
               ": the number of port direction definitions does not match the number of port connections")).
Proof.
  intros dirs conns Ht Hd Hc Hl. unfold parseCells. cbn [forEach]. cbv zeta.
  fold dirs conns. unfold bind. rewrite Ht.
  rewrite (bool_decide_eq_false_2 _ Hd), (bool_decide_eq_false_2 _ Hc).
  apply Nat.eqb_neq in Hl. rewrite Hl. done.
Qed.

(** The reading of the net names gives a module no port and no node. *)
Lemma members_bare netnames p :
  YModule.netnames (currentModule p) = [] →
  YModule.ports (currentModule p) = [] ∧ YModule.nodes (currentModule p) = [] →
  YModule.ports (currentModule (parseNetnames netnames p).1) = []
  ∧ YModule.nodes (currentModule (parseNetnames netnames p).1) = [].
Proof.
  intros Hnet [Hp Hn].
  assert (netnamesGrow p p) as Hpp.
  { split_and!; try done.
    - rewrite Hnet. constructor.
    - intros i n Hi. by rewrite Hnet in Hi. }
  destruct (netnamesGrow_parseNetnames netnames p p Hpp)
    as (_ & _ & _ & _ & _ & _ & Hp' & Hn' & _).
  by rewrite Hp', Hn'.
Qed.

(** An exception of the loop body is the exception of [parse]. *)
Lemma parse_refused yosysJsonObject pre post name module p p1 p2 what :
  Json.toObject (Json.jat yosysJsonObject YosysJson.modules)
    = pre ++ (name, module) :: post →
  forEach pre (λ '(name, module), Parse.body name module) p = (p1, Return tt) →
  Parse.body name module p1 = (p2, Throw what) →
  parse yosysJsonObject p = (p2, Throw what) ∧ diagram p2 = diagram p1.
Proof.
  intros Hmods Hpre Hbody. split.
  - unfold parse. rewrite Hmods.
    rewrite bool_decide_eq_false_2 by (by destruct pre).
    by apply (forEach_throw pre post (name, module)
                (λ '(name, module), Parse.body name module) p p1 p2 what).
  - by eapply throwKeeps_body.
Qed.
End RefuseProofs.

(** C5, as the code has it.  For a module of the document that [parse]
    reads after the modules in front of it were accepted:
    any exception of the loop body is the exception of [parse], whatever
    modules follow, and the diagram holds what it held before that module;
    a module that has no port and no node after its members were read,
    as is every module whose document has no ports and no cells, is
    refused with [Module has no Ports or Nodes];
    a cell whose type is no string is refused with [Cell type is not
    valid], and a cell whose port directions and connections differ in
    number with the message about their number, both under the name of the
    cell and once the cells in front of it have become nodes;
    a module that has an invalid path, or no path, after the pruning is
    refused with [Module has no Paths or Nodes];
    a module that passes this check is not empty and joins the diagram, so
    [Module has no components] is never thrown;
    the module without members is refused in any state. *)
Theorem parse_aborts_on_module_error
    (yosysJsonObject pre post : QJsonObject) (name : string) (module : QJsonValue)
    (p p1 : Parser) :
  Json.toObject (Json.jat yosysJsonObject YosysJson.modules)
    = pre ++ (name, module) :: post →
  forEach pre (λ '(name, module), Parse.body name module) p = (p1, Return tt) →
  isBlackbox module = false →
  let netnames := Json.toObject (Json.jat (Json.toObject module) YosysJson.netnames) in
  let ports := Json.toObject (Json.jat (Json.toObject module) YosysJson.ports) in
  let cells := Json.toObject (Json.jat (Json.toObject module) YosysJson.cells) in
  let p0 := setCurrentModule (YModule.new name) p1 in
  let refused (q : Parser) (reason : string) :=
    parse yosysJsonObject p = (q, Throw reason) ∧ diagram q = diagram p1 in
  (∀ p2 what, Parse.body name module p1 = (p2, Throw what) → refused p2 what)
  ∧ (∀ pa pb pc,
       parseNetnames netnames p0 = (pa, Return tt) →
       parsePorts ports pa = (pb, Return tt) →
       parseCells cells pb = (pc, Return tt) →
       YModule.ports (currentModule pc) = [] →
       YModule.nodes (currentModule pc) = [] →
       refused pc ("Error while parsing " +:+ name +:+ ": Module has no Ports or Nodes"))
  ∧ (∀ pa,
       parseNetnames netnames p0 = (pa, Return tt) →
       ports = [] → cells = [] →
       refused pa ("Error while parsing " +:+ name +:+ ": Module has no Ports or Nodes"))
  ∧ (∀ pa pb cpre cname cell cpost,
       parseNetnames netnames p0 = (pa, Return tt) →
       parsePorts ports pa = (pb, Return tt) →
       cells = cpre ++ (cname, cell) :: cpost →
       Forall (λ e, cellOk e.2) cpre →
       Json.isString (Json.jat (Json.toObject cell) YosysJson.type) = false →
       refused (foldl (λ p e, withCell e.1 e.2 p) pb cpre)
         ("Error while parsing " +:+ cname +:+ ": Cell type is not valid"))
  ∧ (∀ pa pb cpre cname cell cpost,
       parseNetnames netnames p0 = (pa, Return tt) →
       parsePorts ports pa = (pb, Return tt) →
       cells = cpre ++ (cname, cell) :: cpost →
       Forall (λ e, cellOk e.2) cpre →
       Json.isString (Json.jat (Json.toObject cell) YosysJson.type) = true →
       Json.toObject (Json.jat (Json.toObject cell) YosysJson.port_directions) ≠ [] →
       Json.toObject (Json.jat (Json.toObject cell) YosysJson.connections) ≠ [] →
       length (Json.toObject (Json.jat (Json.toObject cell) YosysJson.port_directions))
       ≠ length (Json.toObject (Json.jat (Json.toObject cell) YosysJson.connections)) →
       refused (foldl (λ p e, withCell e.1 e.2 p) pb cpre)
         ("Error while parsing " +:+ cname +:+
          ": the number of port direction definitions does not match the number of port connections"))
  ∧ (∀ pa pb pc,
       parseNetnames netnames p0 = (pa, Return tt) →
       parsePorts ports pa = (pb, Return tt) →
       parseCells cells pb = (pc, Return tt) →
       ¬ (YModule.ports (currentModule pc) = [] ∧ YModule.nodes (currentModule pc) = []) →
       YModule.hasModuleInvalidPaths (store (pipeline pc)) (currentModule (pipeline pc))
       = true →
       refused (pipeline pc)
         ("Error while parsing " +:+ name +:+ ": Module has no Paths or Nodes"))
  ∧ (∀ pa pb pc,
       parseNetnames netnames p0 = (pa, Return tt) →
       parsePorts ports pa = (pb, Return tt) →
       parseCells cells pb = (pc, Return tt) →
       ¬ (YModule.ports (currentModule pc) = [] ∧ YModule.nodes (currentModule pc) = []) →
       YModule.hasModuleInvalidPaths (store (pipeline pc)) (currentModule (pipeline pc))
       = false →
       YModule.isEmpty (currentModule (pipeline pc)) = false
       ∧ ∃ q, Parse.body name module p1 = (q, Return tt)
              ∧ Diagram.modules (diagram q)
                = Diagram.modules (diagram (pipeline pc)) ++ [currentModule (pipeline pc)])
  ∧ (∀ q, Parse.body name (JObject []) q
          = (setCurrentModule (YModule.new name) q,
             Throw ("Error while parsing " +:+ name
                    +:+ ": Module has no Ports or Nodes"))).
Proof.
  intros Hmods Hpre Hbb netnames ports cells p0 refused.
  pose proof (body_steps name module p1 Hbb) as Hbody.
  fold netnames ports cells p0 in Hbody.
  assert (∀ p2 what, Parse.body name module p1 = (p2, Throw what) → refused p2 what)
    as Hrefused.
  { intros p2 what H. by eapply parse_refused. }
  assert (∀ pc, ¬ (YModule.ports (currentModule pc) = []
                   ∧ YModule.nodes (currentModule pc) = []) →
                bool_decide (YModule.ports (currentModule pc) = [])
                && bool_decide (YModule.nodes (currentModule pc) = []) = false) as Hsome.
  { intros pc H. apply andb_false_iff.
    destruct (decide (YModule.ports (currentModule pc) = [])) as [H1|H1];
      [right|left]; apply bool_decide_eq_false_2; [|done]. intros H2. by apply H. }
  assert (∀ pa pb pc,
            parseNetnames netnames p0 = (pa, Return tt) →
            parsePorts ports pa = (pb, Return tt) →
            parseCells cells pb = (pc, Return tt) →
            YModule.ports (currentModule pc) = [] →
            YModule.nodes (currentModule pc) = [] →
            refused pc ("Error while parsing " +:+ name
                        +:+ ": Module has no Ports or Nodes")) as Hbare.
  { intros pa pb pc Ha Hb Hc Hports Hnodes. apply Hrefused.
    rewrite Hbody, Ha, Hb, Hc, Hports, Hnodes. done. }
  split_and!.
  - exact Hrefused.
  - exact Hbare.
  - intros pa Ha Hports Hcells.
    destruct (members_bare netnames p0 eq_refl (conj eq_refl eq_refl)) as [Hp Hn].
    rewrite Ha in Hp, Hn.
    apply (Hbare pa pa pa Ha); [by rewrite Hports | by rewrite Hcells | done..].
  - intros pa pb cpre cname cell cpost Ha Hb Hcells Hok Htype. apply Hrefused.
    rewrite Hbody, Ha, Hb, Hcells.
    by rewrite (parseCells_refused cpre cname cell cpost pb _ _ Hok
                  (cell_type_refused cname cell _ Htype)).
  - intros pa pb cpre cname cell cpost Ha Hb Hcells Hok Htype Hd Hc Hl. apply Hrefused.
    rewrite Hbody, Ha, Hb, Hcells.
    by rewrite (parseCells_refused cpre cname cell cpost pb _ _ Hok
                  (cell_counts_refused cname cell _ Htype Hd Hc Hl)).
  - intros pa pb pc Ha Hb Hc Hne Hinv. apply Hrefused.
    rewrite Hbody, Ha, Hb, Hc, (Hsome pc Hne), Hinv. done.
  - intros pa pb pc Ha Hb Hc Hne Hinv. split; [by eapply isEmpty_valid|].
    rewrite Hbody, Ha, Hb, Hc, (Hsome pc Hne), Hinv. cbv zeta.
    eexists. split; [done|]. by destruct (isTop module).
  - done.
Qed.

(** The module without members in front of the module of scenario B, and a
    module with a cell whose type is a number behind it: both documents end
    with the exception of the module that is refused, and the second
    leaves the module of scenario B in the diagram.  A module whose only
    port is an input that nothing reads loses its path in the pruning. *)
Lemma parse_aborts_on_module_error_witness :
  parse (Examples.document [("bad", Examples.emptyModule);
                            ("good", Examples.splitModule)]) newParser
  = (setCurrentModule (YModule.new "bad") newParser,
     Throw "Error while parsing bad: Module has no Ports or Nodes")
  ∧ (parse (Examples.document
              [("good", Examples.splitModule);
               ("bad", JObject [("cells", JObject [("u1", JObject [("type", JNumber 7)])])])])
       newParser).2
    = Throw "Error while parsing u1: Cell type is not valid"
  ∧ YModule.type
      <$> Diagram.modules
            (diagram
               (parse (Examples.document
                         [("good", Examples.splitModule);
                          ("bad", JObject [("cells",
                                            JObject [("u1", JObject [("type", JNumber 7)])])])])
                  newParser).1)
    = ["good"]
  ∧ (parse (Examples.document
              [("lonely", JObject [("ports",
                  JObject [("a", Examples.jport "input" (Examples.netsOf [2]))])])])
       newParser).2
    = Throw "Error while parsing lonely: Module has no Paths or Nodes".
Proof.
  split_and!.
  - apply (proj1 (proj2 (proj2 (parse_aborts_on_module_error
                    (Examples.document [("bad", Examples.emptyModule);
                                        ("good", Examples.splitModule)])
                    [] [("good", Examples.splitModule)] "bad" Examples.emptyModule
                    newParser newParser eq_refl eq_refl eq_refl)))
             (setCurrentModule (YModule.new "bad") newParser)
             eq_refl eq_refl eq_refl).
  - destruct (proj1 (proj2 (proj2 (proj2 (parse_aborts_on_module_error
                (Examples.document
                   [("good", Examples.splitModule);
                    ("bad", JObject [("cells",
                                      JObject [("u1", JObject [("type", JNumber 7)])])])])
                [("good", Examples.splitModule)] [] "bad"
                (JObject [("cells", JObject [("u1", JObject [("type", JNumber 7)])])])
                newParser
                (forEach [("good", Examples.splitModule)]
                   (λ '(name, module), Parse.body name module) newParser).1
                eq_refl ltac:(vm_compute; reflexivity) eq_refl))))
              _ _ [] "u1" (JObject [("type", JNumber 7)]) []
              eq_refl eq_refl eq_refl (Forall_nil_2 _) eq_refl) as [Hparse Hdiagram].
    by rewrite Hparse.
  - destruct (proj1 (proj2 (proj2 (proj2 (parse_aborts_on_module_error
                (Examples.document
                   [("good", Examples.splitModule);
                    ("bad", JObject [("cells",
                                      JObject [("u1", JObject [("type", JNumber 7)])])])])
                [("good", Examples.splitModule)] [] "bad"
                (JObject [("cells", JObject [("u1", JObject [("type", JNumber 7)])])])
                newParser
                (forEach [("good", Examples.splitModule)]
                   (λ '(name, module), Parse.body name module) newParser).1
                eq_refl ltac:(vm_compute; reflexivity) eq_refl))))
              _ _ [] "u1" (JObject [("type", JNumber 7)]) []
              eq_refl eq_refl eq_refl (Forall_nil_2 _) eq_refl) as [Hparse Hdiagram].
    rewrite Hparse. cbn [fst]. rewrite Hdiagram. vm_compute. reflexivity.
  - destruct (proj1 (proj2 (proj2 (proj2 (proj2 (proj2 (parse_aborts_on_module_error
                (Examples.document
                   [("lonely", JObject [("ports",
                       JObject [("a", Examples.jport "input" (Examples.netsOf [2]))])])])
                [] [] "lonely"
                (JObject [("ports",
                   JObject [("a", Examples.jport "input" (Examples.netsOf [2]))])])
                newParser newParser eq_refl eq_refl eq_refl))))))
              (setCurrentModule (YModule.new "lonely") newParser)
              (parsePorts [("a", Examples.jport "input" (Examples.netsOf [2]))]
                 (setCurrentModule (YModule.new "lonely") newParser)).1
              (parsePorts [("a", Examples.jport "input" (Examples.netsOf [2]))]
                 (setCurrentModule (YModule.new "lonely") newParser)).1
              eq_refl ltac:(vm_compute; reflexivity) ltac:(vm_compute; reflexivity)
              ltac:(vm_compute; intros [H _]; discriminate H)
              ltac:(vm_compute; reflexivity)) as [Hparse _].
    by rewrite Hparse.
Defined.

(** ** Where the consumers end up *)

Section AttachProofs.
Implicit Types (p q : Parser) (s d : PortPtr) (pa : PathPtr).

(** After the stitching the consumers of a path are the consumer ports
    that [getPathByBits] sends to it, in their order. *)
Lemma attached_filter p :
  YModule.paths (currentModule p) = [] →
  let p' := createSignalConnections p in
  let destPorts := CreateSignalConnections.destPorts (store p) (currentModule p) in
  ∀ pa, pa ∈ YModule.paths (currentModule p') →
    Path.sigDestinations (path (store p') pa)
    = List.filter
        (λ d, bool_decide
                (YModule.getPathByBits (store p') (Port.bits (port (store p') d))
                   (currentModule p') = Some pa))
        destPorts.
Proof.
  intros Hempty p' destPorts pa Hpa.
  set (srcPorts := CreateSignalConnections.srcPorts (store p) (currentModule p)).
  pose proof (stitched_loop srcPorts p destPorts _ [] Hempty
                (stitched_after_src srcPorts p)) as Hst.
  assert (p' = connectSignalDestConnections destPorts
                 (connectSignalSrcConnections srcPorts p)) as Hp' by done.
  rewrite <- Hp' in Hst. simpl in Hst. clearbody p'.
  pose proof (λ d, found_stitched srcPorts p p' destPorts d Hempty Hst) as Hfound.
  destruct Hst as (Hm & _ & _ & _ & _ & Hdest).
  destruct (src_loop srcPorts p) as (_ & _ & Hpaths).
  rewrite Hm, Hpaths, Hempty in Hpa. simpl in Hpa.
  apply elem_of_seq in Hpa as [Hlo Hhi].
  replace pa with (length (pathObj (store p))
                   + (pa - length (pathObj (store p))))%nat by lia.
  rewrite Hdest by lia. apply List.filter_ext. intros d.
  rewrite Hfound. unfold attached.
  destruct (list_find _ srcPorts) as [[j y]|]; simpl; [|done].
  case_bool_decide as Hj; case_bool_decide as Hj'; try done.
  - exfalso. apply Hj'. f_equal. injection Hj as ->. lia.
  - exfalso. apply Hj. injection Hj'. intros. f_equal. lia.
Qed.

(** The turn of the loop for a consumer whose bits a path has. *)
Lemma dest_body_found q d pa :
  YModule.getPathByBits (store q) (Port.bits (port (store q) d)) (currentModule q)
  = Some pa →
  ∀ x, (x < length (pathObj (store q)))%nat →
    Path.sigDestinations (path (store (ConnectSignalDest.body q d)) x)
    = Path.sigDestinations (path (store q) x) ++ (if decide (x = pa) then [d] else []).
Proof.
  intros Hf x Hx. destruct (dest_body_exact q d) as (_ & _ & Hdest).
  rewrite (Hdest x Hx), Hf. f_equal.
  case_decide as H1; case_decide as H2; try done.
  - exfalso. apply H2. by injection H1.
  - exfalso. apply H1. by rewrite H2.
Qed.
End AttachProofs.

(** C8: after [createSignalConnections] on a module that had no path yet,
    the consumers of every path are, in their order and as often as they
    are listed, exactly the consumer ports that [getPathByBits] sends to
    this path, the first path whose bits equal theirs; so each consumer
    sits on that path and on no other, and no consumer is on two paths.
    In the loop, the turn for a consumer with such a path appends the
    consumer to that path and to no other; the turn for a consumer without
    one changes nothing. *)
Theorem sink_single_claim (p : Parser) :
  YModule.paths (currentModule p) = [] →
  let p' := createSignalConnections p in
  let destPorts := CreateSignalConnections.destPorts (store p) (currentModule p) in
  (∀ pa, pa ∈ YModule.paths (currentModule p') →
     sublist (Path.sigDestinations (path (store p') pa)) destPorts
     ∧ ∀ d, d ∈ Path.sigDestinations (path (store p') pa) →
            YModule.getPathByBits (store p') (Port.bits (port (store p') d))
              (currentModule p') = Some pa)
  ∧ (∀ d pa1 pa2,
       pa1 ∈ YModule.paths (currentModule p') →
       pa2 ∈ YModule.paths (currentModule p') →
       d ∈ Path.sigDestinations (path (store p') pa1) →
       d ∈ Path.sigDestinations (path (store p') pa2) →
       pa1 = pa2)
  ∧ (∀ q destPort,
       YModule.getPathByBits (store q) (Port.bits (port (store q) destPort))
         (currentModule q) = None →
       ConnectSignalDest.body q destPort = q)
  ∧ (∀ pa, pa ∈ YModule.paths (currentModule p') →
       Path.sigDestinations (path (store p') pa)
       = List.filter
           (λ d, bool_decide
                   (YModule.getPathByBits (store p') (Port.bits (port (store p') d))
                      (currentModule p') = Some pa))
           destPorts)
  ∧ (∀ d pa,
       d ∈ destPorts → pa ∈ YModule.paths (currentModule p') →
       YModule.getPathByBits (store p') (Port.bits (port (store p') d))
         (currentModule p') = Some pa →
       d ∈ Path.sigDestinations (path (store p') pa))
  ∧ (∀ q destPort pa,
       YModule.getPathByBits (store q) (Port.bits (port (store q) destPort))
         (currentModule q) = Some pa →
       ∀ x, (x < length (pathObj (store q)))%nat →
         Path.sigDestinations (path (store (ConnectSignalDest.body q destPort)) x)
         = Path.sigDestinations (path (store q) x)
           ++ (if decide (x = pa) then [destPort] else [])).
Proof.
  intros Hempty p' destPorts.
  assert (claimed p' destPorts) as Hc.
  { unfold p', createSignalConnections. fold destPorts.
    change destPorts with ([] ++ destPorts).
    apply claimed_loop. by apply claimed_after_src. }
  pose proof (attached_filter p Hempty) as Hfilter. simpl in Hfilter.
  fold p' destPorts in Hfilter.
  split_and!; [exact Hc | | | exact Hfilter | |].
  - intros d pa1 pa2 H1 H2 Hd1 Hd2.
    destruct (Hc pa1 H1) as [_ Hf1]. destruct (Hc pa2 H2) as [_ Hf2].
    specialize (Hf1 d Hd1). specialize (Hf2 d Hd2). congruence.
  - intros q destPort Hnone. unfold ConnectSignalDest.body. by rewrite Hnone.
  - intros d pa Hd Hpa Hfound. rewrite (Hfilter pa Hpa).
    apply list_elem_of_In, filter_In. split; [by apply list_elem_of_In|].
    by apply bool_decide_eq_true_2.
  - intros q destPort pa. apply dest_body_found.
Qed.

(** Two consumers on the net of [a] and one on a net that nothing drives:
    the path of [a] has the first two, in their order. *)
Lemma sink_single_claim_witness :
  YModule.paths
    (currentModule
       (afterPorts "m" [Port.new "a" INPUT ["2"]; Port.new "b" OUTPUT ["2"];
                        Port.new "c" OUTPUT ["2"]; Port.new "d" OUTPUT ["7"]])) = []
  ∧ Path.sigDestinations
      (path (store (createSignalConnections
                      (afterPorts "m" [Port.new "a" INPUT ["2"]; Port.new "b" OUTPUT ["2"];
                                       Port.new "c" OUTPUT ["2"];
                                       Port.new "d" OUTPUT ["7"]])))
         0%nat)
    = [1%nat; 2%nat].
Proof.
  split; [reflexivity|].
  etrans.
  - apply (proj1 (proj2 (proj2 (proj2
             (sink_single_claim
                (afterPorts "m" [Port.new "a" INPUT ["2"]; Port.new "b" OUTPUT ["2"];
                                 Port.new "c" OUTPUT ["2"]; Port.new "d" OUTPUT ["7"]])
                eq_refl)))) 0%nat).
    vm_compute. apply list_elem_of_here.
  - vm_compute. reflexivity.
Defined.

(** ** The driver of a path *)

Section DriverProofs.
Implicit Types (p q : Parser) (s d : PortPtr) (pa : PathPtr).

(** The path that [connectSignalSrcConnections] hands to [setSigSource]
    is the one made just before: it has no driver, and the flag decides
    nothing. *)
Lemma src_body_flag p s allowOverwrite :
  let made := Path.new (ConnectSignalSrc.naming p s).1
                (Port.bits (port (store p) s)) (ConnectSignalSrc.naming p s).2 in
  let pa := (newPath made (store p)).1 in
  let h := (newPath made (store p)).2 in
  path h pa = made
  ∧ Path.sigSource (path h pa) = None
  ∧ ConnectSignalSrc.body p s
    = onModule (YModule.addPath pa)
        (setStore
           (updPort s (Port.setPath (Some pa))
              (updPath pa (Path.setSigSource (Some s) allowOverwrite) h))
           p).
Proof.
  cbv zeta. unfold ConnectSignalSrc.body.
  destruct (ConnectSignalSrc.naming p s) as [pathName isHidden] eqn:Hn.
  destruct p as [dg m c [po pt no]].
  unfold newPath, path, updPath. cbn [fst snd store pathObj portObj nodeObj].
  rewrite lookup_total_snoc. split_and!; [done..|].
  do 3 f_equal.
  rewrite !alter_last. unfold Path.setSigSource, Path.new. simpl.
  by destruct allowOverwrite.
Qed.

Lemma dest_loop_sources destPorts q :
  let q' := connectSignalDestConnections destPorts q in
  length (pathObj (store q')) = length (pathObj (store q))
  ∧ ∀ x, Path.sigSource (path (store q') x) = Path.sigSource (path (store q) x).
Proof.
  unfold connectSignalDestConnections.
  revert q. induction destPorts as [|d destPorts IH]; intros q; simpl; [done|].
  destruct (IH (ConnectSignalDest.body q d)) as [Hl Hs].
  destruct (dest_body_exact q d) as (Hl' & Hs' & _).
  split; [by rewrite Hl|]. intros x. by rewrite Hs.
Qed.

(** The drivers after both loops of the stitching. *)
Lemma stitch_sources srcPorts destPorts p :
  let q := connectSignalDestConnections destPorts
             (connectSignalSrcConnections srcPorts p) in
  length (pathObj (store q)) = (length (pathObj (store p)) + length srcPorts)%nat
  ∧ (∀ x, (x < length (pathObj (store p)))%nat →
          path (store (connectSignalSrcConnections srcPorts p)) x = path (store p) x
          ∧ Path.sigSource (path (store q) x) = Path.sigSource (path (store p) x))
  ∧ (∀ i s, srcPorts !! i = Some s →
            Path.sigSource (path (store q) (length (pathObj (store p)) + i)%nat)
            = Some s).
Proof.
  intros q.
  destruct (dest_loop_sources destPorts (connectSignalSrcConnections srcPorts p))
    as [Hl Hs]. fold q in Hl, Hs.
  destruct (src_loop srcPorts p) as (_ & Hobj & _).
  assert (∀ x, (x < length (pathObj (store p)))%nat →
            path (store (connectSignalSrcConnections srcPorts p)) x
            = path (store p) x) as Hold.
  { intros x Hx. unfold path. rewrite Hobj.
    destruct (lookup_lt_is_Some_2 (pathObj (store p)) x Hx) as [o Ho].
    rewrite (list_lookup_total_correct _ _ _ Ho).
    apply list_lookup_total_correct. by rewrite lookup_app_l. }
  split_and!.
  - by rewrite Hl, Hobj, length_app, length_fmap.
  - intros x Hx. split; [by apply Hold|]. by rewrite Hs, Hold.
  - intros i s Hi. rewrite Hs. unfold path. rewrite Hobj.
    assert ((pathObj (store p) ++ (driverPath p <$> srcPorts))
              !! (length (pathObj (store p)) + i)%nat = Some (driverPath p s)) as Hnew.
    { by rewrite lookup_app_add, list_lookup_fmap, Hi. }
    by rewrite (list_lookup_total_correct _ _ _ Hnew).
Qed.

Lemma replaceConstBits_pathObj p :
  pathObj (store (replaceConstBits p)) = pathObj (store p).
Proof.
  unfold replaceConstBits.
  apply (foldl_invariant (λ st, pathObj (store st.1) = pathObj (store p))); [done|].
  intros [q n] s Hq. unfold ReplaceConstBits.body. simpl in *.
  assert (pathObj (store (foldl (ReplaceConstBits.run s) (q, n)
                            (splitBits (Port.bits (port (store q) s)))).1)
          = pathObj (store p)) as H.
  { apply (foldl_invariant (λ st, pathObj (store st.1) = pathObj (store p))); [done|].
    intros [q' n'] [pos bitValue] Hq'. unfold ReplaceConstBits.run. simpl in *.
    destruct (negb _); [done|].
    destruct (ReplaceConstBits.freshBits n' bitValue) as [bits n''].
    unfold createConstantPort, newPort. simpl. done. }
  by destruct (foldl _ _ _).
Qed.

(** From the reading of a module to its validation: the paths that were
    in the store keep their driver, and every path that has come has
    one. *)
Lemma pipeline_sources p :
  let q := pipeline p in
  (length (pathObj (store p)) ≤ length (pathObj (store q)))%nat
  ∧ (∀ x, (x < length (pathObj (store p)))%nat →
          Path.sigSource (path (store q) x) = Path.sigSource (path (store p) x))
  ∧ (∀ x, (length (pathObj (store p)) ≤ x < length (pathObj (store q)))%nat →
          is_Some (Path.sigSource (path (store q) x))).
Proof.
  unfold pipeline. rewrite removeUnconnectedPaths_filter.
  unfold connectDiagramConnections. cbv zeta.
  set (p0 := replaceConstBits p).
  set (st := foldl resolve _ _).
  set (p1 := createJoinNodes (joinInfo st) p0).
  set (p2 := createSplitNodes (splitInfo st) p1).
  assert (pathObj (store p2) = pathObj (store p)) as Hobj.
  { destruct (createSplitNodes_synthesized (splitInfo st) p1)
      as (_ & _ & _ & _ & _ & H2 & _).
    destruct (createJoinNodes_synthesized (joinInfo st) p0)
      as (_ & _ & _ & _ & _ & H1 & _).
    fold p2 in H2. fold p1 in H1. rewrite H2, H1. apply replaceConstBits_pathObj. }
  clearbody p2. clear p1 st p0.
  unfold createSignalConnections. cbv zeta.
  set (srcPorts := CreateSignalConnections.srcPorts _ _).
  set (destPorts := CreateSignalConnections.destPorts _ _).
  destruct (stitch_sources srcPorts destPorts p2) as (Hl & Hold & Hnew).
  clearbody srcPorts destPorts. simpl in *.
  unfold path in *. rewrite Hobj in *. split_and!.
  - lia.
  - intros x Hx. by apply Hold.
  - intros x [Hlo Hhi]. rewrite Hl in Hhi.
    destruct (lookup_lt_is_Some_2 srcPorts (x - length (pathObj (store p)))) as [s Hs];
      [lia|].
    specialize (Hnew _ s Hs).
    replace (length (pathObj (store p)) + (x - length (pathObj (store p))))%nat
      with x in Hnew by lia.
    by rewrite Hnew.
Qed.
End DriverProofs.

(** C10, as the code has it: [setSigSource] without [allowOverwrite]
    returns a path that has a driver as it is; when the path has no
    driver, or [allowOverwrite] is set, only the driver field is written;
    in the store, the call on a path that has a driver changes nothing.
    In the stitching the rule decides nothing: the one call of
    [setSigSource] is made on the path created just before it, which has
    no driver, so the turn for a driver is the same with either value of
    the flag.  After both loops of the stitching every path that was there
    before has the driver it had, and the path made for the [i]-th driver
    port has this port as its driver; so from the reading of a module to
    its validation no driver of a path is replaced, and every path that
    is made has a driver. *)
Theorem setSigSource_first_driver_wins (p : Path.t) (sigSource : option PortPtr) :
  (Path.sigSource p ≠ None → Path.setSigSource sigSource false p = p)
  ∧ (∀ allowOverwrite,
       Path.sigSource p = None ∨ allowOverwrite = true →
       Path.setSigSource sigSource allowOverwrite p
       = Path.mk (Path.name p) (Path.width p) (Path.bits p) (Path.hiddenName p)
           sigSource (Path.sigDestinations p) (Path.alternativeNames p))
  ∧ (∀ (h : Store) (pa : PathPtr),
       Path.sigSource (path h pa) ≠ None →
       updPath pa (Path.setSigSource sigSource false) h = h)
  ∧ (∀ (q : Parser) (srcPort : PortPtr) (allowOverwrite : bool),
       let made := Path.new (ConnectSignalSrc.naming q srcPort).1
                     (Port.bits (port (store q) srcPort))
                     (ConnectSignalSrc.naming q srcPort).2 in
       let pa := (newPath made (store q)).1 in
       let h := (newPath made (store q)).2 in
       path h pa = made
       ∧ Path.sigSource (path h pa) = None
       ∧ ConnectSignalSrc.body q srcPort
         = onModule (YModule.addPath pa)
             (setStore
                (updPort srcPort (Port.setPath (Some pa))
                   (updPath pa (Path.setSigSource (Some srcPort) allowOverwrite) h))
                q))
  ∧ (∀ (q : Parser) (srcPorts destPorts : list PortPtr),
       let q' := connectSignalDestConnections destPorts
                   (connectSignalSrcConnections srcPorts q) in
       length (pathObj (store q'))
       = (length (pathObj (store q)) + length srcPorts)%nat
       ∧ (∀ x, (x < length (pathObj (store q)))%nat →
               path (store (connectSignalSrcConnections srcPorts q)) x
               = path (store q) x
               ∧ Path.sigSource (path (store q') x)
                 = Path.sigSource (path (store q) x))
       ∧ (∀ i s, srcPorts !! i = Some s →
                 Path.sigSource
                   (path (store q') (length (pathObj (store q)) + i)%nat)
                 = Some s))
  ∧ (∀ (q : Parser),
       let q' := pipeline q in
       (length (pathObj (store q)) ≤ length (pathObj (store q')))%nat
       ∧ (∀ x, (x < length (pathObj (store q)))%nat →
               Path.sigSource (path (store q') x)
               = Path.sigSource (path (store q) x))
       ∧ (∀ x, (length (pathObj (store q)) ≤ x < length (pathObj (store q')))%nat →
               is_Some (Path.sigSource (path (store q') x)))).
Proof.
  split_and!.
  - intros H. unfold Path.setSigSource. by rewrite bool_decide_eq_true_2.
  - intros allow [H | ->]; unfold Path.setSigSource.
    + rewrite H. by rewrite bool_decide_eq_false_2 by (by intros ?).
    + by rewrite andb_false_r.
  - intros h pa H. unfold updPath, path in *. destruct h as [po pt no]; simpl in *.
    f_equal. apply alter_fixed.
    unfold Path.setSigSource. by rewrite bool_decide_eq_true_2.
  - intros q srcPort allowOverwrite. apply src_body_flag.
  - intros q srcPorts destPorts. apply stitch_sources.
  - intros q. apply pipeline_sources.
Qed.

(** A path with the driver 0 keeps it; in scenario B after the split node
    the third path is the one of the port [out1] of the node. *)
Lemma setSigSource_first_driver_wins_witness :
  Path.setSigSource (Some 7%nat) false
    (Path.mk "a_sig" 1 ["2"] true (Some 0%nat) [1%nat] [])
  = Path.mk "a_sig" 1 ["2"] true (Some 0%nat) [1%nat] []
  ∧ Path.sigSource
      (path (store (connectSignalDestConnections [1%nat; 2%nat; 3%nat]
                      (connectSignalSrcConnections [0%nat; 4%nat; 5%nat]
                         (createSplitNodes
                            [(["n1"; "n2"; "n3"; "n4"], [["n1"; "n2"]; ["n3"; "n4"]])]
                            (afterPorts "m"
                               [Port.new "a" INPUT ["n1"; "n2"; "n3"; "n4"];
                                Port.new "b" OUTPUT ["n1"; "n2"];
                                Port.new "c" OUTPUT ["n3"; "n4"]])))))
         2%nat)
    = Some 5%nat.
Proof.
  split.
  - apply (proj1 (setSigSource_first_driver_wins
                    (Path.mk "a_sig" 1 ["2"] true (Some 0%nat) [1%nat] [])
                    (Some 7%nat))).
    simpl. discriminate.
  - exact (proj2 (proj2 (proj1 (proj2 (proj2 (proj2 (proj2
             (setSigSource_first_driver_wins
                (Path.mk "a_sig" 1 ["2"] true (Some 0%nat) [1%nat] []) None)))))
             (createSplitNodes
                [(["n1"; "n2"; "n3"; "n4"], [["n1"; "n2"]; ["n3"; "n4"]])]
                (afterPorts "m"
                   [Port.new "a" INPUT ["n1"; "n2"; "n3"; "n4"];
                    Port.new "b" OUTPUT ["n1"; "n2"];
                    Port.new "c" OUTPUT ["n3"; "n4"]]))
             [0%nat; 4%nat; 5%nat] [1%nat; 2%nat; 3%nat]))
             2%nat 5%nat eq_refl).
Defined.

(** On a path that has a driver the flag decides which driver stays; in
    the stitching of scenario B the drivers come out the same with the
    flag set, where no driver can win over a later one. *)
Lemma setSigSource_guard_idle_counterexample :
  Path.setSigSource (Some 7%nat) true
    (Path.mk "a_sig" 1 ["2"] true (Some 0%nat) [1%nat] [])
  ≠ Path.setSigSource (Some 7%nat) false
      (Path.mk "a_sig" 1 ["2"] true (Some 0%nat) [1%nat] [])
  ∧ foldl
      (λ q srcPort,
         let '(pathName, isHidden) := ConnectSignalSrc.naming q srcPort in
         let '(pa, h) :=
           newPath (Path.new pathName (Port.bits (port (store q) srcPort)) isHidden)
             (store q) in
         let h := updPath pa (Path.setSigSource (Some srcPort) true) h in
         let h := updPort srcPort (Port.setPath (Some pa)) h in
         onModule (YModule.addPath pa) (setStore h q))
      (createSplitNodes
         [(["n1"; "n2"; "n3"; "n4"], [["n1"; "n2"]; ["n3"; "n4"]])]
         (afterPorts "m"
            [Port.new "a" INPUT ["n1"; "n2"; "n3"; "n4"];
             Port.new "b" OUTPUT ["n1"; "n2"];
             Port.new "c" OUTPUT ["n3"; "n4"]]))
      [0%nat; 4%nat; 5%nat]
    = connectSignalSrcConnections [0%nat; 4%nat; 5%nat]
        (createSplitNodes
           [(["n1"; "n2"; "n3"; "n4"], [["n1"; "n2"]; ["n3"; "n4"]])]
           (afterPorts "m"
              [Port.new "a" INPUT ["n1"; "n2"; "n3"; "n4"];
               Port.new "b" OUTPUT ["n1"; "n2"];
               Port.new "c" OUTPUT ["n3"; "n4"]])).
Proof. split; [discriminate | vm_compute; reflexivity]. Qed.
